(** * A shallow embedding of [advanced-vector/vector.h]

    The header defines two class templates: [RawMemory<T>], which owns an
    uninitialised region sized for [capacity_] objects of type [T], and
    [Vector<T>], which owns a [RawMemory<T>] together with the number
    [size_] of objects currently alive in it.

    The embedding keeps the imperative shape of the code.  Raw regions
    live in a heap indexed by addresses; every cell of a region is either
    uninitialised ([None]) or holds a live object ([Some x]).  Vector
    objects that are reachable through references ([this], [rhs],
    [other]) live in an object store, so that two references may name the
    same object.  Every member function is a computation in a state
    monad with three outcomes: normal return, a C++ exception in flight,
    and abnormal termination (failed [assert], undefined behaviour, or
    [std::terminate] out of a [noexcept] function).

    The element type is a parameter ([Element]): its default value, what
    a move leaves behind in its source, its size in bytes, the two type
    traits the header inspects, and an oracle telling which constructor
    or assignment call raises.

    Sizes and capacities are natural numbers.  The one place where the
    header multiplies a count by [sizeof(T)] is [RawMemory::Allocate],
    and there the product is taken in [size_t]: for a count that the
    caller of [Reserve], [Resize] or [Vector(size)] chose it is reduced
    modulo [2^64], and the block obtained is then too small for the
    capacity the vector records.  A count that the header itself derives
    from the objects alive in a buffer (their number, or twice their
    number) is bounded by what is in memory, far below [2^63] bytes; its
    product with [sizeof(T)] does not wrap around and is taken as it
    is. *)

From stdpp Require Import base option list gmap.

(** ** Element operations that may raise *)

(** The kinds of calls that can raise an exception: [operator new], and
    the five special members of [T] plus a constructor from arbitrary
    arguments ([T(std::forward<Args>(args)...)]). *)
Inductive op : Set :=
  | OpNew | OpDefault | OpCopy | OpMove | OpArgs | OpCopyAssign | OpMoveAssign.

#[global] Instance op_eq_dec : EqDecision op.
Proof. solve_decision. Defined.

(** ** Pointers, raw memory handles, vector objects *)

(** A [T*]: the region it points into ([None] for a pointer derived
    from [nullptr]) and an element offset inside that region. *)
Record ptr : Set := Ptr { region : option nat; index : nat }.

#[global] Instance ptr_eq_dec : EqDecision ptr.
Proof. solve_decision. Defined.

(** [p + n] on element pointers. *)
Definition ptr_add (p : ptr) (n : nat) : ptr := Ptr (region p) (index p + n).

(** [p - n] on element pointers. *)
Definition ptr_sub (p : ptr) (n : nat) : ptr := Ptr (region p) (index p - n).

(** [p <= q]; only meaningful inside one region. *)
Definition ptr_le (p q : ptr) : bool :=
  bool_decide (region p = region q) && (index p <=? index q).

(** [p < q]; only meaningful inside one region. *)
Definition ptr_lt (p q : ptr) : bool :=
  bool_decide (region p = region q) && (index p <? index q).

(** [std::distance(p, q)] for [p <= q]. *)
Definition distance (p q : ptr) : nat := index q - index p.

(** The two data members of [RawMemory<T>]. *)
Record RawMemory : Set := { buffer_ : option nat; capacity_ : nat }.

(** The two data members of [Vector<T>]. *)
Record Vector : Set := { data_ : RawMemory; size_ : nat }.

(** [RawMemory() = default]: [buffer_ = nullptr], [capacity_ = 0]. *)
Definition RawMemory_default : RawMemory := {| buffer_ := None; capacity_ := 0 |}.

(** [RawMemory::GetAddress]. *)
Definition GetAddress (r : RawMemory) : ptr := Ptr (buffer_ r) 0.

(** [RawMemory::Capacity]. *)
Definition RawMemory_Capacity (r : RawMemory) : nat := capacity_ r.

(** ** The monad

    A computation takes the machine state and yields an outcome
    together with the state at that point: a normal return, a C++
    exception in flight, or abnormal termination (failed [assert],
    undefined behaviour, [std::terminate]). *)

Inductive outcome (A : Type) : Type :=
  | Ret (a : A)
  | Throw
  | Fault.
Arguments Ret {A} a.
Arguments Throw {A}.
Arguments Fault {A}.

Definition M (St A : Type) : Type := St -> outcome A * St.

Definition ret {St A} (a : A) : M St A := fun s => (Ret a, s).

Definition bind {St A B} (m : M St A) (k : A -> M St B) : M St B := fun s =>
  match m s with
  | (Ret a, s') => k a s'
  | (Throw, s') => (Throw, s')
  | (Fault, s') => (Fault, s')
  end.

(** [throw;] *)
Definition throw {St A} : M St A := fun s => (Throw, s).

(** Failed [assert], undefined behaviour, [std::terminate]. *)
Definition fault {St A} : M St A := fun s => (Fault, s).

(** [assert(b)] *)
Definition assert {St} (b : bool) : M St unit := if b then ret tt else fault.

(** [try { m } catch (...) { h }] *)
Definition catch {St A} (m h : M St A) : M St A := fun s =>
  match m s with
  | (Throw, s') => h s'
  | r => r
  end.

(** Stack unwinding past a scope: if [m] raises, [cleanup] runs and the
    exception continues. *)
Definition on_unwind {St A} (m : M St A) (cleanup : M St unit) : M St A :=
  catch m (bind cleanup (fun _ => throw)).

(** A [noexcept] function: an escaping exception calls [std::terminate]. *)
Definition noexcept {St A} (m : M St A) : M St A := fun s =>
  match m s with
  | (Throw, s') => (Fault, s')
  | r => r
  end.

Declare Scope cpp_scope.
Delimit Scope cpp_scope with cpp.
Notation "x <- m ;; k" := (bind m (fun x => k))
  (at level 100, m at next level, right associativity) : cpp_scope.
Notation "m ;; k" := (bind m (fun _ => k))
  (at level 100, right associativity) : cpp_scope.
Open Scope cpp_scope.

(** [size_t i = 0; for (; i != n; ++i) body(i);] run from [i] for [n]
    more rounds, reporting the value of [i] at exit together with the
    outcome, so that a handler can see how far the loop got. *)
Fixpoint counted {St} (body : nat -> M St unit) (i n : nat) (s : St)
    : nat * outcome unit * St :=
  match n with
  | 0 => (i, Ret tt, s)
  | S n' =>
      match body i s with
      | (Ret _, s') => counted body (S i) n' s'
      | (Throw, s') => (i, Throw, s')
      | (Fault, s') => (i, Fault, s')
      end
  end.

(** [size_t i = 0; try { for (; i != n; ++i) body(i); }
     catch (...) { handler(i); }] *)
Definition try_counted {St} (body : nat -> M St unit) (n : nat)
    (handler : nat -> M St unit) : M St unit := fun s =>
  match counted body 0 n s with
  | (_, Ret _, s') => (Ret tt, s')
  | (i, Throw, s') => handler i s'
  | (_, Fault, s') => (Fault, s')
  end.

(** [for (i = 0; i != n; ++i) body(i);] without a handler. *)
Definition for_each {St} (body : nat -> M St unit) (n : nat) : M St unit :=
  try_counted body n (fun _ => throw).

(** ** The element type *)

(** What the header can observe of [T]. *)
Class Element (T : Type) : Type := {
  (** the value of a value-initialised object, [T()] *)
  dflt : T;
  (** the value left in the source of a move construction or assignment *)
  moved : T -> T;
  (** [sizeof(T)], which is never zero *)
  size_of : nat;
  size_of_pos : 0 < size_of;
  (** [std::is_nothrow_move_constructible_v<T>] *)
  nothrow_move : bool;
  (** [std::is_copy_constructible_v<T>] *)
  copyable : bool;
  (** [throws k n]: the call of kind [k] raises when it is the [n]-th
      fallible call of the run *)
  throws : op -> nat -> bool;
  (** a move constructor declared non-raising does not raise *)
  nothrow_move_sound : nothrow_move = true -> forall n, throws OpMove n = false
}.

Section vector.

Context {T : Type} {E : Element T}.

(** ** Machine state *)

(** Observable events, in program order.  [EFree a live] records the
    objects that were still alive in region [a] when it was released. *)
Inductive event : Type :=
  | EAlloc (a : nat) (n : nat)
  | EFree (a : nat) (live : list T)
  | ECtor (k : op) (x : T)
  | EDtor (x : T)
  | EAssign (k : op) (x : T).

Record state : Type := State {
  heap : gmap nat (list (option T));
  vecs : gmap nat Vector;
  ticks : nat;
  log : list event
}.


(** ** Primitive state accesses *)

(** Read the object named [v]; a dangling reference is undefined. *)
Definition get_vec (v : nat) : M state Vector := fun s =>
  match vecs s !! v with
  | Some x => (Ret x, s)
  | None => (Fault, s)
  end.

Definition set_vec (v : nat) (x : Vector) : M state unit := fun s =>
  (Ret tt, State (heap s) (<[v := x]> (vecs s)) (ticks s) (log s)).

(** The object named [v] ceases to exist. *)
Definition del_vec (v : nat) : M state unit := fun s =>
  (Ret tt, State (heap s) (delete v (vecs s)) (ticks s) (log s)).

(** A name for a local [Vector] that no live object uses. *)
Definition new_local : M state nat := fun s => (Ret (fresh (dom (vecs s))), s).

Definition get_data (v : nat) : M state RawMemory :=
  x <- get_vec v ;; ret (data_ x).

Definition get_size (v : nat) : M state nat :=
  x <- get_vec v ;; ret (size_ x).

Definition set_data (v : nat) (d : RawMemory) : M state unit :=
  x <- get_vec v ;; set_vec v {| data_ := d; size_ := size_ x |}.

Definition set_size (v : nat) (n : nat) : M state unit :=
  x <- get_vec v ;; set_vec v {| data_ := data_ x; size_ := n |}.

(** One call of kind [k] that may raise: the oracle decides, and the
    call is counted either way. *)
Definition fallible (k : op) : M state unit := fun s =>
  (if throws k (ticks s) then Throw else Ret tt,
   State (heap s) (vecs s) (S (ticks s)) (log s)).

Definition emit (e : event) : M state unit := fun s =>
  (Ret tt, State (heap s) (vecs s) (ticks s) (log s ++ [e])).

(** Read the live object [p] points to; reading through a null or dangling
    pointer, out of the region, or from an uninitialised cell is
    undefined. *)
Definition peek (p : ptr) : M state T := fun s =>
  match region p with
  | Some a =>
      match heap s !! a with
      | Some cells =>
          match cells !! index p with
          | Some (Some x) => (Ret x, s)
          | _ => (Fault, s)
          end
      | None => (Fault, s)
      end
  | None => (Fault, s)
  end.

(** Overwrite the cell [p] points to. *)
Definition poke (p : ptr) (c : option T) : M state unit := fun s =>
  match region p with
  | Some a =>
      match heap s !! a with
      | Some cells =>
          if decide (index p < length cells)
          then (Ret tt, State (<[a := <[index p := c]> cells]> (heap s))
                              (vecs s) (ticks s) (log s))
          else (Fault, s)
      | None => (Fault, s)
      end
  | None => (Fault, s)
  end.

(** ** Operations of the element type *)

(** [new (p) T(...)] where the constructor of kind [k] would produce
    [x]: nothing is constructed if it raises. *)
Definition construct_at (k : op) (p : ptr) (x : T) : M state unit :=
  fallible k ;; poke p (Some x) ;; emit (ECtor k x).

(** [new (p) T(elem)] where [elem] is the object [src] points to. *)
Definition copy_construct (p src : ptr) : M state unit :=
  x <- peek src ;; construct_at OpCopy p x.

(** [new (p) T(std::move(elem))] where [elem] is the object [src]
    points to; the source is left in its moved-from state. *)
Definition move_construct (p src : ptr) : M state unit :=
  x <- peek src ;; construct_at OpMove p x ;; poke src (Some (moved x)).

(** Copy assignment of the object at [src] to the object at [dst]. *)
Definition copy_assign (dst src : ptr) : M state unit :=
  x <- peek src ;; _ <- peek dst ;;
  fallible OpCopyAssign ;; poke dst (Some x) ;; emit (EAssign OpCopyAssign x).

(** Move assignment of the object at [src] to the object at [dst]. *)
Definition move_assign (dst src : ptr) : M state unit :=
  x <- peek src ;; _ <- peek dst ;;
  fallible OpMoveAssign ;; poke dst (Some x) ;; poke src (Some (moved x)) ;;
  emit (EAssign OpMoveAssign x).

(** [p->~T()]; destructors do not raise. *)
Definition destroy_at (p : ptr) : M state unit :=
  x <- peek p ;; poke p None ;; emit (EDtor x).

(** ** Standard algorithms on uninitialised memory *)

(** [std::destroy_n(first, n)] *)
Definition destroy_n (first : ptr) (n : nat) : M state unit :=
  for_each (fun i => destroy_at (ptr_add first i)) n.

(** [std::uninitialized_value_construct_n(first, n)]: on a failure the
    objects constructed so far are destroyed and the exception
    continues. *)
Definition uninitialized_value_construct_n (first : ptr) (n : nat) : M state unit :=
  try_counted (fun i => construct_at OpDefault (ptr_add first i) dflt) n
              (fun i => destroy_n first i ;; throw).

(** [std::uninitialized_copy_n(first, n, d_first)] *)
Definition uninitialized_copy_n (first : ptr) (n : nat) (d_first : ptr) : M state unit :=
  try_counted (fun i => copy_construct (ptr_add d_first i) (ptr_add first i)) n
              (fun i => destroy_n d_first i ;; throw).

(** [std::uninitialized_move_n(first, n, d_first)] *)
Definition uninitialized_move_n (first : ptr) (n : nat) (d_first : ptr) : M state unit :=
  try_counted (fun i => move_construct (ptr_add d_first i) (ptr_add first i)) n
              (fun i => destroy_n d_first i ;; throw).

(** [std::move(first, last, d_first)]: move-assigns front to back. *)
Definition std_move (first last d_first : ptr) : M state unit :=
  for_each (fun i => move_assign (ptr_add d_first i) (ptr_add first i))
           (distance first last).

(** [std::move_backward(first, last, d_last)]: move-assigns back to
    front, the last source object going to [d_last - 1]. *)
Definition std_move_backward (first last d_last : ptr) : M state unit :=
  for_each (fun i => move_assign (ptr_sub d_last (S i)) (ptr_sub last (S i)))
           (distance first last).

(** ** [RawMemory<T>] *)

(** The number of bits of [size_t]. *)
Definition size_bits : N := 64.

(** Where the count passed to [Allocate] comes from: from the caller of
    a member function that takes a [size_t], or from the number of
    objects alive in a buffer of the program. *)
Inductive origin : Set := Requested | Stored.

(** [n * sizeof(T)] as [Allocate] gets it.  A requested count is
    multiplied in [size_t], modulo [2^64].  A stored count is the number
    of objects alive in a buffer, or twice that number; these objects
    are in memory, the product is below [2^64], and it is not
    reduced. *)
Definition byte_count (o : origin) (n : nat) : N :=
  match o with
  | Requested => ((N.of_nat n * N.of_nat size_of) mod 2 ^ size_bits)%N
  | Stored => (N.of_nat n * N.of_nat size_of)%N
  end.

(** The number of objects of type [T] a block of [bytes] bytes has room
    for. *)
Definition block_cells (bytes : N) : nat := N.to_nat (bytes / N.of_nat size_of).

(** The number of cells of the block [Allocate] obtains for [n]
    objects. *)
Definition cells_for (o : origin) (n : nat) : nat := block_cells (byte_count o n).

(** [n * sizeof(T)] does not exceed the largest [size_t]. *)
Definition representable (n : nat) : Prop :=
  (N.of_nat n * N.of_nat size_of < 2 ^ size_bits)%N.

(** [operator new(bytes)]: may raise [std::bad_alloc]; otherwise yields
    a block of [bytes] bytes at an address not in use, a region of as
    many uninitialised cells as fit into it. *)
Definition operator_new (bytes : N) : M state nat :=
  fallible OpNew ;;
  fun s =>
    let a := fresh (dom (heap s)) in
    (Ret a, State (<[a := replicate (block_cells bytes) None]> (heap s))
                  (vecs s) (ticks s) (log s)).

(** [operator delete(buf)]: nothing for [nullptr]; otherwise the region
    disappears, whatever is still alive in it. *)
Definition operator_delete (buf : option nat) : M state unit := fun s =>
  match buf with
  | None => (Ret tt, s)
  | Some a =>
      match heap s !! a with
      | Some cells =>
          (Ret tt, State (delete a (heap s)) (vecs s) (ticks s)
                         (log s ++ [EFree a (omap id cells)]))
      | None => (Fault, s)
      end
  end.

(** [RawMemory::Allocate]:
    [n != 0 ? operator new(n * sizeof(T)) : nullptr].  The event records
    the count the block was asked for. *)
Definition Allocate (o : origin) (n : nat) : M state (option nat) :=
  if decide (n ≠ 0)
  then a <- operator_new (byte_count o n) ;; emit (EAlloc a n) ;; ret (Some a)
  else ret None.

(** [RawMemory::Deallocate] *)
Definition Deallocate (buf : option nat) : M state unit := operator_delete buf.

(** [explicit RawMemory(size_t capacity)]:
    [buffer_(Allocate(capacity)), capacity_(capacity)], for a capacity
    of either origin. *)
Definition RawMemory_ctor_from (o : origin) (capacity : nat) : M state RawMemory :=
  b <- Allocate o capacity ;; ret {| buffer_ := b; capacity_ := capacity |}.

(** [explicit RawMemory(size_t capacity)] on a capacity the caller
    chose. *)
Definition RawMemory_ctor (capacity : nat) : M state RawMemory :=
  RawMemory_ctor_from Requested capacity.

(** [~RawMemory()] *)
Definition RawMemory_dtor (r : RawMemory) : M state unit := Deallocate (buffer_ r).

(** [T *operator+(size_t offset)] *)
Definition RawMemory_plus (r : RawMemory) (offset : nat) : M state ptr :=
  assert (bool_decide (offset ≤ capacity_ r)) ;; ret (ptr_add (GetAddress r) offset).

(** [T &operator[](size_t index)], the reference being a pointer to the cell. *)
Definition RawMemory_index (r : RawMemory) (i : nat) : M state ptr :=
  assert (bool_decide (i < capacity_ r)) ;; ret (ptr_add (GetAddress r) i).

(** A block that declares the local [RawMemory<T> new_data(n)], for a
    count [n] of origin [o].  The
    body returns the value of the local at the end of the block, whose
    destructor then runs.  If the body raises, the destructor runs on
    the value the local was constructed with: the only statement of the
    header that changes a local [RawMemory] is the final, non-raising
    [Swap] of a relocation. *)
Definition with_RawMemory {A} (o : origin) (n : nat)
    (body : RawMemory -> M state (A * RawMemory)) : M state A :=
  new_data <- RawMemory_ctor_from o n ;;
  r <- on_unwind (body new_data) (RawMemory_dtor new_data) ;;
  RawMemory_dtor (snd r) ;;
  ret (fst r).

(** ** [Vector<T>] *)

(** [Vector() = default] constructing the object named [this]. *)
Definition Vector_ctor_default (this : nat) : M state unit :=
  set_vec this {| data_ := RawMemory_default; size_ := 0 |}.

(** [explicit Vector(size_t size)]: if the body raises, the member
    [data_] is destroyed and no object comes into being. *)
Definition Vector_ctor_size (this : nat) (size : nat) : M state unit :=
  d <- RawMemory_ctor size ;;
  on_unwind (uninitialized_value_construct_n (GetAddress d) size) (RawMemory_dtor d) ;;
  set_vec this {| data_ := d; size_ := size |}.

(** [Vector(const Vector &other)].  The buffer is made for
    [other.size_] objects, the number of objects alive in the buffer of
    [other]. *)
Definition Vector_ctor_copy (this other : nat) : M state unit :=
  o <- get_vec other ;;
  d <- RawMemory_ctor_from Stored (size_ o) ;;
  on_unwind
    (try_counted
       (fun i => dst <- RawMemory_plus d i ;;
                 src <- RawMemory_index (data_ o) i ;;
                 copy_construct dst src)
       (size_ o)
       (fun i => destroy_n (GetAddress d) i ;; throw))
    (RawMemory_dtor d) ;;
  set_vec this {| data_ := d; size_ := size_ o |}.

(** [void Swap(Vector &other) noexcept].  [std::swap] on the [data_]
    members goes through the move operations of [RawMemory], which only
    ever release null buffers on the way; the net effect is the exchange
    of the members. *)
Definition Swap (this other : nat) : M state unit :=
  a <- get_data this ;; b <- get_data other ;;
  set_data this b ;; set_data other a ;;
  n <- get_size this ;; m <- get_size other ;;
  set_size this m ;; set_size other n.

(** [Vector(Vector &&other)] *)
Definition Vector_ctor_move (this other : nat) : M state unit :=
  Vector_ctor_default this ;; Swap this other.

(** [~Vector()], followed by the destructor of the member [data_]. *)
Definition Vector_dtor (this : nat) : M state unit :=
  v <- get_vec this ;;
  destroy_n (GetAddress (data_ v)) (size_ v) ;;
  RawMemory_dtor (data_ v) ;;
  del_vec this.

(** [begin()] and [cbegin()] *)
Definition begin_ (this : nat) : M state ptr :=
  d <- get_data this ;; ret (GetAddress d).

(** [end()] and [cend()] *)
Definition end_ (this : nat) : M state ptr :=
  b <- begin_ this ;; n <- get_size this ;; ret (ptr_add b n).

(** [size_t Size() const] *)
Definition Size (this : nat) : M state nat := get_size this.

(** [size_t Capacity() const] *)
Definition Capacity (this : nat) : M state nat :=
  d <- get_data this ;; ret (RawMemory_Capacity d).

(** [const T &operator[](size_t index) const] *)
Definition Vector_index_const (this : nat) (i : nat) : M state ptr :=
  d <- get_data this ;; RawMemory_index d i.

(** [T &operator[](size_t index)] *)
Definition Vector_index (this : nat) (i : nat) : M state ptr :=
  n <- get_size this ;; assert (bool_decide (i < n)) ;;
  d <- get_data this ;; RawMemory_index d i.

(** [++size_] *)
Definition incr_size (this : nat) : M state unit :=
  n <- get_size this ;; set_size this (S n).

(** [--size_] *)
Definition decr_size (this : nat) : M state unit :=
  n <- get_size this ;; set_size this (n - 1).

(** The compile-time test of both relocation sites:
    [is_nothrow_move_constructible_v<T> || !is_copy_constructible_v<T>]. *)
Definition relocate_by_move : bool := nothrow_move || negb copyable.

(** [ElementsMigration(from, to, number_of_elements)].  Both call sites
    pass the member [data_] of [this] as [from] and a local as [to]; the
    result is the value of the local after the final [Swap]. *)
Definition ElementsMigration (this : nat) (to : RawMemory) (number_of_elements : nat)
    : M state RawMemory :=
  from <- get_data this ;;
  (if relocate_by_move
   then uninitialized_move_n (GetAddress from) number_of_elements (GetAddress to)
   else uninitialized_copy_n (GetAddress from) number_of_elements (GetAddress to)) ;;
  destroy_n (GetAddress from) number_of_elements ;;
  set_data this to ;;
  ret from.

(** [void Reserve(size_t new_capacity)].  The new buffer is made for the
    capacity the caller asked for. *)
Definition Reserve (this : nat) (new_capacity : nat) : M state unit :=
  d <- get_data this ;;
  if decide (new_capacity ≤ RawMemory_Capacity d) then ret tt
  else
    with_RawMemory Requested new_capacity (fun new_data =>
      n <- get_size this ;;
      old <- ElementsMigration this new_data n ;;
      ret (tt, old)).

(** [void Resize(size_t new_size)] *)
Definition Resize (this : nat) (new_size : nat) : M state unit :=
  n <- get_size this ;;
  if decide (n < new_size) then
    d <- get_data this ;;
    (if decide (RawMemory_Capacity d < new_size) then Reserve this new_size else ret tt) ;;
    d <- get_data this ;;
    n <- get_size this ;;
    uninitialized_value_construct_n (ptr_add (GetAddress d) n) (new_size - n) ;;
    set_size this new_size
  else if decide (new_size < n) then
    d <- get_data this ;;
    destroy_n (ptr_add (GetAddress d) new_size) (n - new_size) ;;
    set_size this new_size
  else ret tt.

(** [T &EmplaceBack(Args &&...args)], the new element being built by a
    constructor of kind [k] that produces [x].  A full vector grows into
    a buffer made for twice the number of its elements. *)
Definition EmplaceBack (this : nat) (k : op) (x : T) : M state ptr :=
  n <- get_size this ;;
  c <- Capacity this ;;
  (if decide (n = c) then
     with_RawMemory Stored (if decide (n = 0) then 1 else n * 2) (fun new_data =>
       p <- RawMemory_plus new_data n ;;
       construct_at k p x ;;
       old <- ElementsMigration this new_data n ;;
       incr_size this ;;
       ret (tt, old))
   else
     e <- end_ this ;;
     construct_at k e x ;;
     incr_size this) ;;
  d <- get_data this ;;
  n <- get_size this ;;
  RawMemory_index d (n - 1).

(** [void PushBack(T &value)] *)
Definition PushBack (this : nat) (value : T) : M state unit :=
  EmplaceBack this OpCopy value ;; ret tt.

(** [void PushBack(T &&value)] *)
Definition PushBack_move (this : nat) (value : T) : M state unit :=
  EmplaceBack this OpMove value ;; ret tt.

(** A block that declares the local [T temporary(args...)].  The body
    returns the value the local holds at the end of the block; its
    destructor runs on every exit. *)
Definition with_temporary {A} (k : op) (x : T) (body : T -> M state (A * T))
    : M state A :=
  fallible k ;;
  emit (ECtor k x) ;;
  r <- on_unwind (body x) (emit (EDtor x)) ;;
  emit (EDtor (snd r)) ;;
  ret (fst r).

(** Move assignment of the local [temporary] holding [x] to the object
    at [dst]; yields what is left in the local. *)
Definition move_assign_from (x : T) (dst : ptr) : M state T :=
  _ <- peek dst ;;
  fallible OpMoveAssign ;;
  poke dst (Some x) ;;
  emit (EAssign OpMoveAssign x) ;;
  ret (moved x).

(** [iterator Emplace(const_iterator pos, Args &&...args)] *)
Definition Emplace (this : nat) (pos : ptr) (k : op) (x : T) : M state ptr :=
  b <- begin_ this ;;
  e <- end_ this ;;
  assert (ptr_le b pos && ptr_le pos e) ;;
  if decide (pos = e) then
    EmplaceBack this k x ;;
    b <- begin_ this ;;
    n <- get_size this ;;
    ret (ptr_add b (n - 1))
  else
    cb <- begin_ this ;;
    let position := distance cb pos in
    n <- get_size this ;;
    c <- Capacity this ;;
    (if decide (n = c) then
       with_RawMemory Stored (if decide (n = 0) then 1 else n * 2) (fun new_data =>
         construct_at k (ptr_add (GetAddress new_data) position) x ;;
         d <- get_data this ;;
         (if relocate_by_move then
            uninitialized_move_n (GetAddress d) position (GetAddress new_data) ;;
            uninitialized_move_n (ptr_add (GetAddress d) position) (n - position)
              (ptr_add (ptr_add (GetAddress new_data) position) 1)
          else
            uninitialized_copy_n (GetAddress d) position (GetAddress new_data) ;;
            uninitialized_copy_n (ptr_add (GetAddress d) position) (n - position)
              (ptr_add (ptr_add (GetAddress new_data) position) 1)) ;;
         destroy_n (GetAddress d) n ;;
         set_data this new_data ;;
         incr_size this ;;
         ret (tt, d))
     else
       with_temporary k x (fun temporary =>
         e <- end_ this ;;
         d <- get_data this ;;
         last <- RawMemory_index d (n - 1) ;;
         move_construct e last ;;
         b <- begin_ this ;;
         e <- end_ this ;;
         std_move_backward (ptr_add b position) (ptr_sub e 1) e ;;
         dst <- RawMemory_index d position ;;
         left <- move_assign_from temporary dst ;;
         incr_size this ;;
         ret (tt, left))) ;;
    d <- get_data this ;;
    ret (ptr_add (GetAddress d) position).

(** [iterator Insert(const_iterator pos, const T &value)] *)
Definition Insert (this : nat) (pos : ptr) (value : T) : M state ptr :=
  Emplace this pos OpCopy value.

(** [iterator Insert(const_iterator pos, T &&value)] *)
Definition Insert_move (this : nat) (pos : ptr) (value : T) : M state ptr :=
  Emplace this pos OpMove value.

(** [iterator Erase(const_iterator pos) noexcept] *)
Definition Erase (this : nat) (pos : ptr) : M state ptr :=
  noexcept (
    b <- begin_ this ;;
    e <- end_ this ;;
    assert (ptr_le b pos && ptr_lt pos e) ;;
    cb <- begin_ this ;;
    let position := distance cb pos in
    std_move (ptr_add (ptr_add b position) 1) e (ptr_add b position) ;;
    destroy_n (ptr_sub e 1) 1 ;;
    decr_size this ;;
    b <- begin_ this ;;
    ret (ptr_add b position)).

(** [void PopBack() noexcept] *)
Definition PopBack (this : nat) : M state unit :=
  noexcept (
    n <- get_size this ;;
    assert (bool_decide (0 < n)) ;;
    e <- end_ this ;;
    destroy_n (ptr_sub e 1) 1 ;;
    decr_size this).

(** [Vector &operator=(const Vector &rhs)] *)
Definition Vector_copy_assign (this rhs : nat) : M state unit :=
  if decide (this ≠ rhs) then
    r <- get_vec rhs ;;
    c <- Capacity this ;;
    if decide (c < size_ r) then
      tmp <- new_local ;;
      Vector_ctor_copy tmp rhs ;;
      Swap this tmp ;;
      Vector_dtor tmp
    else
      n <- get_size this ;;
      d <- get_data this ;;
      (if decide (size_ r < n) then
         for_each (fun i => dst <- RawMemory_index d i ;;
                            src <- Vector_index_const rhs i ;;
                            copy_assign dst src) (size_ r) ;;
         (if decide (size_ r < n)
          then destroy_n (ptr_add (GetAddress d) (size_ r)) (n - size_ r)
          else ret tt)
       else
         for_each (fun i => dst <- RawMemory_index d i ;;
                            src <- Vector_index_const rhs i ;;
                            copy_assign dst src) n ;;
         uninitialized_copy_n (ptr_add (GetAddress (data_ r)) n) (size_ r - n)
                              (ptr_add (GetAddress d) n)) ;;
      set_size this (size_ r)
  else ret tt.

(** [RawMemory &operator=(RawMemory &&rhs) noexcept] applied to the
    [data_] members of the objects [this] and [rhs]:
    [RawMemory tmp(std::move(rhs)); this->Swap(tmp);] and then the
    destructor of [tmp]. *)
Definition RawMemory_move_assign (this rhs : nat) : M state unit :=
  r <- get_data rhs ;;
  set_data rhs RawMemory_default ;;
  let tmp := r in
  t <- get_data this ;;
  set_data this tmp ;;
  let tmp := t in
  RawMemory_dtor tmp.

(** [Vector &operator=(Vector &&rhs)] *)
Definition Vector_move_assign (this rhs : nat) : M state unit :=
  RawMemory_move_assign this rhs ;;
  n <- get_size rhs ;;
  set_size this n ;;
  set_size rhs 0.

(** ** Specification vocabulary *)

(** [sat m s Q X]: run from [s], the computation [m] does not terminate
    abnormally; if it returns [a] in state [s'] then [Q a s'], and if it
    raises in state [s'] then [X s']. *)
Definition sat {A} (m : M state A) (s : state)
    (Q : A -> state -> Prop) (X : state -> Prop) : Prop :=
  match m s with
  | (Ret a, s') => Q a s'
  | (Throw, s') => X s'
  | (Fault, _) => False
  end.

(** The same for the loop [counted], whose exceptional exit reports the
    value of the loop counter. *)
Definition sat_counted (body : nat -> M state unit) (i n : nat) (s : state)
    (Q : state -> Prop) (X : nat -> state -> Prop) : Prop :=
  match counted body i n s with
  | (_, Ret _, s') => Q s'
  | (j, Throw, s') => X j s'
  | (_, Fault, _) => False
  end.

(** [psat m s Q X]: the same of the two regular outcomes, with nothing
    said of a run that terminates abnormally. *)
Definition psat {A} (m : M state A) (s : state)
    (Q : A -> state -> Prop) (X : state -> Prop) : Prop :=
  match m s with
  | (Ret a, s') => Q a s'
  | (Throw, s') => X s'
  | (Fault, _) => True
  end.

(** The same for the loop [counted]. *)
Definition psat_counted (body : nat -> M state unit) (i n : nat) (s : state)
    (Q : state -> Prop) (X : nat -> state -> Prop) : Prop :=
  match counted body i n s with
  | (_, Ret _, s') => Q s'
  | (j, Throw, s') => X j s'
  | (_, Fault, _) => True
  end.

(** The cells of a region of capacity [cap] whose first [length xs]
    cells hold the live objects [xs], the rest being uninitialised. *)
Definition cells_of (cap : nat) (xs : list T) : list (option T) :=
  (Some <$> xs) ++ replicate (cap - length xs) None.

(** [vec_at s this buf cap xs]: in state [s] the object [this] is a
    vector with buffer pointer [buf], capacity [cap] and the live
    elements [xs], in index order. *)
Definition vec_at (s : state) (this : nat) (buf : option nat) (cap : nat)
    (xs : list T) : Prop :=
  vecs s !! this
    = Some {| data_ := {| buffer_ := buf; capacity_ := cap |}; size_ := length xs |}
  /\ length xs <= cap
  /\ match buf with
     | Some a => heap s !! a = Some (cells_of cap xs)
     | None => cap = 0
     end.

(** No fallible call raises from the [t]-th on. *)
Definition quiet_from (t : nat) : Prop :=
  forall k j, t <= j -> throws k j = false.

(** An event that releases a region in which objects are still alive. *)
Definition leaks (e : event) : bool :=
  match e with
  | EFree _ (_ :: _) => true
  | _ => false
  end.

(** No release of a region with live objects among the events [evs]. *)
Definition leak_free (evs : list event) : Prop :=
  Forall (fun e => leaks e = false) evs.

(** Some fallible call numbered in [[t, t')] raised. *)
Definition threw (t t' : nat) : Prop :=
  exists k j, t <= j < t' /\ throws k j = true.

(** State [s'] is state [s] again, but for the count of calls and a
    leak-free stretch of events, and some call in between raised. *)
Definition rolled_back (s s' : state) : Prop :=
  heap s' = heap s /\ vecs s' = vecs s /\ threw (ticks s) (ticks s')
  /\ exists evs, log s' = log s ++ evs /\ leak_free evs.

(** The constructor kind a relocation uses for [T]. *)
Definition reloc_kind : op := if relocate_by_move then OpMove else OpCopy.

(** What a relocation leaves in the old buffer in place of [x], until
    it is destroyed. *)
Definition left_behind (x : T) : T := if relocate_by_move then moved x else x.

(** If relocations of [T] move, then moves do not raise from the
    [t]-th call on.  This holds for every [T] but one that has no copy
    constructor and a move constructor that may raise. *)
Definition moves_safe_from (t : nat) : Prop :=
  relocate_by_move = true -> forall j, t <= j -> throws OpMove j = false.

(** The heap without the region [buf] points to. *)
Definition unplug (buf : option nat) (h : gmap nat (list (option T)))
    : gmap nat (list (option T)) :=
  match buf with
  | Some a => delete a h
  | None => h
  end.

(** The event of releasing the buffer [buf] with nothing alive in it. *)
Definition freed (buf : option nat) : list event :=
  match buf with
  | Some a => [EFree a []]
  | None => []
  end.

(** The state after a successful [Reserve] of [n] cells through the new
    region [b]. *)
Definition reserved (this : nat) (buf : option nat) (xs : list T) (n b : nat)
    (s : state) : state :=
  State (<[b := cells_of n xs]> (unplug buf (heap s)))
        (<[this := {| data_ := {| buffer_ := Some b; capacity_ := n |};
                      size_ := length xs |}]> (vecs s))
        (S (ticks s + length xs))
        (log s ++ [EAlloc b n] ++ (ECtor reloc_kind <$> xs)
               ++ (EDtor <$> (left_behind <$> xs)) ++ freed buf).

(** The state after a relocation of the elements [xs] into the new
    region [b], a block of [c] cells obtained for the capacity [n]. *)
Definition relocated (this : nat) (buf : option nat) (xs : list T) (n c b : nat)
    (s : state) : state :=
  State (<[b := cells_of c xs]> (unplug buf (heap s)))
        (<[this := {| data_ := {| buffer_ := Some b; capacity_ := n |};
                      size_ := length xs |}]> (vecs s))
        (S (ticks s + length xs))
        (log s ++ [EAlloc b n] ++ (ECtor reloc_kind <$> xs)
               ++ (EDtor <$> (left_behind <$> xs)) ++ freed buf).

(** The capacity chosen when a full vector of [n] elements grows. *)
Definition grown (n : nat) : nat := if decide (n = 0) then 1 else n * 2.

(** The state after [EmplaceBack] on a full vector, through the new
    region [b]. *)
Definition emplaced_back (this : nat) (buf : option nat) (xs : list T) (k : op)
    (x : T) (b : nat) (s : state) : state :=
  State (<[b := cells_of (grown (length xs)) (xs ++ [x])]> (unplug buf (heap s)))
        (<[this := {| data_ := {| buffer_ := Some b; capacity_ := grown (length xs) |};
                      size_ := S (length xs) |}]> (vecs s))
        (S (S (ticks s + length xs)))
        (log s ++ [EAlloc b (grown (length xs)); ECtor k x]
               ++ (ECtor reloc_kind <$> xs)
               ++ (EDtor <$> (left_behind <$> xs)) ++ freed buf).

(** What [std::move] leaves in the last source cell after shifting the
    objects [ys] one cell to the left onto a cell that held [w]. *)
Fixpoint tail_moved (w : T) (ys : list T) : T :=
  match ys with
  | [] => w
  | y :: ys' => tail_moved (moved y) ys'
  end.

(** What [std::move_backward] leaves in the first source cell after
    shifting the objects [ys] one cell to the right; [w] if there is
    nothing to shift. *)
Definition head_moved (w : T) (ys : list T) : T :=
  match ys with
  | [] => w
  | y :: _ => moved y
  end.

(** The state after [Emplace] of [x] between the elements [ys] and the
    elements [zs] of a full vector with buffer [a], through the new
    region [b]. *)
Definition emplaced (this a : nat) (ys zs : list T) (k : op) (x : T) (b : nat)
    (s : state) : state :=
  State (<[b := cells_of (grown (length (ys ++ zs))) (ys ++ x :: zs)]>
           (delete a (heap s)))
        (<[this := {| data_ := {| buffer_ := Some b;
                                  capacity_ := grown (length (ys ++ zs)) |};
                      size_ := S (length (ys ++ zs)) |}]> (vecs s))
        (S (S (ticks s + length (ys ++ zs))))
        (log s ++ [EAlloc b (grown (length (ys ++ zs))); ECtor k x]
               ++ (ECtor reloc_kind <$> ys) ++ (ECtor reloc_kind <$> zs)
               ++ (EDtor <$> (left_behind <$> (ys ++ zs))) ++ [EFree a []]).

(** The state after [Emplace] of [x] between the elements [ys] and the
    elements [ms ++ [z]] of a vector with room to spare in its buffer
    [a]. *)
Definition emplaced_in_place (this a cap : nat) (ys ms : list T) (z : T) (k : op)
    (x : T) (s : state) : state :=
  State (<[a := cells_of cap (ys ++ x :: ms ++ [z])]> (heap s))
        (<[this := {| data_ := {| buffer_ := Some a; capacity_ := cap |};
                      size_ := S (length (ys ++ ms ++ [z])) |}]> (vecs s))
        (ticks s + 3 + length ms)
        (log s ++ [ECtor k x; ECtor OpMove z]
               ++ (EAssign OpMoveAssign <$> rev ms)
               ++ [EAssign OpMoveAssign x; EDtor (moved x)]).

(** A caller's loop [for (T &y : ys) v.PushBack(y);]. *)
Fixpoint push_each (this : nat) (ys : list T) : M state unit :=
  match ys with
  | [] => ret tt
  | y :: ys' => PushBack this y ;; push_each this ys'
  end.

(** Between [s] and [s'] nothing but the object [this] and the region
    [buf] was touched: every other object, and every other region that
    existed, is as it was. *)
Definition frame (this : nat) (buf : option nat) (s s' : state) : Prop :=
  (forall o, o <> this -> vecs s' !! o = vecs s !! o)
  /\ (forall a cells, buf <> Some a -> heap s !! a = Some cells ->
      heap s' !! a = Some cells).

(** An event that constructs an object. *)
Definition is_ctor (e : event) : bool :=
  match e with
  | ECtor _ _ => true
  | _ => false
  end.

(** An event that allocates a region. *)
Definition is_alloc (e : event) : bool :=
  match e with
  | EAlloc _ _ => true
  | _ => false
  end.

(** The number of events among [evs] that satisfy [f]. *)
Fixpoint tally (f : event -> bool) (evs : list event) : nat :=
  match evs with
  | [] => 0
  | e :: evs' => (if f e then 1 else 0) + tally f evs'
  end.

(** The event of releasing the buffer [buf] of a vector whose elements
    [xs] were not destroyed. *)
Definition abandoned (buf : option nat) (xs : list T) : list event :=
  match buf with
  | Some a => [EFree a xs]
  | None => []
  end.

End vector.

(** ** Example element types and states

    Elements are natural numbers stored in four bytes; a moved-from
    element reads [0]. *)

(** The oracle [th], silenced for move construction when the type
    declares it non-raising. *)
Definition mask (nm : bool) (th : op -> nat -> bool) (k : op) (n : nat) : bool :=
  match k with
  | OpMove => negb nm && th k n
  | _ => th k n
  end.

Definition nat_element (nm cp : bool) (th : op -> nat -> bool) : Element nat :=
  {| dflt := 0; moved := fun _ => 0; size_of := 4; size_of_pos := Nat.lt_0_succ 3;
     nothrow_move := nm; copyable := cp;
     throws := mask nm th;
     nothrow_move_sound := fun (H : nm = true) n =>
       eq_ind_r (x := true) (fun b => mask b th OpMove n = false) (eq_refl false) H |}.

(** A type none of whose operations raises. *)
Definition calm : Element nat := nat_element true true (fun _ _ => false).

(** A type whose move constructor is not declared non-raising, so that
    it is relocated by copy; none of its operations raises. *)
Definition wary : Element nat := nat_element false true (fun _ _ => false).

(** A type whose default constructor raises. *)
Definition default_thrower : Element nat :=
  nat_element true true (fun k _ => bool_decide (k = OpDefault)).

(** A type with a raising move constructor; its copy constructor raises
    on the fallible call number [n]. *)
Definition copy_thrower (n : nat) : Element nat :=
  nat_element false true (fun k j => bool_decide (k = OpCopy) && (j =? n)).

(** A type without copy constructor whose move constructor raises on the
    fallible call number [n]. *)
Definition move_only_thrower (n : nat) : Element nat :=
  nat_element false false (fun k j => bool_decide (k = OpMove) && (j =? n)).

(** One vector, object [0], holding [[1; 2]] in a full buffer at address [0]. *)
Definition s_full : @state nat :=
  State {[ 0 := [Some 1; Some 2] ]}
        {[ 0 := {| data_ := {| buffer_ := Some 0; capacity_ := 2 |}; size_ := 2 |} ]}
        0 [].

(** One vector, object [0], holding [[1; 2; 3]] in a buffer of capacity
    [5] at address [0]. *)
Definition s_room : @state nat :=
  State {[ 0 := [Some 1; Some 2; Some 3; None; None] ]}
        {[ 0 := {| data_ := {| buffer_ := Some 0; capacity_ := 5 |}; size_ := 3 |} ]}
        0 [].

(** Two vectors: object [0] holding [[1; 2; 3]] with capacity [5] at
    address [0], object [1] holding [[7; 8]] in a full buffer at
    address [1]. *)
Definition s_two : @state nat :=
  State {[ 0 := [Some 1; Some 2; Some 3; None; None]; 1 := [Some 7; Some 8] ]}
        {[ 0 := {| data_ := {| buffer_ := Some 0; capacity_ := 5 |}; size_ := 3 |};
           1 := {| data_ := {| buffer_ := Some 1; capacity_ := 2 |}; size_ := 2 |} ]}
        0 [].

(** One default-constructed vector, object [0]: no buffer, no element. *)
Definition s_empty : @state nat :=
  State ∅ {[ 0 := {| data_ := RawMemory_default; size_ := 0 |} ]} 0 [].

(** A type whose copy and move assignments raise on the fallible call
    number [n]. *)
Definition assign_thrower (n : nat) : Element nat :=
  nat_element true true
    (fun k j => (bool_decide (k = OpCopyAssign) || bool_decide (k = OpMoveAssign))
                && (j =? n)).

(** A capacity whose byte count wraps around: [(2^62 + 1) * 4] is [4]
    modulo [2^64]. *)
Definition huge : nat := N.to_nat (2 ^ 62 + 1)%N.

(** * Reasoning rules *)

Section rules.

Context {T : Type} {E : Element T}.

Implicit Types (h : gmap nat (list (option T))) (v : gmap nat Vector).
Implicit Types (t : nat) (l : list (@event T)) (s : @state T).

(** ** The monad *)

Lemma sat_ret {A} (a : A) s (Q : A -> state -> Prop) X :
  Q a s -> sat (ret a) s Q X.
Proof. done. Qed.

Lemma sat_bind {A B} (m : M state A) (k : A -> M state B) s Q X :
  sat m s (fun a s' => sat (k a) s' Q X) X -> sat (bind m k) s Q X.
Proof. unfold sat, bind. by destruct (m s) as [[a| |] s']. Qed.

Lemma sat_eq {A} (m : M state A) s a s' (Q : A -> state -> Prop) X :
  m s = (Ret a, s') -> Q a s' -> sat m s Q X.
Proof. unfold sat. by intros ->. Qed.

Lemma sat_bind_eq {A B} (m : M state A) (k : A -> M state B) s a s' Q X :
  m s = (Ret a, s') -> sat (k a) s' Q X -> sat (bind m k) s Q X.
Proof. unfold sat, bind. by intros ->. Qed.

Lemma sat_ext {A} (m m' : M state A) s Q X :
  m s = m' s -> sat m' s Q X -> sat m s Q X.
Proof. unfold sat. by intros ->. Qed.

Lemma sat_throw {A} s (Q : A -> state -> Prop) (X : state -> Prop) :
  X s -> sat throw s Q X.
Proof. done. Qed.

Lemma sat_mono {A} (m : M state A) s (Q Q' : A -> state -> Prop) (X X' : state -> Prop) :
  sat m s Q X -> (forall a s', Q a s' -> Q' a s') -> (forall s', X s' -> X' s') ->
  sat m s Q' X'.
Proof. unfold sat. destruct (m s) as [[a| |] s']; auto. Qed.

Lemma sat_catch {A} (m hd : M state A) s Q X :
  sat m s Q (fun s' => sat hd s' Q X) -> sat (catch m hd) s Q X.
Proof. unfold sat, catch. by destruct (m s) as [[a| |] s']. Qed.

Lemma sat_on_unwind {A} (m : M state A) cleanup s Q X :
  sat m s Q (fun s' => sat cleanup s' (fun _ s'' => X s'') X) ->
  sat (on_unwind m cleanup) s Q X.
Proof.
  intros H. apply sat_catch. eapply sat_mono; [exact H|done|].
  intros s' H'. by apply sat_bind.
Qed.

Lemma sat_noexcept {A} (m : M state A) s Q X :
  sat m s Q (fun _ => False) -> sat (noexcept m) s Q X.
Proof. unfold sat, noexcept. intros H. by destruct (m s) as [[a| |] s']. Qed.

Lemma sat_assert (b : bool) s (Q : unit -> state -> Prop) X :
  b = true -> Q tt s -> sat (assert b) s Q X.
Proof. by intros ->. Qed.

(** What a [sat] judgement says about the two regular outcomes. *)
Lemma sat_Ret_inv {A} (m : M state A) s Q X a s' :
  sat m s Q X -> m s = (Ret a, s') -> Q a s'.
Proof. unfold sat. intros H Heq. by rewrite Heq in H. Qed.

Lemma sat_Throw_inv {A} (m : M state A) s Q X s' :
  sat m s Q X -> m s = (Throw, s') -> X s'.
Proof. unfold sat. intros H Heq. by rewrite Heq in H. Qed.

Lemma sat_returns {A} (m : M state A) s Q :
  sat m s Q (fun _ => False) -> exists a s', m s = (Ret a, s') /\ Q a s'.
Proof. unfold sat. destruct (m s) as [[a| |] s']; [eauto|done..]. Qed.

(** ** Loops *)

Lemma sat_counted_0 body i s Q X : Q s -> sat_counted body i 0 s Q X.
Proof. done. Qed.

Lemma sat_counted_S body i n s Q X :
  sat (body i) s (fun _ s' => sat_counted body (S i) n s' Q X) (X i) ->
  sat_counted body i (S n) s Q X.
Proof.
  unfold sat, sat_counted. simpl. by destruct (body i s) as [[[]| |] s'].
Qed.

Lemma sat_try_counted body n handler s Q X :
  sat_counted body 0 n s (Q tt) (fun i s' => sat (handler i) s' Q X) ->
  sat (try_counted body n handler) s Q X.
Proof.
  unfold sat_counted, try_counted. unfold sat at 2.
  by destruct (counted body 0 n s) as [[j [[]| |]] s'].
Qed.

Lemma sat_for_each body n s Q X :
  sat_counted body 0 n s (Q tt) (fun _ s' => X s') ->
  sat (for_each body n) s Q X.
Proof. intros H. by apply sat_try_counted. Qed.

Lemma sat_counted_mono body i n s (Q Q' : state -> Prop) (X X' : nat -> state -> Prop) :
  sat_counted body i n s Q X -> (forall s', Q s' -> Q' s') ->
  (forall j s', X j s' -> X' j s') -> sat_counted body i n s Q' X'.
Proof.
  unfold sat_counted. destruct (counted body i n s) as [[j [[]| |]] s']; auto.
Qed.

(** Two bodies that agree on the indices the loop visits. *)
Lemma counted_ext (body body' : nat -> M state unit) n : forall i s,
  (forall j s', i <= j < i + n -> body j s' = body' j s') ->
  counted body i n s = counted body' i n s.
Proof.
  induction n as [|n IH]; intros i s H; [done|]. simpl.
  rewrite H by lia. destruct (body' i s) as [[[]| |] s']; [|done..].
  apply IH. intros j s'' Hj. apply H. lia.
Qed.

(** The loop counter after a loop that ran to its end. *)
Lemma counted_Ret_index (body : nat -> M state unit) n : forall i s j s',
  counted body i n s = (j, Ret tt, s') -> j = i + n.
Proof.
  induction n as [|n IH]; intros i s j s' H; simpl in H.
  - injection H as <- _. lia.
  - destruct (body i s) as [[[]| |] s1]; [|done..].
    apply IH in H. lia.
Qed.

Lemma counted_add (body : nat -> M state unit) n m : forall i s,
  counted body i (n + m) s
  = match counted body i n s with
    | (i', Ret _, s') => counted body i' m s'
    | r => r
    end.
Proof.
  induction n as [|n IH]; intros i s; [done|]. simpl.
  destruct (body i s) as [[[]| |] s']; [|done..]. apply IH.
Qed.

(** ** Runs that may terminate abnormally *)

Lemma sat_psat {A} (m : M state A) s Q X : sat m s Q X -> psat m s Q X.
Proof. unfold sat, psat. by destruct (m s) as [[a| |] s']. Qed.

Lemma psat_stops {A} (m : M state A) s s' Q X : m s = (Fault, s') -> psat m s Q X.
Proof. unfold psat. by intros ->. Qed.

Lemma bind_Ret {A B} (m : M state A) (k : A -> M state B) s a s' :
  m s = (Ret a, s') -> bind m k s = k a s'.
Proof. unfold bind. by intros ->. Qed.

Lemma bind_stops {A B} (m : M state A) (k : A -> M state B) s s' :
  m s = (Fault, s') -> bind m k s = (Fault, s').
Proof. unfold bind. by intros ->. Qed.

Lemma psat_bind {A B} (m : M state A) (k : A -> M state B) s Q X :
  psat m s (fun a s' => psat (k a) s' Q X) X -> psat (bind m k) s Q X.
Proof. unfold psat, bind. by destruct (m s) as [[a| |] s']. Qed.

Lemma psat_bind_eq {A B} (m : M state A) (k : A -> M state B) s a s' Q X :
  m s = (Ret a, s') -> psat (k a) s' Q X -> psat (bind m k) s Q X.
Proof. unfold psat, bind. by intros ->. Qed.

Lemma psat_ext {A} (m m' : M state A) s Q X :
  m s = m' s -> psat m' s Q X -> psat m s Q X.
Proof. unfold psat. by intros ->. Qed.

Lemma psat_mono {A} (m : M state A) s (Q Q' : A -> state -> Prop) (X X' : state -> Prop) :
  psat m s Q X -> (forall a s', Q a s' -> Q' a s') -> (forall s', X s' -> X' s') ->
  psat m s Q' X'.
Proof. unfold psat. destruct (m s) as [[a| |] s']; auto. Qed.

Lemma psat_on_unwind {A} (m : M state A) cleanup s Q X :
  psat m s Q (fun s' => psat cleanup s' (fun _ s'' => X s'') X) ->
  psat (on_unwind m cleanup) s Q X.
Proof.
  unfold on_unwind, catch, psat. destruct (m s) as [[a| |] s']; [done| |done].
  unfold bind, throw. by destruct (cleanup s') as [[[]| |] s''].
Qed.

Lemma psat_Ret_inv {A} (m : M state A) s Q X a s' :
  psat m s Q X -> m s = (Ret a, s') -> Q a s'.
Proof. unfold psat. intros H Heq. by rewrite Heq in H. Qed.

Lemma psat_Throw_inv {A} (m : M state A) s Q X s' :
  psat m s Q X -> m s = (Throw, s') -> X s'.
Proof. unfold psat. intros H Heq. by rewrite Heq in H. Qed.

Lemma psat_counted_S body i n s Q X :
  psat (body i) s (fun _ s' => psat_counted body (S i) n s' Q X) (X i) ->
  psat_counted body i (S n) s Q X.
Proof.
  unfold psat, psat_counted. simpl. by destruct (body i s) as [[[]| |] s'].
Qed.

(** A loop of [n + m] rounds whose first [n] rounds do not terminate
    abnormally. *)
Lemma psat_counted_add body i n m s Q X :
  sat_counted body i n s (fun s' => psat_counted body (i + n) m s' Q X) X ->
  psat_counted body i (n + m) s Q X.
Proof.
  unfold sat_counted, psat_counted. rewrite counted_add.
  destruct (counted body i n s) as [[j [[]| |]] s'] eqn:Hrun; [|done..].
  by rewrite (counted_Ret_index _ _ _ _ _ _ Hrun).
Qed.

Lemma psat_try_counted body n handler s Q X :
  psat_counted body 0 n s (Q tt) (fun i s' => psat (handler i) s' Q X) ->
  psat (try_counted body n handler) s Q X.
Proof.
  unfold psat_counted, try_counted. unfold psat at 2.
  by destruct (counted body 0 n s) as [[j [[]| |]] s'].
Qed.

(** ** Primitive state accesses *)

Lemma get_vec_eq this x h v t l :
  v !! this = Some x -> get_vec this (State h v t l) = (Ret x, State h v t l).
Proof. unfold get_vec. simpl. by intros ->. Qed.

Lemma get_data_eq this x h v t l :
  v !! this = Some x -> get_data this (State h v t l) = (Ret (data_ x), State h v t l).
Proof. intros H. unfold get_data, bind. by rewrite (get_vec_eq _ _ _ _ _ _ H). Qed.

Lemma get_size_eq this x h v t l :
  v !! this = Some x -> get_size this (State h v t l) = (Ret (size_ x), State h v t l).
Proof. intros H. unfold get_size, bind. by rewrite (get_vec_eq _ _ _ _ _ _ H). Qed.

Lemma set_data_eq this x d h v t l :
  v !! this = Some x ->
  set_data this d (State h v t l)
  = (Ret tt, State h (<[this := {| data_ := d; size_ := size_ x |}]> v) t l).
Proof. intros H. unfold set_data, bind. by rewrite (get_vec_eq _ _ _ _ _ _ H). Qed.

Lemma set_size_eq this x n h v t l :
  v !! this = Some x ->
  set_size this n (State h v t l)
  = (Ret tt, State h (<[this := {| data_ := data_ x; size_ := n |}]> v) t l).
Proof. intros H. unfold set_size, bind. by rewrite (get_vec_eq _ _ _ _ _ _ H). Qed.

Lemma incr_size_eq this x h v t l :
  v !! this = Some x ->
  incr_size this (State h v t l)
  = (Ret tt, State h (<[this := {| data_ := data_ x; size_ := S (size_ x) |}]> v) t l).
Proof.
  intros H. unfold incr_size, bind. rewrite (get_size_eq _ _ _ _ _ _ H).
  by rewrite (set_size_eq _ _ _ _ _ _ _ H).
Qed.

Lemma decr_size_eq this x h v t l :
  v !! this = Some x ->
  decr_size this (State h v t l)
  = (Ret tt, State h (<[this := {| data_ := data_ x; size_ := size_ x - 1 |}]> v) t l).
Proof.
  intros H. unfold decr_size, bind. rewrite (get_size_eq _ _ _ _ _ _ H).
  by rewrite (set_size_eq _ _ _ _ _ _ _ H).
Qed.

Lemma begin_eq this x h v t l :
  v !! this = Some x ->
  begin_ this (State h v t l) = (Ret (GetAddress (data_ x)), State h v t l).
Proof. intros H. unfold begin_, bind. by rewrite (get_data_eq _ _ _ _ _ _ H). Qed.

Lemma end_eq this x h v t l :
  v !! this = Some x ->
  end_ this (State h v t l)
  = (Ret (ptr_add (GetAddress (data_ x)) (size_ x)), State h v t l).
Proof.
  intros H. unfold end_, bind. rewrite (begin_eq _ _ _ _ _ _ H).
  by rewrite (get_size_eq _ _ _ _ _ _ H).
Qed.

Lemma Capacity_eq this x h v t l :
  v !! this = Some x ->
  Capacity this (State h v t l) = (Ret (capacity_ (data_ x)), State h v t l).
Proof. intros H. unfold Capacity, bind. by rewrite (get_data_eq _ _ _ _ _ _ H). Qed.

Lemma RawMemory_plus_eq r offset s :
  offset <= capacity_ r ->
  RawMemory_plus r offset s = (Ret (Ptr (buffer_ r) offset), s).
Proof.
  intros H. unfold RawMemory_plus, bind, assert. by rewrite bool_decide_eq_true_2.
Qed.

Lemma RawMemory_index_eq r i s :
  i < capacity_ r ->
  RawMemory_index r i s = (Ret (Ptr (buffer_ r) i), s).
Proof.
  intros H. unfold RawMemory_index, bind, assert. by rewrite bool_decide_eq_true_2.
Qed.

Lemma peek_eq a i x cells h v t l :
  h !! a = Some cells -> cells !! i = Some (Some x) ->
  peek (Ptr (Some a) i) (State h v t l) = (Ret x, State h v t l).
Proof. unfold peek. simpl. by intros -> ->. Qed.

Lemma poke_eq a i c cells h v t l :
  h !! a = Some cells -> i < length cells ->
  poke (Ptr (Some a) i) c (State h v t l)
  = (Ret tt, State (<[a := <[i := c]> cells]> h) v t l).
Proof. unfold poke. simpl. intros -> H. by rewrite decide_True. Qed.

(** Writing beyond the end of a region. *)
Lemma poke_out a i c cells h v t l :
  h !! a = Some cells -> length cells <= i ->
  poke (Ptr (Some a) i) c (State h v t l) = (Fault, State h v t l).
Proof. unfold poke. simpl. intros -> H. rewrite decide_False; [done|lia]. Qed.

Lemma emit_eq e h v t l :
  emit e (State h v t l) = (Ret tt, State h v t (l ++ [e])).
Proof. done. Qed.

Lemma sat_fallible k h v t l (Q : unit -> state -> Prop) (X : state -> Prop) :
  (throws k t = false -> Q tt (State h v (S t) l)) ->
  (throws k t = true -> X (State h v (S t) l)) ->
  sat (fallible k) (State h v t l) Q X.
Proof. unfold sat, fallible. simpl. destruct (throws k t); auto. Qed.

End rules.

(** * Element operations and the standard algorithms *)

Section algorithms.

Context {T : Type} {E : Element T}.

Implicit Types (h : gmap nat (list (option T))) (v : gmap nat Vector).
Implicit Types (t : nat) (l : list (@event T)) (s : @state T).
Implicit Types (pre post cells : list (option T)) (xs : list T).

(** ** Cells in the middle of a region *)

Lemma lookup_mid {A} (pre post : list A) c i :
  length pre = i -> (pre ++ c :: post) !! i = Some c.
Proof. intros <-. by apply list_lookup_middle. Qed.

Lemma insert_mid {A} (pre post : list A) c c' i :
  length pre = i -> <[i := c']> (pre ++ c :: post) = pre ++ c' :: post.
Proof.
  intros <-. rewrite insert_app_r_alt by lia. by rewrite Nat.sub_diag.
Qed.

Lemma length_mid {A} (pre post : list A) c i :
  length pre = i -> i < length (pre ++ c :: post).
Proof. intros <-. rewrite length_app. simpl. lia. Qed.

Lemma snoc_app {A} (pre : list A) c rest : (pre ++ [c]) ++ rest = pre ++ c :: rest.
Proof. by rewrite <- app_assoc. Qed.

(** Two interleaved updates of distinct regions absorb earlier ones. *)
Lemma insert2_absorb {A} (m : gmap nat A) a b x y x' y' :
  a <> b ->
  <[a := x]> (<[b := y]> (<[a := x']> (<[b := y']> m))) = <[a := x]> (<[b := y]> m).
Proof.
  intros Hab. apply map_eq. intros i.
  destruct (decide (i = a)) as [->|Ha]; [by rewrite !lookup_insert_eq|].
  rewrite !(lookup_insert_ne _ a) by done.
  destruct (decide (i = b)) as [->|Hb]; [by rewrite !lookup_insert_eq|].
  rewrite !(lookup_insert_ne _ b) by done. by rewrite !lookup_insert_ne.
Qed.

(** ** Single element operations *)

Lemma peek_mid a i x pre post h v t l :
  h !! a = Some (pre ++ Some x :: post) -> length pre = i ->
  peek (Ptr (Some a) i) (State h v t l) = (Ret x, State h v t l).
Proof. intros Ha Hi. eapply peek_eq; [done|]. by apply lookup_mid. Qed.

Lemma poke_mid a i c c' pre post h v t l :
  h !! a = Some (pre ++ c :: post) -> length pre = i ->
  poke (Ptr (Some a) i) c' (State h v t l)
  = (Ret tt, State (<[a := pre ++ c' :: post]> h) v t l).
Proof.
  intros Ha Hi. erewrite poke_eq; [|done|by apply length_mid].
  by rewrite insert_mid.
Qed.

Lemma destroy_at_mid a i x pre post h v t l :
  h !! a = Some (pre ++ Some x :: post) -> length pre = i ->
  destroy_at (Ptr (Some a) i) (State h v t l)
  = (Ret tt, State (<[a := pre ++ None :: post]> h) v t (l ++ [EDtor x])).
Proof.
  intros Ha Hi. unfold destroy_at, bind.
  rewrite (peek_mid _ _ _ _ _ _ _ _ _ Ha Hi).
  by rewrite (poke_mid _ _ _ _ _ _ _ _ _ _ Ha Hi).
Qed.

Lemma sat_construct_at k a i x c pre post h v t l (Q : unit -> state -> Prop) X :
  h !! a = Some (pre ++ c :: post) -> length pre = i ->
  (throws k t = false ->
   Q tt (State (<[a := pre ++ Some x :: post]> h) v (S t) (l ++ [ECtor k x]))) ->
  (throws k t = true -> X (State h v (S t) l)) ->
  sat (construct_at k (Ptr (Some a) i) x) (State h v t l) Q X.
Proof.
  intros Ha Hi HQ HX. unfold construct_at.
  apply sat_bind, sat_fallible; [|done]. intros Hk.
  eapply sat_bind_eq; [by eapply poke_mid|]. eapply sat_eq; [apply emit_eq|auto].
Qed.

(** ** [std::destroy_n] *)

Lemma counted_destroy a o v t xs : forall i pre post h l,
  h !! a = Some (pre ++ (Some <$> xs) ++ post) -> length pre = o + i ->
  counted (fun i => destroy_at (ptr_add (Ptr (Some a) o) i)) i (length xs) (State h v t l)
  = (i + length xs, Ret tt,
     State (<[a := pre ++ replicate (length xs) None ++ post]> h) v t
           (l ++ (EDtor <$> xs))).
Proof.
  induction xs as [|x xs IH]; intros i pre post h l Ha Hi; simpl.
  - rewrite Nat.add_0_r, app_nil_r. by rewrite insert_id.
  - unfold ptr_add at 1. simpl.
    rewrite (destroy_at_mid _ _ _ _ _ _ _ _ _ Ha Hi).
    rewrite (IH (S i) (pre ++ [None]) post).
    + rewrite insert_insert_eq, snoc_app, <- app_assoc. simpl.
      by rewrite Nat.add_succ_r.
    + by rewrite lookup_insert_eq, snoc_app.
    + rewrite length_app. simpl. lia.
Qed.

Lemma destroy_n_eq a o xs pre post h v t l :
  h !! a = Some (pre ++ (Some <$> xs) ++ post) -> length pre = o ->
  destroy_n (Ptr (Some a) o) (length xs) (State h v t l)
  = (Ret tt, State (<[a := pre ++ replicate (length xs) None ++ post]> h) v t
                   (l ++ (EDtor <$> xs))).
Proof.
  intros Ha Ho. unfold destroy_n, for_each, try_counted.
  by rewrite (counted_destroy a o v t xs 0 pre post h l Ha) by lia.
Qed.

Lemma destroy_n_0 p s : destroy_n p 0 s = (Ret tt, s).
Proof. done. Qed.

(** ** [std::uninitialized_value_construct_n] *)

Lemma sat_counted_value_construct a o v post n : forall i pre h t l Q X,
  h !! a = Some (pre ++ replicate n None ++ post) -> length pre = o + i ->
  Q (State (<[a := pre ++ replicate n (Some dflt) ++ post]> h) v (t + n)
           (l ++ replicate n (ECtor OpDefault dflt))) ->
  (forall k, k < n -> throws OpDefault (t + k) = true ->
     X (i + k) (State (<[a := pre ++ replicate k (Some dflt)
                                  ++ replicate (n - k) None ++ post]> h)
                      v (S (t + k)) (l ++ replicate k (ECtor OpDefault dflt)))) ->
  sat_counted (fun i => construct_at OpDefault (ptr_add (Ptr (Some a) o) i) dflt)
              i n (State h v t l) Q X.
Proof.
  induction n as [|n IH]; intros i pre h t l Q X Ha Hi HQ HX.
  - apply sat_counted_0. simpl in HQ.
    by rewrite Nat.add_0_r, app_nil_r, insert_id in HQ.
  - apply sat_counted_S. unfold ptr_add. simpl.
    eapply sat_construct_at; [exact Ha|exact Hi| |].
    + intros Hk. apply (IH (S i) (pre ++ [Some dflt])).
      * by rewrite lookup_insert_eq, snoc_app.
      * rewrite length_app. simpl. lia.
      * rewrite insert_insert_eq, snoc_app, <- app_assoc. simpl.
        by rewrite Nat.add_succ_r in HQ.
      * intros k Hkn Hth. rewrite insert_insert_eq, snoc_app, <- app_assoc. simpl.
        specialize (HX (S k)). simpl in HX.
        rewrite !Nat.add_succ_r in HX. apply HX; [lia|done].
    + intros Hth. specialize (HX 0). simpl in HX.
      rewrite !Nat.add_0_r, app_nil_r in HX.
      rewrite insert_id in HX by done. apply HX; [lia|done].
Qed.

Lemma sat_uninitialized_value_construct_n a o n pre post h v t l
    (Q : unit -> state -> Prop) X :
  h !! a = Some (pre ++ replicate n None ++ post) -> length pre = o ->
  Q tt (State (<[a := pre ++ replicate n (Some dflt) ++ post]> h) v (t + n)
              (l ++ replicate n (ECtor OpDefault dflt))) ->
  (forall k, k < n -> throws OpDefault (t + k) = true ->
     X (State h v (S (t + k))
              (l ++ replicate k (ECtor OpDefault dflt) ++ replicate k (EDtor dflt)))) ->
  sat (uninitialized_value_construct_n (Ptr (Some a) o) n) (State h v t l) Q X.
Proof.
  intros Ha Ho HQ HX. unfold uninitialized_value_construct_n.
  apply sat_try_counted.
  apply (sat_counted_value_construct a o v post n 0 pre); [done|lia|done|].
  intros k Hk Hth. simpl. apply sat_bind.
  assert (Hd := destroy_n_eq a o (replicate k dflt) pre
                  (replicate (n - k) None ++ post)).
  rewrite length_replicate, !fmap_replicate in Hd.
  eapply sat_eq; [apply Hd; [by rewrite lookup_insert_eq|done]|].
  apply sat_throw.
  rewrite insert_insert_eq, (app_assoc (replicate k None)), <- replicate_add.
  replace (k + (n - k)) with n by lia.
  rewrite insert_id by done. rewrite <- app_assoc. by apply HX.
Qed.

(** Construction beyond the end of a region: it raises, or it is
    undefined. *)
Lemma psat_construct_at_out k a i x cells h v t l (Q : unit -> state -> Prop) X :
  h !! a = Some cells -> length cells <= i ->
  (throws k t = true -> X (State h v (S t) l)) ->
  psat (construct_at k (Ptr (Some a) i) x) (State h v t l) Q X.
Proof.
  intros Ha Hi HX. unfold construct_at.
  apply psat_bind, sat_psat, sat_fallible; [|done]. intros _.
  eapply psat_stops. apply bind_stops. eapply poke_out; [exact Ha|exact Hi].
Qed.

(** The handler of [std::uninitialized_value_construct_n] after [k]
    constructions. *)
Lemma value_construct_unwind a o k m pre h v t l (Q : unit -> state -> Prop) X :
  h !! a = Some (pre ++ replicate m None) -> length pre = o -> k <= m ->
  X (State h v t (l ++ replicate k (ECtor OpDefault dflt) ++ replicate k (EDtor dflt))) ->
  sat (destroy_n (Ptr (Some a) o) k ;; throw)
      (State (<[a := pre ++ replicate k (Some dflt) ++ replicate (m - k) None]> h) v t
             (l ++ replicate k (ECtor OpDefault dflt))) Q X.
Proof.
  intros Ha Ho Hk HX. apply sat_bind.
  assert (Hd := destroy_n_eq a o (replicate k dflt) pre (replicate (m - k) None)).
  rewrite length_replicate, !fmap_replicate in Hd.
  eapply sat_eq; [apply Hd; [by rewrite lookup_insert_eq|done]|].
  apply sat_throw.
  rewrite insert_insert_eq, <- replicate_add.
  replace (k + (m - k)) with m by lia.
  rewrite insert_id by done. by rewrite <- app_assoc.
Qed.

(** [std::uninitialized_value_construct_n] of [n] objects at the start
    of [m] uninitialised cells that end the region.  With [m < n] it
    does not return. *)
Lemma psat_uninitialized_value_construct_n a o n m pre h v t l
    (Q : unit -> state -> Prop) X :
  h !! a = Some (pre ++ replicate m None) -> length pre = o ->
  (n <= m ->
   Q tt (State (<[a := pre ++ replicate n (Some dflt) ++ replicate (m - n) None]> h)
               v (t + n) (l ++ replicate n (ECtor OpDefault dflt)))) ->
  (forall k, k < n -> k <= m -> throws OpDefault (t + k) = true ->
     X (State h v (S (t + k))
              (l ++ replicate k (ECtor OpDefault dflt) ++ replicate k (EDtor dflt)))) ->
  psat (uninitialized_value_construct_n (Ptr (Some a) o) n) (State h v t l) Q X.
Proof.
  intros Ha Ho HQ HX. destruct (decide (n <= m)) as [Hn|Hn].
  - apply sat_psat.
    apply (sat_uninitialized_value_construct_n a o n pre (replicate (m - n) None)).
    + rewrite Ha. do 2 f_equal. rewrite <- replicate_add. f_equal. lia.
    + done.
    + by apply HQ.
    + intros k Hk Hth. apply HX; [done|lia|done].
  - unfold uninitialized_value_construct_n. apply psat_try_counted.
    replace n with (m + S (n - m - 1)) by lia.
    apply psat_counted_add.
    apply (sat_counted_value_construct a o v [] m 0 pre).
    + by rewrite app_nil_r.
    + lia.
    + apply psat_counted_S. unfold ptr_add. simpl.
      eapply psat_construct_at_out.
      { by rewrite lookup_insert_eq. }
      { rewrite app_nil_r, length_app, length_replicate. lia. }
      intros Hth. apply sat_psat.
      pose proof (value_construct_unwind a o m m pre h v (S (t + m)) l Q X Ha Ho
                    ltac:(lia)) as Hu.
      rewrite Nat.sub_diag in Hu. simpl in Hu. apply Hu.
      apply HX; [lia|lia|done].
    + intros k Hk Hth. simpl. apply sat_psat.
      rewrite app_nil_r.
      apply (value_construct_unwind a o k m pre h v (S (t + k)) l Q X Ha Ho); [lia|].
      apply HX; [lia|lia|done].
Qed.

End algorithms.

Section relocation.

Context {T : Type} {E : Element T}.

Implicit Types (h : gmap nat (list (option T))) (v : gmap nat Vector).
Implicit Types (t : nat) (l : list (@event T)) (s : @state T).
Implicit Types (pre post spre spost cells : list (option T)) (xs : list T).

(** ** Copying into uninitialised memory *)

Lemma sat_copy_construct a b ia ib x c spre spost pre post h v t l
    (Q : unit -> state -> Prop) X :
  h !! a = Some (spre ++ Some x :: spost) -> length spre = ia ->
  h !! b = Some (pre ++ c :: post) -> length pre = ib ->
  (throws OpCopy t = false ->
   Q tt (State (<[b := pre ++ Some x :: post]> h) v (S t) (l ++ [ECtor OpCopy x]))) ->
  (throws OpCopy t = true -> X (State h v (S t) l)) ->
  sat (copy_construct (Ptr (Some b) ib) (Ptr (Some a) ia)) (State h v t l) Q X.
Proof.
  intros Ha Hia Hb Hib HQ HX. unfold copy_construct.
  eapply sat_bind_eq; [by eapply peek_mid|].
  by eapply sat_construct_at.
Qed.

(** The loop of [std::uninitialized_copy_n], and of the copy constructor
    of [Vector], between two distinct regions. *)
Lemma sat_counted_copy a b oa ob v spost post (body : nat -> M state unit) :
  a <> b ->
  forall xs i spre pre h t l Q X,
  (forall j s, i <= j < i + length xs ->
     body j s = copy_construct (Ptr (Some b) (ob + j)) (Ptr (Some a) (oa + j)) s) ->
  h !! a = Some (spre ++ (Some <$> xs) ++ spost) -> length spre = oa + i ->
  h !! b = Some (pre ++ replicate (length xs) None ++ post) -> length pre = ob + i ->
  Q (State (<[b := pre ++ (Some <$> xs) ++ post]> h) v (t + length xs)
           (l ++ (ECtor OpCopy <$> xs))) ->
  (forall k, k < length xs -> throws OpCopy (t + k) = true ->
     X (i + k) (State (<[b := pre ++ (Some <$> take k xs)
                                  ++ replicate (length xs - k) None ++ post]> h)
                      v (S (t + k)) (l ++ (ECtor OpCopy <$> take k xs)))) ->
  sat_counted body i (length xs) (State h v t l) Q X.
Proof.
  intros Hab. induction xs as [|x xs IH];
    intros i spre pre h t l Q X Hbody Ha Hsi Hb Hi HQ HX.
  - apply sat_counted_0. simpl in HQ.
    by rewrite Nat.add_0_r, app_nil_r, insert_id in HQ.
  - apply sat_counted_S. eapply sat_ext; [apply Hbody; simpl; lia|].
    eapply sat_copy_construct; [exact Ha|exact Hsi|exact Hb|exact Hi| |].
    + intros Hk. apply (IH (S i) (spre ++ [Some x]) (pre ++ [Some x])).
      * intros j s Hj. apply Hbody. simpl. lia.
      * rewrite lookup_insert_ne by done. by rewrite snoc_app.
      * rewrite length_app. simpl. lia.
      * by rewrite lookup_insert_eq, snoc_app.
      * rewrite length_app. simpl. lia.
      * rewrite insert_insert_eq, snoc_app, <- app_assoc. simpl. simpl in HQ.
        by rewrite Nat.add_succ_r in HQ.
      * intros k Hkn Hth. rewrite insert_insert_eq, snoc_app, <- app_assoc. simpl.
        specialize (HX (S k)). simpl in HX.
        rewrite !Nat.add_succ_r in HX. apply HX; [lia|done].
    + intros Hth. specialize (HX 0). simpl in HX.
      rewrite !Nat.add_0_r, app_nil_r in HX.
      rewrite insert_id in HX by done. apply HX; [lia|done].
Qed.

(** The handler shared by both copying loops: the first [k] objects of
    the target are destroyed again and the region is as it was. *)
Lemma destroy_copied b ob k n xs pre post h v t l :
  length pre = ob -> k <= n -> length xs = k ->
  h !! b = Some (pre ++ replicate n None ++ post) ->
  destroy_n (Ptr (Some b) ob) k
    (State (<[b := pre ++ (Some <$> xs) ++ replicate (n - k) None ++ post]> h) v t l)
  = (Ret tt, State h v t (l ++ (EDtor <$> xs))).
Proof.
  intros Hpre Hk Hxs Hb. subst k.
  erewrite destroy_n_eq; [|by rewrite lookup_insert_eq|done].
  rewrite insert_insert_eq, (app_assoc (replicate _ None)), <- replicate_add.
  replace (length xs + (n - length xs)) with n by lia.
  by rewrite insert_id.
Qed.

Lemma sat_uninitialized_copy_n a b oa ob xs spre spost pre post h v t l
    (Q : unit -> state -> Prop) X :
  a <> b ->
  h !! a = Some (spre ++ (Some <$> xs) ++ spost) -> length spre = oa ->
  h !! b = Some (pre ++ replicate (length xs) None ++ post) -> length pre = ob ->
  Q tt (State (<[b := pre ++ (Some <$> xs) ++ post]> h) v (t + length xs)
              (l ++ (ECtor OpCopy <$> xs))) ->
  (forall k, k < length xs -> throws OpCopy (t + k) = true ->
     X (State h v (S (t + k))
              (l ++ (ECtor OpCopy <$> take k xs) ++ (EDtor <$> take k xs)))) ->
  sat (uninitialized_copy_n (Ptr (Some a) oa) (length xs) (Ptr (Some b) ob))
      (State h v t l) Q X.
Proof.
  intros Hab Ha Hoa Hb Hob HQ HX. unfold uninitialized_copy_n.
  apply sat_try_counted.
  apply (sat_counted_copy a b oa ob v spost post _ Hab xs 0 spre pre);
    [done|done|lia|done|lia|done|].
  intros k Hk Hth. simpl. apply sat_bind.
  eapply sat_eq.
  { apply destroy_copied; [done| |by rewrite length_take; lia|done]. lia. }
  apply sat_throw. rewrite <- app_assoc. by apply HX.
Qed.

(** The copying loop into a region that ends after [length xs1] cells,
    one short of what the loop needs at least: it raises and the region
    is as it was, or it is undefined. *)
Lemma psat_uninitialized_copy_n_short a b oa ob xs m spre spost pre h v t l
    (Q : unit -> state -> Prop) X :
  a <> b ->
  h !! a = Some (spre ++ (Some <$> xs) ++ spost) -> length spre = oa ->
  h !! b = Some (pre ++ replicate m None) -> length pre = ob ->
  m < length xs ->
  (forall k, k <= m -> throws OpCopy (t + k) = true ->
     X (State h v (S (t + k))
              (l ++ (ECtor OpCopy <$> take k xs) ++ (EDtor <$> take k xs)))) ->
  psat (uninitialized_copy_n (Ptr (Some a) oa) (length xs) (Ptr (Some b) ob))
       (State h v t l) Q X.
Proof.
  intros Hab Ha Hoa Hb Hob Hm HX.
  destruct (lookup_lt_is_Some_2 xs m Hm) as [x Hx].
  pose proof (take_drop_middle xs m x Hx) as Hxs.
  assert (Hlen1 : length (take m xs) = m) by (rewrite length_take; lia).
  assert (Hlen : length xs = m + S (length (drop (S m) xs))).
  { rewrite <- Hxs at 1. rewrite length_app. simpl. lia. }
  assert (Ha' : h !! a = Some ((spre ++ (Some <$> take m xs))
                                 ++ Some x :: (Some <$> drop (S m) xs) ++ spost)).
  { rewrite Ha, <- Hxs at 1. by rewrite fmap_app, <- !app_assoc. }
  assert (Hun : forall k, k <= m ->
    destroy_n (Ptr (Some b) ob) k
      (State (<[b := pre ++ (Some <$> take k xs) ++ replicate (m - k) None ++ []]> h)
             v (S (t + k)) (l ++ (ECtor OpCopy <$> take k xs)))
    = (Ret tt, State h v (S (t + k))
                     ((l ++ (ECtor OpCopy <$> take k xs)) ++ (EDtor <$> take k xs)))).
  { intros k Hk. apply destroy_copied; [done|done|rewrite length_take; lia|].
    by rewrite app_nil_r. }
  unfold uninitialized_copy_n. apply psat_try_counted. rewrite Hlen.
  apply psat_counted_add. rewrite <- Hlen1 at 1.
  apply (sat_counted_copy a b oa ob v (Some x :: (Some <$> drop (S m) xs) ++ spost) []
           _ Hab (take m xs) 0 spre pre).
  - done.
  - by rewrite Ha', <- app_assoc.
  - lia.
  - by rewrite Hlen1, app_nil_r.
  - lia.
  - rewrite Hlen1. simpl. apply psat_counted_S. unfold ptr_add. simpl.
    unfold copy_construct. eapply psat_bind_eq.
    { eapply peek_mid; [by rewrite lookup_insert_ne|].
      rewrite length_app, length_fmap. lia. }
    eapply psat_construct_at_out.
    { by rewrite lookup_insert_eq. }
    { rewrite length_app, app_nil_r, length_fmap. lia. }
    intros Hth. apply sat_psat, sat_bind.
    pose proof (Hun m ltac:(lia)) as Hd. rewrite Nat.sub_diag in Hd. simpl in Hd.
    eapply sat_eq; [exact Hd|]. apply sat_throw. rewrite <- app_assoc.
    by apply HX.
  - intros k Hk Hth. simpl. rewrite Hlen1 in *. apply sat_psat, sat_bind.
    rewrite take_take, Nat.min_l by lia.
    eapply sat_eq; [by apply Hun; lia|]. apply sat_throw. rewrite <- app_assoc.
    apply HX; [lia|done].
Qed.

(** ** Moving into uninitialised memory *)

Lemma move_construct_eq a b ia ib x c spre spost pre post h v t l :
  throws OpMove t = false ->
  h !! a = Some (spre ++ Some x :: spost) -> length spre = ia ->
  h !! b = Some (pre ++ c :: post) -> length pre = ib -> a <> b ->
  move_construct (Ptr (Some b) ib) (Ptr (Some a) ia) (State h v t l)
  = (Ret tt, State (<[a := spre ++ Some (moved x) :: spost]>
                      (<[b := pre ++ Some x :: post]> h))
                   v (S t) (l ++ [ECtor OpMove x])).
Proof.
  intros Hth Ha Hia Hb Hib Hab. unfold move_construct, bind at 1.
  rewrite (peek_mid _ _ _ _ _ _ _ _ _ Ha Hia).
  unfold construct_at, bind, fallible. simpl. rewrite Hth.
  rewrite (poke_mid _ _ _ _ _ _ _ _ _ _ Hb Hib). simpl.
  erewrite poke_mid; [done| |done]. by rewrite lookup_insert_ne.
Qed.

Lemma counted_move a b oa ob v spost post :
  a <> b ->
  forall xs i spre pre h t l,
  (forall k, k < length xs -> throws OpMove (t + k) = false) ->
  h !! a = Some (spre ++ (Some <$> xs) ++ spost) -> length spre = oa + i ->
  h !! b = Some (pre ++ replicate (length xs) None ++ post) -> length pre = ob + i ->
  counted (fun i => move_construct (ptr_add (Ptr (Some b) ob) i)
                                   (ptr_add (Ptr (Some a) oa) i))
          i (length xs) (State h v t l)
  = (i + length xs, Ret tt,
     State (<[a := spre ++ (Some <$> (moved <$> xs)) ++ spost]>
              (<[b := pre ++ (Some <$> xs) ++ post]> h))
           v (t + length xs) (l ++ (ECtor OpMove <$> xs))).
Proof.
  intros Hab. induction xs as [|x xs IH]; intros i spre pre h t l Hth Ha Hsi Hb Hi.
  - simpl. rewrite !Nat.add_0_r, app_nil_r.
    rewrite (insert_id h b) by done. by rewrite insert_id.
  - simpl. unfold ptr_add at 1 2. simpl.
    rewrite (move_construct_eq a b _ _ x None spre ((Some <$> xs) ++ spost)
               pre (replicate (length xs) None ++ post)); [|by rewrite <- (Hth 0) by (simpl; lia); f_equal; lia|done..].
    rewrite (IH (S i) (spre ++ [Some (moved x)]) (pre ++ [Some x])).
    + rewrite insert2_absorb by done. rewrite !snoc_app. simpl.
      by rewrite !Nat.add_succ_r.
    + intros k Hk. rewrite <- (Hth (S k)) by (simpl; lia). f_equal. lia.
    + by rewrite lookup_insert_eq, snoc_app.
    + rewrite length_app. simpl. lia.
    + rewrite lookup_insert_ne by done. by rewrite lookup_insert_eq, snoc_app.
    + rewrite length_app. simpl. lia.
Qed.

Lemma uninitialized_move_n_eq a b oa ob xs spre spost pre post h v t l :
  a <> b ->
  (forall k, k < length xs -> throws OpMove (t + k) = false) ->
  h !! a = Some (spre ++ (Some <$> xs) ++ spost) -> length spre = oa ->
  h !! b = Some (pre ++ replicate (length xs) None ++ post) -> length pre = ob ->
  uninitialized_move_n (Ptr (Some a) oa) (length xs) (Ptr (Some b) ob) (State h v t l)
  = (Ret tt,
     State (<[a := spre ++ (Some <$> (moved <$> xs)) ++ spost]>
              (<[b := pre ++ (Some <$> xs) ++ post]> h))
           v (t + length xs) (l ++ (ECtor OpMove <$> xs))).
Proof.
  intros Hab Hth Ha Hoa Hb Hob. unfold uninitialized_move_n, try_counted.
  by rewrite (counted_move a b oa ob v spost post Hab xs 0 spre pre h t l) by (done || lia).
Qed.

(** The moving loop into a region that ends after [m] cells, short of
    what the loop needs: it is undefined. *)
Lemma psat_uninitialized_move_n_short a b oa ob xs m spre spost pre h v t l
    (Q : unit -> state -> Prop) X :
  a <> b ->
  (forall k, k <= m -> throws OpMove (t + k) = false) ->
  h !! a = Some (spre ++ (Some <$> xs) ++ spost) -> length spre = oa ->
  h !! b = Some (pre ++ replicate m None) -> length pre = ob ->
  m < length xs ->
  psat (uninitialized_move_n (Ptr (Some a) oa) (length xs) (Ptr (Some b) ob))
       (State h v t l) Q X.
Proof.
  intros Hab Hth Ha Hoa Hb Hob Hm.
  destruct (lookup_lt_is_Some_2 xs m Hm) as [x Hx].
  pose proof (take_drop_middle xs m x Hx) as Hxs.
  assert (Hlen1 : length (take m xs) = m) by (rewrite length_take; lia).
  assert (Hlen : length xs = m + S (length (drop (S m) xs))).
  { rewrite <- Hxs at 1. rewrite length_app. simpl. lia. }
  unfold uninitialized_move_n. apply psat_try_counted. rewrite Hlen.
  apply psat_counted_add. unfold sat_counted.
  pose proof (counted_move a b oa ob v (Some x :: (Some <$> drop (S m) xs) ++ spost) []
                Hab (take m xs) 0 spre pre h t l) as Hc.
  rewrite Hlen1 in Hc. rewrite Hc.
  - simpl. apply psat_counted_S. unfold ptr_add. simpl.
    unfold move_construct. eapply psat_bind_eq.
    { eapply (peek_mid a (oa + m) x (spre ++ (Some <$> (moved <$> take m xs))));
        [by rewrite lookup_insert_eq, <- app_assoc|].
      rewrite length_app, !length_fmap. lia. }
    apply psat_bind. eapply psat_construct_at_out.
    { rewrite lookup_insert_ne by done. by rewrite lookup_insert_eq. }
    { rewrite length_app, app_nil_r, length_fmap. lia. }
    intros Hth'. rewrite Hth in Hth' by lia. done.
  - intros k Hk. apply Hth. lia.
  - rewrite Ha, <- Hxs at 1. by rewrite fmap_app, <- !app_assoc.
  - lia.
  - by rewrite app_nil_r.
  - lia.
Qed.

End relocation.

Section reserve.

Context {T : Type} {E : Element T}.

Implicit Types (h : gmap nat (list (option T))) (v : gmap nat Vector).
Implicit Types (t : nat) (l : list (@event T)) (s : @state T).
Implicit Types (pre post spre spost cells rest : list (option T)) (xs : list T).
Implicit Types (evs : list (@event T)) (x : T) (e : @event T).

(** ** Live objects of a region *)

Lemma omap_id_replicate_None n : omap id (replicate n (@None T)) = [].
Proof. by induction n. Qed.

Lemma omap_id_Some xs : omap id (Some <$> xs) = xs.
Proof. induction xs as [|x xs IH]; [done|]. simpl. by f_equal. Qed.

Lemma omap_id_cells_of cap xs : omap id (cells_of cap xs) = xs.
Proof.
  unfold cells_of. by rewrite omap_app, omap_id_Some, omap_id_replicate_None, app_nil_r.
Qed.

Lemma length_cells_of cap xs : length xs <= cap -> length (cells_of cap xs) = cap.
Proof.
  intros H. unfold cells_of. rewrite length_app, length_fmap, length_replicate. lia.
Qed.

Lemma cells_of_full xs : cells_of (length xs) xs = Some <$> xs.
Proof. unfold cells_of. by rewrite Nat.sub_diag, app_nil_r. Qed.

(** ** Event lists without leaks *)

Lemma leak_free_nil : @leak_free T [].
Proof. constructor. Qed.

Lemma leak_free_cons e evs :
  leaks e = false -> leak_free evs -> leak_free (e :: evs).
Proof. intros. by constructor. Qed.

Lemma leak_free_app evs evs' :
  leak_free evs -> leak_free evs' -> leak_free (evs ++ evs').
Proof. intros. by apply Forall_app. Qed.

Lemma leak_free_ctor k xs : leak_free (ECtor k <$> xs).
Proof. apply Forall_fmap, Forall_forall. done. Qed.

Lemma leak_free_dtor xs : leak_free (EDtor <$> xs).
Proof. apply Forall_fmap, Forall_forall. done. Qed.

Lemma leak_free_replicate_ctor k n x : leak_free (replicate n (ECtor k x)).
Proof. by apply Forall_replicate. Qed.

Lemma leak_free_replicate_dtor n x : leak_free (replicate n (EDtor x)).
Proof. by apply Forall_replicate. Qed.

Lemma leak_free_alloc a n : @leak_free T [EAlloc a n].
Proof. by repeat constructor. Qed.

Lemma leak_free_free_nil a : @leak_free T [EFree a []].
Proof. by repeat constructor. Qed.

Lemma leak_free_freed buf : @leak_free T (freed buf).
Proof. destruct buf; [apply leak_free_free_nil|apply leak_free_nil]. Qed.

(** ** Allocation and release *)

Lemma cells_for_Stored n : cells_for Stored n = n.
Proof.
  unfold cells_for, block_cells, byte_count.
  rewrite N.div_mul by (pose proof size_of_pos; lia).
  apply Nat2N.id.
Qed.

Lemma cells_for_Requested n : representable n -> cells_for Requested n = n.
Proof.
  unfold representable, cells_for, block_cells, byte_count. intros Hn.
  rewrite N.mod_small by done.
  rewrite N.div_mul by (pose proof size_of_pos; lia).
  apply Nat2N.id.
Qed.

Lemma sat_operator_new bytes h v t l (Q : nat -> state -> Prop) X :
  (throws OpNew t = false -> forall b, h !! b = None ->
     Q b (State (<[b := replicate (block_cells bytes) None]> h) v (S t) l)) ->
  (throws OpNew t = true -> X (State h v (S t) l)) ->
  sat (operator_new bytes) (State h v t l) Q X.
Proof.
  intros HQ HX. unfold operator_new. apply sat_bind, sat_fallible; [|done].
  intros Hth. unfold sat. simpl. apply HQ; [done|].
  apply not_elem_of_dom, is_fresh.
Qed.

Lemma sat_RawMemory_ctor_from o n h v t l (Q : RawMemory -> state -> Prop) X :
  n <> 0 ->
  (throws OpNew t = false -> forall b, h !! b = None ->
     Q {| buffer_ := Some b; capacity_ := n |}
       (State (<[b := replicate (cells_for o n) None]> h) v (S t)
              (l ++ [EAlloc b n]))) ->
  (throws OpNew t = true -> X (State h v (S t) l)) ->
  sat (RawMemory_ctor_from o n) (State h v t l) Q X.
Proof.
  intros Hn HQ HX. unfold RawMemory_ctor_from, Allocate.
  rewrite decide_True by done.
  apply sat_bind, sat_bind, sat_operator_new; [|done].
  intros Hth b Hb. eapply sat_bind_eq; [apply emit_eq|]. by apply HQ.
Qed.

(** The constructor on a count of objects alive in a buffer. *)
Lemma sat_RawMemory_ctor n h v t l (Q : RawMemory -> state -> Prop) X :
  n <> 0 ->
  (throws OpNew t = false -> forall b, h !! b = None ->
     Q {| buffer_ := Some b; capacity_ := n |}
       (State (<[b := replicate n None]> h) v (S t) (l ++ [EAlloc b n]))) ->
  (throws OpNew t = true -> X (State h v (S t) l)) ->
  sat (RawMemory_ctor_from Stored n) (State h v t l) Q X.
Proof.
  intros Hn HQ HX. apply sat_RawMemory_ctor_from; [done| |done].
  rewrite cells_for_Stored. exact HQ.
Qed.

(** The constructor on a count the caller chose, when its byte count
    does not wrap. *)
Lemma sat_RawMemory_ctor_requested n h v t l (Q : RawMemory -> state -> Prop) X :
  n <> 0 -> representable n ->
  (throws OpNew t = false -> forall b, h !! b = None ->
     Q {| buffer_ := Some b; capacity_ := n |}
       (State (<[b := replicate n None]> h) v (S t) (l ++ [EAlloc b n]))) ->
  (throws OpNew t = true -> X (State h v (S t) l)) ->
  sat (RawMemory_ctor n) (State h v t l) Q X.
Proof.
  intros Hn Hrep HQ HX. apply sat_RawMemory_ctor_from; [done| |done].
  rewrite cells_for_Requested by done. exact HQ.
Qed.

Lemma RawMemory_ctor_0 o s : RawMemory_ctor_from o 0 s = (Ret RawMemory_default, s).
Proof. done. Qed.

Lemma Deallocate_eq a cells h v t l :
  h !! a = Some cells ->
  Deallocate (Some a) (State h v t l)
  = (Ret tt, State (delete a h) v t (l ++ [EFree a (omap id cells)])).
Proof. unfold Deallocate, operator_delete. simpl. by intros ->. Qed.

Lemma Deallocate_null s : Deallocate None s = (Ret tt, s).
Proof. done. Qed.

Lemma sat_with_RawMemory {A} o n (body : RawMemory -> M state (A * RawMemory)) s Q X :
  sat (RawMemory_ctor_from o n) s
    (fun new_data s1 =>
       sat (body new_data) s1
         (fun r s2 => sat (RawMemory_dtor (snd r)) s2 (fun _ s3 => Q (fst r) s3) X)
         (fun s2 => sat (RawMemory_dtor new_data) s2 (fun _ s3 => X s3) X)) X ->
  sat (with_RawMemory o n body) s Q X.
Proof.
  intros H. unfold with_RawMemory. apply sat_bind.
  eapply sat_mono; [exact H| |done]. intros nd s1 H1. simpl in H1.
  apply sat_bind, sat_on_unwind.
  eapply sat_mono; [exact H1| |done]. intros r s2 H2. simpl in H2.
  apply sat_bind. eapply sat_mono; [exact H2| |done]. intros [] s3 H3. done.
Qed.

Lemma psat_with_RawMemory {A} o n (body : RawMemory -> M state (A * RawMemory)) s Q X :
  psat (RawMemory_ctor_from o n) s
    (fun new_data s1 =>
       psat (body new_data) s1
         (fun r s2 => psat (RawMemory_dtor (snd r)) s2 (fun _ s3 => Q (fst r) s3) X)
         (fun s2 => psat (RawMemory_dtor new_data) s2 (fun _ s3 => X s3) X)) X ->
  psat (with_RawMemory o n body) s Q X.
Proof.
  intros H. unfold with_RawMemory. apply psat_bind.
  eapply psat_mono; [exact H| |done]. intros nd s1 H1. simpl in H1.
  apply psat_bind, psat_on_unwind.
  eapply psat_mono; [exact H1| |done]. intros r s2 H2. simpl in H2.
  apply psat_bind. eapply psat_mono; [exact H2| |done]. intros [] s3 H3. done.
Qed.

(** ** [ElementsMigration] *)

Lemma relocate_by_move_cases :
  (relocate_by_move = true /\ reloc_kind = OpMove /\ left_behind = moved)
  \/ (relocate_by_move = false /\ reloc_kind = OpCopy /\ left_behind = (fun x => x)).
Proof.
  unfold reloc_kind, left_behind. destruct relocate_by_move; [left|right]; done.
Qed.

Lemma sat_ElementsMigration this a b c c' sz xs rest post h v t l
    (Q : RawMemory -> state -> Prop) X :
  v !! this = Some {| data_ := {| buffer_ := Some a; capacity_ := c |}; size_ := sz |} ->
  a <> b ->
  h !! a = Some ((Some <$> xs) ++ rest) ->
  h !! b = Some (replicate (length xs) None ++ post) ->
  moves_safe_from t ->
  Q {| buffer_ := Some a; capacity_ := c |}
    (State (<[a := replicate (length xs) None ++ rest]>
              (<[b := (Some <$> xs) ++ post]> h))
           (<[this := {| data_ := {| buffer_ := Some b; capacity_ := c' |};
                         size_ := sz |}]> v)
           (t + length xs)
           (l ++ (ECtor reloc_kind <$> xs) ++ (EDtor <$> (left_behind <$> xs)))) ->
  (relocate_by_move = false -> forall k, k < length xs ->
     throws OpCopy (t + k) = true ->
     X (State h v (S (t + k))
              (l ++ (ECtor OpCopy <$> take k xs) ++ (EDtor <$> take k xs)))) ->
  sat (ElementsMigration this {| buffer_ := Some b; capacity_ := c' |} (length xs))
      (State h v t l) Q X.
Proof.
  intros Hv Hab Ha Hb Hmv HQ HX. unfold ElementsMigration.
  eapply sat_bind_eq; [by apply get_data_eq|]. simpl.
  apply sat_bind. unfold GetAddress. simpl.
  destruct relocate_by_move_cases as [(Hm & Hk & Hl)|(Hm & Hk & Hl)];
    rewrite Hm; rewrite Hk, Hl in HQ.
  - eapply sat_eq.
    { apply (uninitialized_move_n_eq a b 0 0 xs [] rest [] post); try done.
      intros k _. apply Hmv; [done|lia]. }
    assert (Hd := destroy_n_eq a 0 (moved <$> xs) [] rest).
    rewrite length_fmap in Hd.
    eapply sat_bind_eq; [apply Hd; [by rewrite lookup_insert_eq|done]|].
    rewrite insert_insert_eq.
    eapply sat_bind_eq; [by apply set_data_eq|]. simpl.
    apply sat_ret. by rewrite <- app_assoc.
  - apply (sat_uninitialized_copy_n a b 0 0 xs [] rest [] post); try done.
    + eapply sat_bind_eq.
      { apply (destroy_n_eq a 0 xs [] rest); [|done].
        by rewrite lookup_insert_ne. }
      eapply sat_bind_eq; [by apply set_data_eq|]. simpl.
      apply sat_ret. rewrite list_fmap_id in HQ. by rewrite <- app_assoc.
    + by apply HX.
Qed.

(** Relocation into a block with room for [m] objects only, fewer than
    there are elements: it does not return. *)
Lemma psat_ElementsMigration_short this a b c c' sz xs m rest h v t l
    (Q : RawMemory -> state -> Prop) X :
  v !! this = Some {| data_ := {| buffer_ := Some a; capacity_ := c |}; size_ := sz |} ->
  a <> b ->
  h !! a = Some ((Some <$> xs) ++ rest) ->
  h !! b = Some (replicate m None) -> m < length xs ->
  moves_safe_from t ->
  (relocate_by_move = false -> forall k, k <= m ->
     throws OpCopy (t + k) = true ->
     X (State h v (S (t + k))
              (l ++ (ECtor OpCopy <$> take k xs) ++ (EDtor <$> take k xs)))) ->
  psat (ElementsMigration this {| buffer_ := Some b; capacity_ := c' |} (length xs))
       (State h v t l) Q X.
Proof.
  intros Hv Hab Ha Hb Hm Hmv HX. unfold ElementsMigration.
  eapply psat_bind_eq; [by apply get_data_eq|]. simpl.
  apply psat_bind. unfold GetAddress. simpl.
  destruct relocate_by_move eqn:Hr.
  - apply (psat_uninitialized_move_n_short a b 0 0 xs m [] rest []); try done.
    intros k _. apply Hmv; [done|lia].
  - apply (psat_uninitialized_copy_n_short a b 0 0 xs m [] rest []); try done.
    by apply HX.
Qed.

(** Relocating no element out of an empty vector without a buffer. *)
Lemma ElementsMigration_null this to sz h v t l :
  v !! this = Some {| data_ := {| buffer_ := None; capacity_ := 0 |}; size_ := sz |} ->
  ElementsMigration this to 0 (State h v t l)
  = (Ret {| buffer_ := None; capacity_ := 0 |},
     State h (<[this := {| data_ := to; size_ := sz |}]> v) t l).
Proof.
  intros Hv. unfold ElementsMigration, bind at 1.
  rewrite (get_data_eq _ _ _ _ _ _ Hv). simpl.
  unfold bind at 1. destruct relocate_by_move; simpl;
    unfold bind; simpl; by rewrite (set_data_eq _ _ _ _ _ _ _ Hv).
Qed.

End reserve.

(** Discharges [leak_free] goals over lists built from constructions,
    destructions, allocations and releases of emptied regions. *)
Ltac leak_free_tac :=
  repeat first
    [ assumption
    | apply leak_free_nil
    | apply leak_free_ctor
    | apply leak_free_dtor
    | apply leak_free_replicate_ctor
    | apply leak_free_replicate_dtor
    | apply leak_free_freed
    | apply leak_free_app
    | apply leak_free_cons; [reflexivity|] ].

Section Reserve.

Context {T : Type} {E : Element T}.

Implicit Types (h : gmap nat (list (option T))) (v : gmap nat Vector).
Implicit Types (t : nat) (l : list (@event T)) (s : @state T).
Implicit Types (pre post spre spost cells rest : list (option T)) (xs : list T).
Implicit Types (evs : list (@event T)) (x : T).

Lemma rolled_back_intro h v t l t' evs k j :
  t <= j < t' -> throws k j = true -> leak_free evs ->
  rolled_back (State h v t l) (State h v t' (l ++ evs)).
Proof. intros Hj Hth Hevs. repeat split; [by exists k, j|by exists evs]. Qed.

Lemma rolled_back_nil h v t l t' k j :
  t <= j < t' -> throws k j = true ->
  rolled_back (State h v t l) (State h v t' l).
Proof.
  intros Hj Hth. rewrite <- (app_nil_r l) at 2.
  eapply rolled_back_intro; [done..|apply leak_free_nil].
Qed.

Lemma quiet_not_threw t t' : quiet_from t -> ~ threw t t'.
Proof. intros Hq (k & j & Hj & Hth). rewrite Hq in Hth; [done|lia]. Qed.

Lemma quiet_not_rolled_back s s' : quiet_from (ticks s) -> ~ rolled_back s s'.
Proof. intros Hq (_ & _ & Hth & _). by eapply quiet_not_threw. Qed.

Lemma quiet_moves_safe t : quiet_from t -> moves_safe_from t.
Proof. intros Hq _ j Hj. by apply Hq. Qed.

Lemma quiet_from_le t t' : quiet_from t -> t <= t' -> quiet_from t'.
Proof. intros Hq Hle k j Hj. apply Hq. lia. Qed.

Lemma moves_safe_from_le t t' : moves_safe_from t -> t <= t' -> moves_safe_from t'.
Proof. intros Hq Hle Hm j Hj. apply Hq; [done|lia]. Qed.

(** [Reserve] beyond the capacity, into a block that has room for the
    elements, whatever the capacity asked for. *)
Lemma Reserve_sat_block this buf cap xs n s :
  vec_at s this buf cap xs -> cap < n -> length xs <= cells_for Requested n ->
  moves_safe_from (ticks s) ->
  sat (Reserve this n) s
    (fun _ s' => exists b, heap s !! b = None /\
       s' = relocated this buf xs n (cells_for Requested n) b s)
    (fun s' => rolled_back s s').
Proof.
  destruct s as [h v t l]. intros (Hv & Hle & Hbuf) Hn Hc Hmv. simpl in *.
  unfold Reserve. eapply sat_bind_eq; [by apply get_data_eq|]. simpl.
  rewrite decide_False by (unfold RawMemory_Capacity; simpl; lia).
  apply sat_with_RawMemory, sat_RawMemory_ctor_from; [lia| |].
  2:{ intros Hth. eapply rolled_back_nil; [|exact Hth]. lia. }
  intros _ b Hb. eapply sat_bind_eq; [by apply get_size_eq|]. simpl.
  apply sat_bind. destruct buf as [a|].
  - assert (Hab : a <> b) by (intros ->; congruence).
    replace (replicate (cells_for Requested n) (@None T))
      with (replicate (length xs) (@None T)
              ++ replicate (cells_for Requested n - length xs) None)
      by (rewrite <- replicate_add; f_equal; lia).
    eapply sat_ElementsMigration; [done|done| | | | |].
    + rewrite lookup_insert_ne by done. exact Hbuf.
    + by rewrite lookup_insert_eq.
    + eapply moves_safe_from_le; [exact Hmv|lia].
    + apply sat_ret. simpl. eapply sat_eq.
      { apply Deallocate_eq. by rewrite lookup_insert_eq. }
      exists b. split; [done|]. unfold relocated. simpl.
      rewrite omap_app, !omap_id_replicate_None. simpl.
      rewrite delete_insert_eq, insert_insert_eq, delete_insert_ne by done.
      by rewrite <- !app_assoc.
    + intros Hm k Hk Hth. simpl. eapply sat_eq.
      { apply Deallocate_eq. by rewrite lookup_insert_eq. }
      rewrite delete_insert_id by done. rewrite omap_app, !omap_id_replicate_None.
      rewrite <- !app_assoc. eapply (rolled_back_intro _ _ _ _ _ _ OpCopy (S (t + k))).
      * lia.
      * exact Hth.
      * leak_free_tac.
  - subst cap. destruct xs; [|simpl in Hle; lia]. simpl.
    eapply sat_eq; [by apply ElementsMigration_null|].
    apply sat_ret. simpl. eapply sat_eq; [apply Deallocate_null|].
    exists b. split; [done|]. unfold relocated, cells_of. simpl.
    rewrite Nat.sub_0_r, Nat.add_0_r. done.
Qed.

(** [Reserve] beyond the capacity, whatever block the allocation
    yields: it returns only if the block has room for the elements, and
    then with the elements relocated; if it raises, heap and objects
    are as before. *)
Lemma Reserve_psat this buf cap xs n s :
  vec_at s this buf cap xs -> cap < n -> moves_safe_from (ticks s) ->
  psat (Reserve this n) s
    (fun _ s' => length xs <= cells_for Requested n
       /\ exists b, heap s !! b = None
            /\ s' = relocated this buf xs n (cells_for Requested n) b s)
    (fun s' => rolled_back s s').
Proof.
  intros Hvec Hn Hmv.
  destruct (decide (length xs <= cells_for Requested n)) as [Hc|Hc].
  { apply sat_psat. eapply sat_mono; [by apply (Reserve_sat_block this buf cap)| |done].
    intros [] s' H. by split. }
  destruct s as [h v t l]. destruct Hvec as (Hv & Hle & Hbuf). simpl in *.
  unfold Reserve. eapply psat_bind_eq; [by apply get_data_eq|]. simpl.
  rewrite decide_False by (unfold RawMemory_Capacity; simpl; lia).
  apply psat_with_RawMemory, sat_psat, sat_RawMemory_ctor_from; [lia| |].
  2:{ intros Hth. eapply rolled_back_nil; [|exact Hth]. lia. }
  intros _ b Hb. eapply psat_bind_eq; [by apply get_size_eq|]. simpl.
  apply psat_bind. destruct buf as [a|]; [|lia].
  assert (Hab : a <> b) by (intros ->; congruence).
  eapply (psat_ElementsMigration_short this a b cap n (length xs) xs
            (cells_for Requested n) (replicate (cap - length xs) None)).
  - done.
  - done.
  - rewrite lookup_insert_ne by done. exact Hbuf.
  - by rewrite lookup_insert_eq.
  - lia.
  - eapply moves_safe_from_le; [exact Hmv|lia].
  - intros Hm k Hk Hth. simpl. apply sat_psat. eapply sat_eq.
    { apply Deallocate_eq. by rewrite lookup_insert_eq. }
    rewrite delete_insert_id by done. rewrite omap_id_replicate_None.
    rewrite <- !app_assoc. eapply (rolled_back_intro _ _ _ _ _ _ OpCopy (S (t + k))).
    + lia.
    + exact Hth.
    + leak_free_tac.
Qed.

(** [Reserve] for a capacity whose byte count wraps around to a block
    too small for the elements: when nothing raises, the relocation
    runs beyond the end of the block. *)
Lemma Reserve_short_stops this buf cap xs n s :
  vec_at s this buf cap xs -> cap < n -> cells_for Requested n < length xs ->
  quiet_from (ticks s) ->
  exists s', Reserve this n s = (Fault, s').
Proof.
  intros Hvec Hn Hc Hq.
  pose proof (Reserve_psat this buf cap xs n s Hvec Hn (quiet_moves_safe _ Hq)) as H.
  unfold psat in H. destruct (Reserve this n s) as [[[]| |] s'].
  - lia.
  - by apply quiet_not_rolled_back in H.
  - by exists s'.
Qed.

Lemma Reserve_sat this buf cap xs n s :
  vec_at s this buf cap xs -> cap < n -> representable n ->
  moves_safe_from (ticks s) ->
  sat (Reserve this n) s
    (fun _ s' => exists b, heap s !! b = None /\ s' = reserved this buf xs n b s)
    (fun s' => rolled_back s s').
Proof.
  intros Hvec Hn Hrep Hmv. pose proof Hvec as (_ & Hle & _).
  pose proof (Reserve_sat_block this buf cap xs n s Hvec Hn) as H.
  rewrite cells_for_Requested in H by done.
  apply H; [lia|done].
Qed.

Lemma reserved_vec_at this buf cap xs n b s :
  vec_at s this buf cap xs -> cap < n ->
  vec_at (reserved this buf xs n b s) this (Some b) n xs.
Proof.
  intros (Hv & Hle & Hbuf) Hn. unfold vec_at, reserved. simpl.
  rewrite !lookup_insert_eq. repeat split. lia.
Qed.

End Reserve.

Section Resize.

Context {T : Type} {E : Element T}.

Implicit Types (h : gmap nat (list (option T))) (v : gmap nat Vector).
Implicit Types (t : nat) (l : list (@event T)) (s : @state T).
Implicit Types (pre post spre spost cells rest : list (option T)) (xs : list T).
Implicit Types (evs : list (@event T)) (x : T).

Lemma vec_at_same s s' this buf cap xs :
  heap s' = heap s -> vecs s' = vecs s ->
  vec_at s this buf cap xs -> vec_at s' this buf cap xs.
Proof. unfold vec_at. by intros -> ->. Qed.

Lemma vec_at_null_nil s this cap xs : vec_at s this None cap xs -> cap = 0 /\ xs = [].
Proof.
  intros (_ & Hle & ->). split; [done|]. destruct xs; [done|simpl in Hle; lia].
Qed.

(** A region seen as its live prefix, the cells up to [m], and the rest. *)
Lemma cells_of_split cap m xs :
  length xs <= m <= cap ->
  cells_of cap xs
  = (Some <$> xs) ++ replicate (m - length xs) None ++ replicate (cap - m) None.
Proof.
  intros H. unfold cells_of. rewrite <- replicate_add. do 2 f_equal. lia.
Qed.

Lemma cells_of_app cap xs ys :
  length xs + length ys <= cap ->
  cells_of cap (xs ++ ys)
  = (Some <$> xs) ++ (Some <$> ys) ++ replicate (cap - length xs - length ys) None.
Proof.
  intros H. unfold cells_of. rewrite fmap_app, length_app, <- app_assoc.
  do 3 f_equal. lia.
Qed.

Lemma take_drop_cells cap n xs :
  n <= length xs ->
  cells_of cap xs
  = (Some <$> take n xs) ++ (Some <$> drop n xs) ++ replicate (cap - length xs) None.
Proof.
  intros H. unfold cells_of. by rewrite app_assoc, <- fmap_app, take_drop.
Qed.

(** Shrinking never raises and leaves the buffer in place. *)
Lemma Resize_shrink_eq this buf cap xs n s :
  vec_at s this buf cap xs -> n < length xs ->
  exists a, buf = Some a /\
  Resize this n s
  = (Ret tt,
     State (<[a := cells_of cap (take n xs)]> (heap s))
           (<[this := {| data_ := {| buffer_ := buf; capacity_ := cap |};
                         size_ := n |}]> (vecs s))
           (ticks s)
           (log s ++ (EDtor <$> drop n xs))).
Proof.
  destruct s as [h v t l]. intros (Hv & Hle & Hbuf) Hn. simpl in *.
  destruct buf as [a|]; [|lia]. exists a. split; [done|].
  unfold Resize, bind at 1. rewrite (get_size_eq _ _ _ _ _ _ Hv). simpl.
  rewrite decide_False by lia. rewrite decide_True by lia.
  unfold bind at 1. rewrite (get_data_eq _ _ _ _ _ _ Hv). simpl.
  unfold bind at 1. unfold GetAddress, ptr_add. simpl.
  assert (Hd := destroy_n_eq a n (drop n xs) (Some <$> take n xs)
                  (replicate (cap - length xs) None) h v t l).
  rewrite length_drop in Hd. rewrite Hd.
  - rewrite (set_size_eq _ _ _ _ _ _ _ Hv). simpl. do 3 f_equal.
    unfold cells_of. rewrite length_take_le by lia.
    rewrite <- replicate_add. do 2 f_equal. lia.
  - rewrite Hbuf. f_equal. by apply take_drop_cells; lia.
  - rewrite length_fmap, length_take_le; lia.
Qed.

Lemma Resize_same_eq this buf cap xs s :
  vec_at s this buf cap xs -> Resize this (length xs) s = (Ret tt, s).
Proof.
  destruct s as [h v t l]. intros (Hv & Hle & Hbuf). simpl in *.
  unfold Resize, bind at 1. rewrite (get_size_eq _ _ _ _ _ _ Hv). simpl.
  by rewrite !decide_False by lia.
Qed.

(** The second half of a growing [Resize]: value-construct the tail. *)
Lemma Resize_tail_sat this a cap xs n h v t l (Q : unit -> state -> Prop) X :
  v !! this = Some {| data_ := {| buffer_ := Some a; capacity_ := cap |};
                      size_ := length xs |} ->
  h !! a = Some (cells_of cap xs) -> length xs < n <= cap ->
  (forall t', t <= t' ->
   Q tt (State (<[a := cells_of cap (xs ++ replicate (n - length xs) dflt)]> h)
               (<[this := {| data_ := {| buffer_ := Some a; capacity_ := cap |};
                             size_ := n |}]> v)
               t' (l ++ replicate (n - length xs) (ECtor OpDefault dflt)))) ->
  (forall t' evs, threw t t' -> leak_free evs -> X (State h v t' (l ++ evs))) ->
  sat (d <- get_data this ;;
       k <- get_size this ;;
       uninitialized_value_construct_n (ptr_add (GetAddress d) k) (n - k) ;;
       set_size this n) (State h v t l) Q X.
Proof.
  intros Hv Ha Hn HQ HX.
  eapply sat_bind_eq; [by apply get_data_eq|].
  eapply sat_bind_eq; [by apply get_size_eq|]. simpl.
  apply sat_bind. unfold GetAddress, ptr_add. simpl.
  eapply (sat_uninitialized_value_construct_n a (length xs) (n - length xs)
            (Some <$> xs) (replicate (cap - n) None)).
  - rewrite Ha. f_equal. apply cells_of_split. lia.
  - by rewrite length_fmap.
  - eapply sat_eq; [by apply set_size_eq|]. simpl.
    replace (<[a:=_]> h)
      with (<[a := cells_of cap (xs ++ replicate (n - length xs) dflt)]> h).
    { apply HQ. lia. }
    f_equal. rewrite cells_of_app by (rewrite length_replicate; lia).
    rewrite length_replicate, fmap_replicate. do 3 f_equal. lia.
  - intros k Hk Hth. apply HX.
    + exists OpDefault, (t + k). split; [lia|done].
    + leak_free_tac.
Qed.

(** A growing [Resize]: on success the vector holds the old elements
    followed by default values; on failure it holds the old elements,
    in the old buffer or in one of capacity [n]. *)
Lemma Resize_grow_sat this buf cap xs n s :
  vec_at s this buf cap xs -> length xs < n -> (cap < n -> representable n) ->
  moves_safe_from (ticks s) ->
  sat (Resize this n) s
    (fun _ s' => exists buf',
       vec_at s' this buf' (if decide (cap < n) then n else cap)
              (xs ++ replicate (n - length xs) dflt)
       /\ ticks s <= ticks s'
       /\ exists evs, log s' = log s ++ evs /\ leak_free evs)
    (fun s' => exists buf' cap',
       vec_at s' this buf' cap' xs
       /\ (cap' = cap \/ cap < n /\ cap' = n)
       /\ threw (ticks s) (ticks s')
       /\ exists evs, log s' = log s ++ evs /\ leak_free evs).
Proof.
  intros Hvec Hn Hrep Hmv. pose proof Hvec as (Hv & Hle & Hbuf).
  unfold Resize. destruct s as [h v t l]. simpl in *.
  eapply sat_bind_eq; [by apply get_size_eq|]. simpl.
  rewrite decide_True by lia.
  eapply sat_bind_eq; [by apply get_data_eq|]. simpl.
  unfold RawMemory_Capacity. simpl. destruct (decide (cap < n)) as [Hc|Hc].
  - apply sat_bind. eapply sat_mono; [by eapply Reserve_sat; auto| |].
    + intros [] s' (b & Hb & ->). unfold reserved. simpl.
      eapply Resize_tail_sat; [by rewrite lookup_insert_eq|by rewrite lookup_insert_eq|lia| |].
      * intros t' Ht'. exists (Some b). split; [|split].
        -- unfold vec_at. simpl. rewrite !lookup_insert_eq.
           rewrite length_app, length_replicate.
           split; [do 2 f_equal; lia|]. split; [lia|done].
        -- simpl. lia.
        -- simpl. eexists. rewrite <- app_assoc. split; [done|].
           leak_free_tac.
      * intros t' evs (k & j & Hj & Hth) Hevs. exists (Some b), n. split; [|split; [|split]].
        -- unfold vec_at. simpl. rewrite !lookup_insert_eq. repeat split. lia.
        -- right. done.
        -- simpl. exists k, j. split; [lia|done].
        -- simpl. eexists. rewrite <- app_assoc. split; [done|].
           leak_free_tac.
    + intros s' Hrb. exists buf, cap. destruct Hrb as (Hh & Hvs & Hth & Hevs).
      split; [by eapply vec_at_same|]. split; [by left|]. done.
  - eapply sat_bind_eq; [done|]. destruct buf as [a|]; [|lia].
    eapply Resize_tail_sat; [done|done|lia| |].
    + intros t' Ht'. exists (Some a). split; [|split].
      * unfold vec_at. simpl. rewrite !lookup_insert_eq.
        rewrite length_app, length_replicate.
        split; [do 2 f_equal; lia|]. split; [lia|done].
      * simpl. lia.
      * simpl. eexists. split; [done|]. apply leak_free_replicate_ctor.
    + intros t' evs Hth Hevs. exists (Some a), cap. split; [done|].
      split; [by left|]. split; [done|]. by exists evs.
Qed.

(** The second half of a growing [Resize] in a block of [c] cells,
    whatever the capacity the vector records: if it raises, the state
    is as before it. *)
Lemma Resize_tail_psat this a cap c xs n h v t l X :
  v !! this = Some {| data_ := {| buffer_ := Some a; capacity_ := cap |};
                      size_ := length xs |} ->
  h !! a = Some (cells_of c xs) -> length xs < n ->
  (forall t' evs, threw t t' -> leak_free evs -> X (State h v t' (l ++ evs))) ->
  psat (d <- get_data this ;;
        k <- get_size this ;;
        uninitialized_value_construct_n (ptr_add (GetAddress d) k) (n - k) ;;
        set_size this n) (State h v t l) (fun _ _ => True) X.
Proof.
  intros Hv Ha Hn HX.
  eapply psat_bind_eq; [by apply get_data_eq|].
  eapply psat_bind_eq; [by apply get_size_eq|]. simpl.
  apply psat_bind. unfold GetAddress, ptr_add. simpl.
  eapply (psat_uninitialized_value_construct_n a (length xs) (n - length xs)
            (c - length xs) (Some <$> xs)).
  - exact Ha.
  - by rewrite length_fmap.
  - intros _. apply sat_psat. eapply sat_eq; [by apply set_size_eq|done].
  - intros k Hk _ Hth. apply HX.
    + exists OpDefault, (t + k). split; [lia|done].
    + leak_free_tac.
Qed.

(** A growing [Resize] that raises, for any size asked for.  Either
    the failure came before the [Reserve] step completed, or no such
    step was needed, and then heap and objects are as before the call;
    or [Reserve] had relocated the elements into a new block, and then
    the vector holds them there, with the capacity [n] it was asked
    for. *)
Lemma Resize_grow_throw this buf cap xs n s s' :
  vec_at s this buf cap xs -> length xs < n -> moves_safe_from (ticks s) ->
  Resize this n s = (Throw, s') ->
  (exists evs, log s' = log s ++ evs /\ leak_free evs)
  /\ threw (ticks s) (ticks s')
  /\ (((n <= cap \/ exists s1, Reserve this n s = (Throw, s1))
       /\ heap s' = heap s /\ vecs s' = vecs s)
      \/ (cap < n /\ (exists s1, Reserve this n s = (Ret tt, s1))
          /\ exists b, heap s !! b = None
               /\ vecs s' !! this
                  = Some {| data_ := {| buffer_ := Some b; capacity_ := n |};
                            size_ := length xs |}
               /\ heap s' !! b = Some (cells_of (cells_for Requested n) xs)
               /\ length xs <= cells_for Requested n)).
Proof.
  intros Hvec Hn Hmv Hrun. pose proof Hvec as (Hv & Hle & Hbuf).
  destruct (decide (cap < n)) as [Hc|Hc].
  - pose proof (Reserve_psat this buf cap xs n s Hvec Hc Hmv) as HR.
    unfold psat in HR.
    destruct s as [h v t l]. simpl in *. unfold Resize in Hrun.
    erewrite bind_Ret in Hrun; [|by apply get_size_eq]. simpl in Hrun.
    rewrite decide_True in Hrun by lia.
    erewrite bind_Ret in Hrun; [|by apply get_data_eq]. simpl in Hrun.
    unfold RawMemory_Capacity in Hrun. simpl in Hrun.
    rewrite decide_True in Hrun by done. unfold bind at 1 in Hrun.
    destruct (Reserve this n (State h v t l)) as [[[]| |] s1] eqn:HRun; [| |done].
    + destruct HR as (Hfit & b & Hb & ->). simpl in Hb.
      pose proof (Resize_tail_psat this b n (cells_for Requested n) xs n _ _ _ _
        (fun s2 => exists t' evs, threw (S (t + length xs)) t' /\ leak_free evs
           /\ s2 = State (<[b := cells_of (cells_for Requested n) xs]> (unplug buf h))
                         (<[this := {| data_ := {| buffer_ := Some b; capacity_ := n |};
                                       size_ := length xs |}]> v)
                         t' ((l ++ [EAlloc b n] ++ (ECtor reloc_kind <$> xs)
                                ++ (EDtor <$> (left_behind <$> xs)) ++ freed buf)
                               ++ evs))
        ltac:(by rewrite lookup_insert_eq) ltac:(by rewrite lookup_insert_eq) Hn
        ltac:(by intros t' evs Hth Hevs; exists t', evs)) as Ht.
      apply (psat_Throw_inv _ _ _ _ _ Ht) in Hrun.
      destruct Hrun as (t' & evs & (k & j & Hj & Hth) & Hevs & ->). simpl.
      split_and!.
      * eexists. rewrite <- app_assoc. split; [done|]. leak_free_tac.
      * exists k, j. split; [lia|done].
      * right. split; [done|]. split; [by eauto|]. exists b.
        by rewrite !lookup_insert_eq.
    + injection Hrun as <-. destruct HR as (Hh & Hvs & Hth & Hevs). simpl in *.
      split_and!; [done|done|]. left. split; [right; by eauto|done].
  - destruct s as [h v t l]. simpl in *. unfold Resize in Hrun.
    erewrite bind_Ret in Hrun; [|by apply get_size_eq]. simpl in Hrun.
    rewrite decide_True in Hrun by lia.
    erewrite bind_Ret in Hrun; [|by apply get_data_eq]. simpl in Hrun.
    unfold RawMemory_Capacity in Hrun. simpl in Hrun.
    rewrite decide_False in Hrun by done. erewrite bind_Ret in Hrun; [|done].
    destruct buf as [a|]; [|lia].
    pose proof (Resize_tail_psat this a cap cap xs n h v t l
      (fun s2 => exists t' evs, threw t t' /\ leak_free evs
                                /\ s2 = State h v t' (l ++ evs))
      Hv Hbuf Hn ltac:(by intros t' evs Hth Hevs; exists t', evs)) as Ht.
    apply (psat_Throw_inv _ _ _ _ _ Ht) in Hrun.
    destruct Hrun as (t' & evs & Hth & Hevs & ->). simpl.
    split_and!; [by eauto|done|]. left. split; [left; lia|done].
Qed.

(** [Resize] beyond the capacity to a size whose byte count wraps around
    to a block too small for the elements. *)
Lemma Resize_short_stops this buf cap xs n s :
  vec_at s this buf cap xs -> cap < n -> cells_for Requested n < length xs ->
  quiet_from (ticks s) ->
  exists s', Resize this n s = (Fault, s').
Proof.
  intros Hvec Hn Hc Hq.
  destruct (Reserve_short_stops this buf cap xs n s Hvec Hn Hc Hq) as (s' & Hrun).
  exists s'. destruct s as [h v t l]. destruct Hvec as (Hv & Hle & Hbuf). simpl in *.
  unfold Resize. erewrite bind_Ret; [|by apply get_size_eq]. simpl.
  rewrite decide_True by lia.
  erewrite bind_Ret; [|by apply get_data_eq]. simpl.
  unfold RawMemory_Capacity. simpl. rewrite decide_True by done.
  by apply bind_stops.
Qed.

End Resize.

Section EmplaceBack.

Context {T : Type} {E : Element T}.

Implicit Types (h : gmap nat (list (option T))) (v : gmap nat Vector).
Implicit Types (t : nat) (l : list (@event T)) (s : @state T).
Implicit Types (pre post spre spost cells rest : list (option T)) (xs : list T).
Implicit Types (evs : list (@event T)) (x : T).

Lemma grown_gt n : n < grown n.
Proof. unfold grown. case_decide; lia. Qed.

Lemma new_cells_split n c : n < c ->
  replicate c (@None T) = replicate n None ++ None :: replicate (c - n - 1) None.
Proof.
  intros H. rewrite (cons_middle None), app_assoc, <- replicate_S_end.
  rewrite <- replicate_add. f_equal. lia.
Qed.

Lemma cells_of_snoc c xs x : length xs < c ->
  (Some <$> xs) ++ Some x :: replicate (c - length xs - 1) None
  = cells_of c (xs ++ [x]).
Proof.
  intros H. unfold cells_of. rewrite fmap_app, length_app, <- app_assoc. simpl.
  do 3 f_equal. lia.
Qed.

Lemma EmplaceBack_full_sat this buf xs k x s :
  vec_at s this buf (length xs) xs -> moves_safe_from (ticks s) ->
  sat (EmplaceBack this k x) s
    (fun p s' => exists b, heap s !! b = None
       /\ s' = emplaced_back this buf xs k x b s
       /\ p = Ptr (Some b) (length xs))
    (fun s' => heap s' = heap s /\ vecs s' = vecs s /\ threw (ticks s) (ticks s')).
Proof.
  destruct s as [h v t l]. intros (Hv & Hle & Hbuf) Hmv. simpl in *.
  unfold EmplaceBack. eapply sat_bind_eq; [by apply get_size_eq|].
  eapply sat_bind_eq; [by apply Capacity_eq|]. simpl.
  rewrite decide_True by done. fold (grown (length xs)).
  pose proof (grown_gt (length xs)) as Hg.
  apply sat_bind, sat_with_RawMemory, sat_RawMemory_ctor; [lia| |].
  2:{ intros Hth. repeat split. exists OpNew, t. simpl. split; [lia|done]. }
  intros _ b Hb.
  eapply sat_bind_eq; [apply RawMemory_plus_eq; simpl; lia|]. simpl.
  rewrite (new_cells_split (length xs)) by done.
  apply sat_bind. eapply sat_construct_at;
    [by rewrite lookup_insert_eq|by rewrite length_replicate| |].
  2:{ intros Hth. simpl. eapply sat_eq.
      { apply Deallocate_eq. by rewrite lookup_insert_eq. }
      rewrite delete_insert_id by done. repeat split.
      exists k, (S t). simpl. split; [lia|done]. }
  intros _. rewrite insert_insert_eq. apply sat_bind. destruct buf as [a|].
  - assert (Hab : a <> b) by (intros ->; congruence).
    eapply (sat_ElementsMigration this a b _ _ _ xs []); [done|done| | | | |].
    + rewrite lookup_insert_ne by done. by rewrite app_nil_r, <- cells_of_full.
    + by rewrite lookup_insert_eq.
    + eapply moves_safe_from_le; [exact Hmv|lia].
    + eapply sat_bind_eq; [apply incr_size_eq; by rewrite lookup_insert_eq|].
      apply sat_ret. simpl. eapply sat_eq.
      { apply Deallocate_eq. by rewrite lookup_insert_eq. }
      eapply sat_bind_eq; [apply get_data_eq; by rewrite lookup_insert_eq|].
      eapply sat_bind_eq; [apply get_size_eq; by rewrite lookup_insert_eq|].
      eapply sat_eq; [apply RawMemory_index_eq; simpl; lia|]. simpl.
      exists b. split; [done|]. split; [|by rewrite Nat.sub_0_r].
      unfold emplaced_back. simpl.
      rewrite omap_app, omap_id_replicate_None. simpl.
      rewrite delete_insert_eq, !insert_insert_eq, delete_insert_ne by done.
      rewrite cells_of_snoc by done. rewrite <- !app_assoc. simpl.
      f_equal; lia.
    + intros Hm j Hj Hth. simpl. eapply sat_eq.
      { apply Deallocate_eq. by rewrite lookup_insert_eq. }
      rewrite delete_insert_id by done. repeat split.
      exists OpCopy, (S (S t) + j). simpl. split; [lia|done].
  - destruct xs; [|simpl in Hbuf; lia]. simpl in *.
    eapply sat_eq; [apply ElementsMigration_null; done|].
    eapply sat_bind_eq; [apply incr_size_eq; by rewrite lookup_insert_eq|].
    apply sat_ret. simpl. eapply sat_eq; [apply Deallocate_null|].
    eapply sat_bind_eq; [apply get_data_eq; by rewrite lookup_insert_eq|].
    eapply sat_bind_eq; [apply get_size_eq; by rewrite lookup_insert_eq|].
    eapply sat_eq; [apply RawMemory_index_eq; simpl; lia|]. simpl.
    exists b. split; [done|]. split; [|done].
    unfold emplaced_back. simpl.
    by rewrite !insert_insert_eq, Nat.add_0_r, <- app_assoc.
Qed.

Lemma emplaced_back_vec_at this buf xs k x b s :
  vec_at (emplaced_back this buf xs k x b s) this (Some b)
         (grown (length xs)) (xs ++ [x]).
Proof.
  unfold vec_at, emplaced_back. simpl. rewrite !lookup_insert_eq.
  rewrite length_app. simpl. pose proof (grown_gt (length xs)).
  split; [do 2 f_equal; lia|]. split; [lia|done].
Qed.

(** [EmplaceBack] on a vector with room to spare. *)
Lemma EmplaceBack_room_sat this buf cap xs k x s :
  vec_at s this buf cap xs -> length xs < cap ->
  sat (EmplaceBack this k x) s
    (fun p s' => exists a, buf = Some a
       /\ s' = State (<[a := cells_of cap (xs ++ [x])]> (heap s))
                     (<[this := {| data_ := {| buffer_ := buf; capacity_ := cap |};
                                   size_ := S (length xs) |}]> (vecs s))
                     (S (ticks s)) (log s ++ [ECtor k x])
       /\ p = Ptr (Some a) (length xs))
    (fun s' => s' = State (heap s) (vecs s) (S (ticks s)) (log s)
               /\ throws k (ticks s) = true).
Proof.
  destruct s as [h v t l]. intros (Hv & Hle & Hbuf) Hlt. simpl in *.
  destruct buf as [a|]; [|lia].
  unfold EmplaceBack. eapply sat_bind_eq; [by apply get_size_eq|].
  eapply sat_bind_eq; [by apply Capacity_eq|]. simpl.
  rewrite decide_False by lia.
  apply sat_bind. eapply sat_bind_eq; [by apply end_eq|]. simpl.
  apply sat_bind. unfold GetAddress, ptr_add. simpl.
  eapply (sat_construct_at _ _ _ _ None (Some <$> xs)
            (replicate (cap - length xs - 1) None)).
  - rewrite Hbuf. f_equal. unfold cells_of.
    rewrite (new_cells_split 0 (cap - length xs)) by lia. simpl.
    do 3 f_equal. lia.
  - by rewrite length_fmap.
  - intros _. eapply sat_eq; [by apply incr_size_eq|].
    eapply sat_bind_eq; [apply get_data_eq; by rewrite lookup_insert_eq|].
    eapply sat_bind_eq; [apply get_size_eq; by rewrite lookup_insert_eq|].
    eapply sat_eq; [apply RawMemory_index_eq; simpl; lia|]. simpl.
    exists a. split; [done|]. rewrite cells_of_snoc by done.
    split; [done|by rewrite Nat.sub_0_r].
  - intros Hth. done.
Qed.

End EmplaceBack.

Section shifting.

Context {T : Type} {E : Element T}.

Implicit Types (h : gmap nat (list (option T))) (v : gmap nat Vector).
Implicit Types (t : nat) (l : list (@event T)) (s : @state T).
Implicit Types (pre post spre spost cells rest : list (option T)) (xs ys : list T).
Implicit Types (evs : list (@event T)) (x y w : T).

(** ** Moves between neighbouring cells of one region *)

Lemma insert_mid_S {A} (pre post : list A) c0 c c' p :
  length pre = p ->
  <[S p := c']> (pre ++ c0 :: c :: post) = pre ++ c0 :: c' :: post.
Proof.
  intros Hp. rewrite <- (snoc_app pre c0 (c :: post)), <- (snoc_app pre c0 (c' :: post)).
  rewrite insert_mid; [done|]. rewrite length_app. simpl. lia.
Qed.

Lemma lookup_mid_S {A} (pre post : list A) c0 c p :
  length pre = p -> (pre ++ c0 :: c :: post) !! S p = Some c.
Proof.
  intros Hp. rewrite <- (snoc_app pre c0 (c :: post)). apply lookup_mid.
  rewrite length_app. simpl. lia.
Qed.

Lemma length_mid_S {A} (pre post : list A) c0 c p :
  length pre = p -> S p < length (pre ++ c0 :: c :: post).
Proof. intros <-. rewrite length_app. simpl. lia. Qed.

(** [new (p + 1) T(std::move(p[0]))] inside one region. *)
Lemma move_construct_next a p y c pre post h v t l :
  throws OpMove t = false ->
  h !! a = Some (pre ++ Some y :: c :: post) -> length pre = p ->
  move_construct (Ptr (Some a) (S p)) (Ptr (Some a) p) (State h v t l)
  = (Ret tt, State (<[a := pre ++ Some (moved y) :: Some y :: post]> h) v (S t)
                   (l ++ [ECtor OpMove y])).
Proof.
  intros Hth Ha Hp. unfold move_construct, bind at 1.
  rewrite (peek_mid _ _ _ _ _ _ _ _ _ Ha Hp).
  unfold construct_at, bind, fallible. simpl. rewrite Hth.
  erewrite poke_eq; [|exact Ha|by apply length_mid_S]. simpl.
  rewrite insert_mid_S by done.
  erewrite poke_mid; [|by rewrite lookup_insert_eq|done].
  by rewrite insert_insert_eq.
Qed.

(** Move assignment from a cell to its right neighbour. *)
Lemma move_assign_right a p y w pre post h v t l :
  throws OpMoveAssign t = false ->
  h !! a = Some (pre ++ Some y :: Some w :: post) -> length pre = p ->
  move_assign (Ptr (Some a) (S p)) (Ptr (Some a) p) (State h v t l)
  = (Ret tt, State (<[a := pre ++ Some (moved y) :: Some y :: post]> h) v (S t)
                   (l ++ [EAssign OpMoveAssign y])).
Proof.
  intros Hth Ha Hp. unfold move_assign, bind at 1.
  rewrite (peek_mid _ _ _ _ _ _ _ _ _ Ha Hp).
  unfold bind at 1. erewrite peek_eq; [|exact Ha|by apply lookup_mid_S].
  unfold bind, fallible. simpl. rewrite Hth.
  erewrite poke_eq; [|exact Ha|by apply length_mid_S]. simpl.
  rewrite insert_mid_S by done.
  erewrite poke_mid; [|by rewrite lookup_insert_eq|done].
  by rewrite insert_insert_eq.
Qed.

(** Move assignment from a cell to its left neighbour. *)
Lemma move_assign_left a p y w pre post h v t l :
  throws OpMoveAssign t = false ->
  h !! a = Some (pre ++ Some w :: Some y :: post) -> length pre = p ->
  move_assign (Ptr (Some a) p) (Ptr (Some a) (S p)) (State h v t l)
  = (Ret tt, State (<[a := pre ++ Some y :: Some (moved y) :: post]> h) v (S t)
                   (l ++ [EAssign OpMoveAssign y])).
Proof.
  intros Hth Ha Hp. unfold move_assign, bind at 1.
  erewrite peek_eq; [|exact Ha|by apply lookup_mid_S].
  unfold bind at 1. rewrite (peek_mid _ _ _ _ _ _ _ _ _ Ha Hp).
  unfold bind, fallible. simpl. rewrite Hth.
  rewrite (poke_mid _ _ _ _ _ _ _ _ _ _ Ha Hp). simpl.
  erewrite poke_eq; [|by rewrite lookup_insert_eq|by apply length_mid_S].
  by rewrite insert_insert_eq, insert_mid_S.
Qed.

(** ** [std::move]: shift a range one cell to the left *)

Lemma counted_move_left a o v post : forall ys j pre w h t l,
  (forall k, k < length ys -> throws OpMoveAssign (t + k) = false) ->
  h !! a = Some (pre ++ Some w :: (Some <$> ys) ++ post) -> length pre = o + j ->
  counted (fun j => move_assign (ptr_add (Ptr (Some a) o) j)
                                (ptr_add (Ptr (Some a) (S o)) j))
          j (length ys) (State h v t l)
  = (j + length ys, Ret tt,
     State (<[a := pre ++ (Some <$> ys) ++ Some (tail_moved w ys) :: post]> h)
           v (t + length ys) (l ++ (EAssign OpMoveAssign <$> ys))).
Proof.
  induction ys as [|y ys IH]; intros j pre w h t l Hth Ha Hj.
  - simpl. rewrite !Nat.add_0_r, app_nil_r. by rewrite insert_id.
  - simpl. unfold ptr_add at 1 2. simpl.
    rewrite (move_assign_left a (o + j) y w pre ((Some <$> ys) ++ post));
      [|by rewrite <- (Hth 0) by (simpl; lia); f_equal; lia|done..].
    rewrite (IH (S j) (pre ++ [Some y]) (moved y)).
    + rewrite insert_insert_eq, !snoc_app. simpl. by rewrite !Nat.add_succ_r.
    + intros k Hk. rewrite <- (Hth (S k)) by (simpl; lia). f_equal. lia.
    + by rewrite lookup_insert_eq, snoc_app.
    + rewrite length_app. simpl. lia.
Qed.

Lemma std_move_eq a o n ys pre w post h v t l :
  (forall k, k < length ys -> throws OpMoveAssign (t + k) = false) ->
  h !! a = Some (pre ++ Some w :: (Some <$> ys) ++ post) -> length pre = o ->
  n = S o + length ys ->
  std_move (Ptr (Some a) (S o)) (Ptr (Some a) n) (Ptr (Some a) o) (State h v t l)
  = (Ret tt,
     State (<[a := pre ++ (Some <$> ys) ++ Some (tail_moved w ys) :: post]> h)
           v (t + length ys) (l ++ (EAssign OpMoveAssign <$> ys))).
Proof.
  intros Hth Ha Ho ->. unfold std_move, for_each, try_counted, distance.
  cbn [index]. replace (S o + length ys - S o) with (length ys) by lia.
  by rewrite (counted_move_left a o v post ys 0 pre w h t l) by (done || lia).
Qed.

(** ** [std::move_backward]: shift a range one cell to the right *)

Lemma head_moved_snoc w ys y : head_moved (moved y) ys = head_moved w (ys ++ [y]).
Proof. by destruct ys. Qed.

Lemma counted_move_right a L v pre : forall ys j w post h t l,
  (forall k, k < length ys -> throws OpMoveAssign (t + k) = false) ->
  h !! a = Some (pre ++ (Some <$> ys) ++ Some w :: post) ->
  length pre + length ys + j = L ->
  counted (fun j => move_assign (ptr_sub (Ptr (Some a) (S L)) (S j))
                                (ptr_sub (Ptr (Some a) L) (S j)))
          j (length ys) (State h v t l)
  = (j + length ys, Ret tt,
     State (<[a := pre ++ Some (head_moved w ys) :: (Some <$> ys) ++ post]> h)
           v (t + length ys) (l ++ (EAssign OpMoveAssign <$> rev ys))).
Proof.
  induction ys as [|y ys IH] using rev_ind; intros j w post h t l Hth Ha Hj.
  - simpl. rewrite !Nat.add_0_r, app_nil_r. by rewrite insert_id.
  - rewrite length_app in *. simpl in *. rewrite Nat.add_1_r in *. simpl.
    unfold ptr_sub at 1 2. simpl.
    rewrite fmap_app, <- app_assoc in Ha. simpl in Ha. rewrite app_assoc in Ha.
    replace (L - j) with (S (L - S j)) by lia.
    rewrite (move_assign_right a (L - S j) y w (pre ++ (Some <$> ys)) post);
      [|by rewrite <- (Hth 0) by lia; f_equal; lia|done|
        by rewrite length_app, length_fmap; lia].
    rewrite (IH (S j) (moved y) (Some y :: post)).
    + rewrite insert_insert_eq, rev_app_distr, !fmap_app, <- !app_assoc. simpl.
      rewrite <- head_moved_snoc with (w := w).
      by rewrite !Nat.add_succ_r.
    + intros k Hk. rewrite <- (Hth (S k)) by lia. f_equal. lia.
    + by rewrite lookup_insert_eq, <- app_assoc.
    + lia.
Qed.

Lemma std_move_backward_eq a o L ys pre w post h v t l :
  (forall k, k < length ys -> throws OpMoveAssign (t + k) = false) ->
  h !! a = Some (pre ++ (Some <$> ys) ++ Some w :: post) ->
  length pre = o -> L = o + length ys ->
  std_move_backward (Ptr (Some a) o) (Ptr (Some a) L) (Ptr (Some a) (S L))
                    (State h v t l)
  = (Ret tt,
     State (<[a := pre ++ Some (head_moved w ys) :: (Some <$> ys) ++ post]> h)
           v (t + length ys) (l ++ (EAssign OpMoveAssign <$> rev ys))).
Proof.
  intros Hth Ha Ho ->. unfold std_move_backward, for_each, try_counted, distance.
  cbn [index]. replace (o + length ys - o) with (length ys) by lia.
  by rewrite (counted_move_right a (o + length ys) v pre ys 0 w post h t l)
    by (done || lia).
Qed.

End shifting.

Section Erase.

Context {T : Type} {E : Element T}.

Implicit Types (h : gmap nat (list (option T))) (v : gmap nat Vector).
Implicit Types (t : nat) (l : list (@event T)) (s : @state T).
Implicit Types (pre post spre spost cells rest : list (option T)) (xs ys : list T).
Implicit Types (evs : list (@event T)) (x y w : T).

Lemma noexcept_Ret {A} (m : M state A) s a s' :
  m s = (Ret a, s') -> noexcept m s = (Ret a, s').
Proof. unfold noexcept. by intros ->. Qed.

Lemma ptr_le_same r i j : i <= j -> ptr_le (Ptr r i) (Ptr r j) = true.
Proof.
  intros H. unfold ptr_le. simpl. rewrite bool_decide_eq_true_2 by done.
  by apply Nat.leb_le.
Qed.

Lemma ptr_lt_same r i j : i < j -> ptr_lt (Ptr r i) (Ptr r j) = true.
Proof.
  intros H. unfold ptr_lt. simpl. rewrite bool_decide_eq_true_2 by done.
  by apply Nat.ltb_lt.
Qed.

Lemma cells_of_middle cap ys x zs :
  cells_of cap (ys ++ x :: zs)
  = (Some <$> ys) ++ Some x :: (Some <$> zs)
      ++ replicate (cap - length (ys ++ x :: zs)) None.
Proof. unfold cells_of. by rewrite fmap_app, <- app_assoc. Qed.

(** [Erase] of the element [x] that follows the elements [ys]. *)
Lemma Erase_eq this buf cap ys x zs s :
  vec_at s this buf cap (ys ++ x :: zs) ->
  (forall j, j < length zs -> throws OpMoveAssign (ticks s + j) = false) ->
  exists a, buf = Some a /\
  Erase this (Ptr buf (length ys)) s
  = (Ret (Ptr buf (length ys)),
     State (<[a := cells_of cap (ys ++ zs)]> (heap s))
           (<[this := {| data_ := {| buffer_ := buf; capacity_ := cap |};
                         size_ := length (ys ++ zs) |}]> (vecs s))
           (ticks s + length zs)
           (log s ++ (EAssign OpMoveAssign <$> zs) ++ [EDtor (tail_moved x zs)])).
Proof.
  destruct s as [h v t l]. intros (Hv & Hle & Hbuf) Hth. simpl in *.
  rewrite length_app in Hle. simpl in Hle.
  destruct buf as [a|]; [|lia]. exists a. split; [done|].
  apply noexcept_Ret.
  erewrite bind_Ret; [|by apply begin_eq].
  erewrite bind_Ret; [|by apply end_eq]. simpl.
  unfold GetAddress, ptr_add. simpl.
  rewrite ptr_le_same by lia.
  rewrite ptr_lt_same by (rewrite length_app; simpl; lia). simpl.
  unfold bind at 1. simpl.
  erewrite bind_Ret; [|by apply begin_eq]. simpl.
  unfold distance. simpl. rewrite !Nat.sub_0_r, Nat.add_1_r.
  rewrite cells_of_middle in Hbuf.
  erewrite bind_Ret.
  2:{ apply (std_move_eq a (length ys) _ zs (Some <$> ys) x); [| |by rewrite length_fmap|].
      - exact Hth.
      - exact Hbuf.
      - rewrite length_app. simpl. lia. }
  unfold ptr_sub. simpl.
  erewrite bind_Ret.
  2:{ apply (destroy_n_eq a _ [tail_moved x zs] ((Some <$> ys) ++ (Some <$> zs))).
      - rewrite lookup_insert_eq. by rewrite <- app_assoc.
      - rewrite !length_app, !length_fmap. simpl. lia. }
  rewrite insert_insert_eq.
  erewrite bind_Ret; [|by apply decr_size_eq].
  erewrite bind_Ret; [|by apply begin_eq; rewrite lookup_insert_eq]. simpl.
  unfold ret. do 2 f_equal.
  - f_equal. unfold cells_of. rewrite fmap_app, <- !app_assoc. do 2 f_equal.
    simpl. rewrite <- replicate_S.
    f_equal. rewrite !length_app. simpl. lia.
  - do 3 f_equal. rewrite !length_app. simpl. lia.
  - by rewrite <- app_assoc.
Qed.

(** [PopBack] on a vector whose last element is [z]. *)
Lemma PopBack_eq this buf cap ys z s :
  vec_at s this buf cap (ys ++ [z]) ->
  exists a, buf = Some a /\
  PopBack this s
  = (Ret tt,
     State (<[a := cells_of cap ys]> (heap s))
           (<[this := {| data_ := {| buffer_ := buf; capacity_ := cap |};
                         size_ := length ys |}]> (vecs s))
           (ticks s) (log s ++ [EDtor z])).
Proof.
  destruct s as [h v t l]. intros (Hv & Hle & Hbuf). simpl in *.
  rewrite length_app in Hle. simpl in Hle.
  destruct buf as [a|]; [|lia]. exists a. split; [done|].
  apply noexcept_Ret.
  erewrite bind_Ret; [|by apply get_size_eq]. simpl.
  rewrite bool_decide_eq_true_2 by (rewrite length_app; simpl; lia).
  unfold bind at 1. simpl.
  erewrite bind_Ret; [|by apply end_eq]. simpl.
  unfold GetAddress, ptr_add, ptr_sub. simpl.
  rewrite cells_of_middle in Hbuf. simpl in Hbuf.
  erewrite bind_Ret.
  2:{ apply (destroy_n_eq a _ [z] (Some <$> ys)); [exact Hbuf|].
      rewrite length_app, length_fmap. simpl. lia. }
  rewrite (decr_size_eq _ _ _ _ _ _ Hv). simpl. do 2 f_equal.
  - f_equal. unfold cells_of. do 1 f_equal.
    simpl. rewrite <- replicate_S.
    f_equal. rewrite !length_app. simpl. lia.
  - do 3 f_equal. rewrite !length_app. simpl. lia.
Qed.

End Erase.

Section Emplace.

Context {T : Type} {E : Element T}.

Implicit Types (h : gmap nat (list (option T))) (v : gmap nat Vector).
Implicit Types (t : nat) (l : list (@event T)) (s : @state T).
Implicit Types (pre post spre spost cells rest : list (option T)) (xs ys zs ms : list T).
Implicit Types (evs : list (@event T)) (x y z w : T).

(** The relocation step shared by all reallocation paths: a move or a
    copy of a range into uninitialised cells of another region. *)
Lemma sat_relocate a b oa ob xs spre spost pre post h v t l
    (Q : unit -> state -> Prop) X :
  a <> b ->
  h !! a = Some (spre ++ (Some <$> xs) ++ spost) -> length spre = oa ->
  h !! b = Some (pre ++ replicate (length xs) None ++ post) -> length pre = ob ->
  moves_safe_from t ->
  Q tt (State (<[a := spre ++ (Some <$> (left_behind <$> xs)) ++ spost]>
                 (<[b := pre ++ (Some <$> xs) ++ post]> h))
              v (t + length xs) (l ++ (ECtor reloc_kind <$> xs))) ->
  (relocate_by_move = false -> forall k, k < length xs ->
     throws OpCopy (t + k) = true ->
     X (State h v (S (t + k))
              (l ++ (ECtor OpCopy <$> take k xs) ++ (EDtor <$> take k xs)))) ->
  sat (if relocate_by_move
       then uninitialized_move_n (Ptr (Some a) oa) (length xs) (Ptr (Some b) ob)
       else uninitialized_copy_n (Ptr (Some a) oa) (length xs) (Ptr (Some b) ob))
      (State h v t l) Q X.
Proof.
  intros Hab Ha Hoa Hb Hob Hmv HQ HX.
  destruct relocate_by_move_cases as [(Hm & Hk & Hl)|(Hm & Hk & Hl)];
    rewrite Hm; rewrite Hk, Hl in HQ.
  - eapply sat_eq; [|exact HQ].
    apply uninitialized_move_n_eq; try done.
    intros k _. apply Hmv; [done|lia].
  - eapply sat_uninitialized_copy_n; try done; [|by apply HX].
    rewrite list_fmap_id in HQ.
    rewrite (insert_id (<[b:=_]> h) a) in HQ; [done|].
    by rewrite lookup_insert_ne.
Qed.

Lemma if_seq {A B} (c : bool) (m1 m1' : M (@state T) A) (m2 m2' : M (@state T) B) :
  (if c then (m1 ;; m2) else (m1' ;; m2'))
  = ((if c then m1 else m1') ;; (if c then m2 else m2')).
Proof. by destruct c. Qed.

Lemma Emplace_full_sat this a ys zs k x s :
  vec_at s this (Some a) (length (ys ++ zs)) (ys ++ zs) -> zs <> [] ->
  moves_safe_from (ticks s) ->
  sat (Emplace this (Ptr (Some a) (length ys)) k x) s
    (fun p s' => exists b, heap s !! b = None
       /\ s' = emplaced this a ys zs k x b s
       /\ p = Ptr (Some b) (length ys))
    (fun s' => heap s' = heap s /\ vecs s' = vecs s /\ threw (ticks s) (ticks s')).
Proof.
  destruct s as [h v t l]. intros (Hv & Hle & Hbuf) Hzs Hmv. simpl in *.
  unfold emplaced. simpl.
  assert (Hn : length (ys ++ zs) = length ys + length zs) by apply length_app.
  assert (0 < length zs) by (destruct zs; [done|simpl; lia]).
  remember (length (ys ++ zs)) as n eqn:En.
  pose proof (grown_gt n) as Hg.
  unfold Emplace.
  eapply sat_bind_eq; [by apply begin_eq|].
  eapply sat_bind_eq; [by apply end_eq|]. simpl.
  unfold GetAddress, ptr_add. simpl.
  rewrite !ptr_le_same by lia. simpl.
  eapply sat_bind_eq; [done|].
  rewrite decide_False by (intros [=]; lia).
  eapply sat_bind_eq; [by apply begin_eq|]. simpl.
  unfold distance. simpl. rewrite !Nat.sub_0_r.
  eapply sat_bind_eq; [by apply get_size_eq|].
  eapply sat_bind_eq; [by apply Capacity_eq|]. simpl.
  rewrite decide_True by done. fold (grown n).
  apply sat_bind, sat_with_RawMemory, sat_RawMemory_ctor; [lia| |].
  2:{ intros Hth. repeat split. exists OpNew, t. simpl. split; [lia|done]. }
  intros _ b Hb. assert (Hab : a <> b) by (intros ->; congruence).
  rewrite (new_cells_split (length ys)) by lia.
  apply sat_bind. eapply sat_construct_at;
    [by rewrite lookup_insert_eq|by rewrite length_replicate| |].
  2:{ intros Hth. simpl. eapply sat_eq.
      { apply Deallocate_eq. by rewrite lookup_insert_eq. }
      rewrite delete_insert_id by done. repeat split.
      exists k, (S t). simpl. split; [lia|done]. }
  intros _. rewrite insert_insert_eq.
  eapply sat_bind_eq; [apply get_data_eq; exact Hv|]. simpl.
  rewrite if_seq.
  replace (n - length ys) with (length zs) by lia.
  replace (replicate (grown n - length ys - 1) (@None T))
    with (replicate (length zs) (@None T) ++ replicate (grown n - n - 1) None)
    by (rewrite <- replicate_add; f_equal; lia).
  rewrite En, cells_of_full, fmap_app in Hbuf.
  apply sat_bind, sat_bind.
  eapply (sat_relocate a b 0 0 ys [] (Some <$> zs) []); [done| | | | | | |].
  { by rewrite lookup_insert_ne. }
  { done. }
  { by rewrite lookup_insert_eq. }
  { done. }
  { eapply moves_safe_from_le; [exact Hmv|lia]. }
  2:{ intros Hm j Hj Hth. simpl. eapply sat_eq.
      { apply Deallocate_eq. by rewrite lookup_insert_eq. }
      rewrite delete_insert_id by done. repeat split.
      exists OpCopy, (S (S t) + j). simpl. split; [lia|done]. }
  unfold ptr_add. simpl.
  eapply (sat_relocate a b (length ys) (length ys + 1) zs
            (Some <$> (left_behind <$> ys)) []
            ((Some <$> ys) ++ [Some x]) (replicate (grown n - n - 1) None));
    [done| | | | | | |].
  { rewrite lookup_insert_eq. by rewrite app_nil_r. }
  { by rewrite !length_fmap. }
  { rewrite lookup_insert_ne by done. rewrite lookup_insert_eq.
    by rewrite <- app_assoc. }
  { rewrite length_app, length_fmap. done. }
  { eapply moves_safe_from_le; [exact Hmv|lia]. }
  2:{ intros Hm j Hj Hth. simpl. eapply sat_eq.
      { apply Deallocate_eq. rewrite lookup_insert_ne by done.
        by rewrite lookup_insert_eq. }
      simpl. unfold left_behind. rewrite Hm, list_fmap_id.
      rewrite (delete_insert_ne _ b a) by done.
      rewrite !delete_insert_eq, delete_id by done.
      rewrite insert_id by done. repeat split.
      exists OpCopy, (S (S (t + length ys)) + j). split; [lia|done]. }
  rewrite insert2_absorb by done.
  assert (Hd := destroy_n_eq a 0 (left_behind <$> (ys ++ zs)) [] []).
  rewrite length_fmap, <- En in Hd.
  eapply sat_bind_eq.
  { apply Hd; [|done]. rewrite lookup_insert_eq. simpl.
    by rewrite !fmap_app, !app_nil_r. }
  rewrite insert_insert_eq. simpl.
  eapply sat_bind_eq; [by apply set_data_eq|]. simpl.
  eapply sat_bind_eq; [apply incr_size_eq; by rewrite lookup_insert_eq|]. simpl.
  apply sat_ret. simpl. eapply sat_eq.
  { apply Deallocate_eq. by rewrite lookup_insert_eq. }
  eapply sat_bind_eq; [apply get_data_eq; by rewrite lookup_insert_eq|]. simpl.
  apply sat_ret. exists b. split; [done|]. split; [|done].
  rewrite app_nil_r, omap_id_replicate_None.
  rewrite delete_insert_eq, !insert_insert_eq, delete_insert_ne by done.
  f_equal.
  - f_equal. rewrite cells_of_middle, <- !app_assoc. simpl.
    do 4 f_equal. rewrite !length_app. simpl. lia.
  - lia.
  - by rewrite <- !app_assoc.
Qed.

End Emplace.

Section Emplace_in_place.

Context {T : Type} {E : Element T}.

Implicit Types (h : gmap nat (list (option T))) (v : gmap nat Vector).
Implicit Types (t : nat) (l : list (@event T)) (s : @state T).
Implicit Types (pre post spre spost cells rest : list (option T)) (xs ys zs ms : list T).
Implicit Types (evs : list (@event T)) (x y z w : T).

Lemma fallible_eq k h v t l :
  throws k t = false -> fallible k (State h v t l) = (Ret tt, State h v (S t) l).
Proof. unfold fallible. simpl. by intros ->. Qed.

Lemma on_unwind_Ret {A} (m : M state A) cleanup s a s' :
  m s = (Ret a, s') -> on_unwind m cleanup s = (Ret a, s').
Proof. unfold on_unwind, catch. by intros ->. Qed.

Lemma move_assign_from_eq a p x w pre post h v t l :
  throws OpMoveAssign t = false ->
  h !! a = Some (pre ++ Some w :: post) -> length pre = p ->
  move_assign_from x (Ptr (Some a) p) (State h v t l)
  = (Ret (moved x),
     State (<[a := pre ++ Some x :: post]> h) v (S t)
           (l ++ [EAssign OpMoveAssign x])).
Proof.
  intros Hth Ha Hp. unfold move_assign_from.
  erewrite bind_Ret; [|by eapply peek_mid].
  erewrite bind_Ret; [|by apply fallible_eq].
  erewrite bind_Ret; [|by eapply poke_mid].
  by erewrite bind_Ret; [|by apply emit_eq].
Qed.

Lemma Emplace_room_eq this a cap ys ms z k x s :
  vec_at s this (Some a) cap (ys ++ ms ++ [z]) ->
  length (ys ++ ms ++ [z]) < cap -> quiet_from (ticks s) ->
  Emplace this (Ptr (Some a) (length ys)) k x s
  = (Ret (Ptr (Some a) (length ys)), emplaced_in_place this a cap ys ms z k x s).
Proof.
  destruct s as [h v t l]. intros (Hv & Hle & Hbuf) Hlt Hq. simpl in *.
  unfold emplaced_in_place. simpl.
  assert (Hn : length (ys ++ ms ++ [z]) = S (length ys + length ms)).
  { rewrite !length_app. simpl. lia. }
  remember (length (ys ++ ms ++ [z])) as n eqn:En.
  assert (Hcells : h !! a = Some (((Some <$> ys) ++ (Some <$> ms))
                      ++ Some z :: None :: replicate (cap - n - 1) None)).
  { rewrite Hbuf. f_equal. unfold cells_of.
    rewrite !fmap_app, <- !app_assoc, <- En. simpl. do 3 f_equal.
    rewrite <- replicate_S. f_equal. lia. }
  unfold Emplace.
  erewrite bind_Ret; [|by apply begin_eq].
  erewrite bind_Ret; [|by apply end_eq]. simpl.
  unfold GetAddress, ptr_add. simpl.
  rewrite !ptr_le_same by lia. simpl.
  erewrite bind_Ret; [|done].
  rewrite decide_False by (intros [=]; lia).
  erewrite bind_Ret; [|by apply begin_eq]. simpl.
  unfold distance. simpl. rewrite !Nat.sub_0_r.
  erewrite bind_Ret; [|by apply get_size_eq].
  erewrite bind_Ret; [|by apply Capacity_eq]. simpl.
  rewrite decide_False by lia.
  erewrite bind_Ret.
  2:{ unfold with_temporary.
      erewrite bind_Ret; [|apply fallible_eq, Hq; lia].
      erewrite bind_Ret; [|apply emit_eq].
      erewrite bind_Ret.
      2:{ apply on_unwind_Ret.
          erewrite bind_Ret; [|by apply end_eq].
          erewrite bind_Ret; [|by apply get_data_eq].
          erewrite bind_Ret; [|apply RawMemory_index_eq; simpl; lia]. simpl.
          unfold GetAddress, ptr_add. simpl.
          replace n with (S (n - 1)) at 1 by lia.
          erewrite bind_Ret.
          2:{ eapply move_construct_next; [apply Hq; lia|exact Hcells|].
              rewrite length_app, !length_fmap. lia. }
          erewrite bind_Ret; [|by apply begin_eq].
          erewrite bind_Ret; [|by apply end_eq]. simpl.
          unfold GetAddress, ptr_add, ptr_sub. simpl.
          replace n with (S (n - 1)) at 2 by lia.
          erewrite bind_Ret.
          2:{ apply (std_move_backward_eq a (length ys) (n - 1) ms (Some <$> ys)
                       (moved z)).
              - intros j _. apply Hq. lia.
              - rewrite lookup_insert_eq. by rewrite <- app_assoc.
              - by rewrite length_fmap.
              - lia. }
          rewrite insert_insert_eq.
          erewrite bind_Ret; [|apply RawMemory_index_eq; simpl; lia]. simpl.
          erewrite bind_Ret.
          2:{ eapply move_assign_from_eq; [apply Hq; lia|by rewrite lookup_insert_eq|].
              by rewrite length_fmap. }
          rewrite insert_insert_eq.
          erewrite bind_Ret; [|by apply incr_size_eq]. simpl.
          reflexivity. }
      simpl. erewrite bind_Ret; [|apply emit_eq]. simpl. reflexivity. }
  erewrite bind_Ret; [|apply get_data_eq; by rewrite lookup_insert_eq]. simpl.
  unfold ret. f_equal. f_equal.
  - f_equal. rewrite cells_of_middle, fmap_app, <- !app_assoc. simpl.
    do 5 f_equal. rewrite !length_app. simpl. rewrite length_app. simpl. lia.
  - lia.
  - rewrite <- !app_assoc. simpl. done.
Qed.

(** ** Inserting at the end *)

Lemma bind_Ret_inv {A B} (m : M state A) (k : A -> M state B) s b s' :
  bind m k s = (Ret b, s') -> exists a s1, m s = (Ret a, s1) /\ k a s1 = (Ret b, s').
Proof.
  unfold bind. destruct (m s) as [[a| |] s1]; [eauto|done..].
Qed.

Lemma get_vec_inv this s (o : Vector) s' :
  get_vec this s = (Ret o, s') -> s' = s /\ vecs s !! this = Some o.
Proof.
  unfold get_vec. destruct (vecs s !! this); [|done]. by intros [= -> ->].
Qed.

Lemma get_data_inv this s d s' :
  get_data this s = (Ret d, s') ->
  s' = s /\ exists o, vecs s !! this = Some o /\ d = data_ o.
Proof.
  intros H. apply bind_Ret_inv in H as (o & s1 & H1 & H2).
  apply get_vec_inv in H1 as [-> Ho]. injection H2 as <- <-. eauto.
Qed.

Lemma get_size_inv this s n s' :
  get_size this s = (Ret n, s') ->
  s' = s /\ exists o, vecs s !! this = Some o /\ n = size_ o.
Proof.
  intros H. apply bind_Ret_inv in H as (o & s1 & H1 & H2).
  apply get_vec_inv in H1 as [-> Ho]. injection H2 as <- <-. eauto.
Qed.

Lemma RawMemory_index_inv r i s p s' :
  RawMemory_index r i s = (Ret p, s') -> s' = s /\ p = ptr_add (GetAddress r) i.
Proof.
  unfold RawMemory_index, bind, assert. case_bool_decide; [|done].
  simpl. by intros [= <- <-].
Qed.

(** The reference [EmplaceBack] returns designates the last element. *)
Lemma EmplaceBack_Ret_inv this k x s p s' :
  EmplaceBack this k x s = (Ret p, s') ->
  exists o, vecs s' !! this = Some o
    /\ p = ptr_add (GetAddress (data_ o)) (size_ o - 1).
Proof.
  unfold EmplaceBack. intros H.
  apply bind_Ret_inv in H as (n & s1 & _ & H).
  apply bind_Ret_inv in H as (c & s2 & _ & H).
  apply bind_Ret_inv in H as (u & s3 & _ & H).
  apply bind_Ret_inv in H as (d & s4 & Hd & H).
  apply bind_Ret_inv in H as (m & s5 & Hm & H).
  apply get_data_inv in Hd as [-> (o & Ho & ->)].
  apply get_size_inv in Hm as [-> (o' & Ho' & ->)].
  apply RawMemory_index_inv in H as [-> ->].
  rewrite Ho in Ho'. injection Ho' as <-. eauto.
Qed.

End Emplace_in_place.

Section copying.

Context {T : Type} {E : Element T}.

Implicit Types (h : gmap nat (list (option T))) (v : gmap nat Vector).
Implicit Types (t : nat) (l : list (@event T)) (s : @state T).
Implicit Types (pre post spre spost cells rest : list (option T)) (xs ys zs ms : list T).
Implicit Types (evs : list (@event T)) (x y z w : T) (o : Vector).

(** [Emplace] at [end()] is [EmplaceBack], whatever the outcome. *)
Lemma Emplace_end_eq this o k x s :
  vecs s !! this = Some o ->
  Emplace this (ptr_add (GetAddress (data_ o)) (size_ o)) k x s
  = EmplaceBack this k x s.
Proof.
  destruct s as [h v t l]. simpl. intros Ho. unfold Emplace.
  erewrite bind_Ret; [|by apply begin_eq].
  erewrite bind_Ret; [|by apply end_eq].
  unfold GetAddress, ptr_add. simpl.
  rewrite !ptr_le_same by lia. simpl.
  erewrite bind_Ret; [|done].
  rewrite decide_True by done.
  unfold bind at 1.
  destruct (EmplaceBack this k x (State h v t l)) as [[p| |] s'] eqn:HE; [|done..].
  apply EmplaceBack_Ret_inv in HE as (o' & Ho' & ->).
  destruct s' as [h' v' t' l']. simpl in Ho'.
  erewrite bind_Ret; [|by apply begin_eq].
  erewrite bind_Ret; [|by apply get_size_eq]. done.
Qed.

(** ** The copy constructor *)

Lemma Vector_ctor_copy_nil this other obuf ocap s :
  vec_at s other obuf ocap [] ->
  Vector_ctor_copy this other s
  = (Ret tt, State (heap s)
                   (<[this := {| data_ := RawMemory_default; size_ := 0 |}]> (vecs s))
                   (ticks s) (log s)).
Proof.
  destruct s as [h v t l]. intros (Hv & Hle & Hbuf). simpl in *.
  unfold Vector_ctor_copy.
  erewrite bind_Ret; [|by apply get_vec_eq]. simpl.
  erewrite bind_Ret; [|by apply RawMemory_ctor_0]. done.
Qed.

Lemma Vector_ctor_copy_sat this other a ocap xs s :
  vec_at s other (Some a) ocap xs -> xs <> [] ->
  sat (Vector_ctor_copy this other) s
    (fun _ s' => exists b, heap s !! b = None /\
       s' = State (<[b := Some <$> xs]> (heap s))
                  (<[this := {| data_ := {| buffer_ := Some b; capacity_ := length xs |};
                                size_ := length xs |}]> (vecs s))
                  (S (ticks s + length xs))
                  (log s ++ [EAlloc b (length xs)] ++ (ECtor OpCopy <$> xs)))
    (fun s' => rolled_back s s').
Proof.
  destruct s as [h v t l]. intros (Hv & Hle & Hbuf) Hxs. simpl in *.
  assert (0 < length xs) by (destruct xs; [done|simpl; lia]).
  unfold Vector_ctor_copy.
  eapply sat_bind_eq; [by apply get_vec_eq|]. simpl.
  apply sat_bind, sat_RawMemory_ctor; [lia| |].
  2:{ intros Hth. eapply rolled_back_nil; [|exact Hth]. lia. }
  intros _ b Hb. assert (Hab : a <> b) by (intros ->; congruence).
  apply sat_bind, sat_on_unwind, sat_try_counted.
  eapply (sat_counted_copy a b 0 0 v (replicate (ocap - length xs) None) []
            _ Hab xs 0 [] []).
  - intros j s Hj. simpl in *.
    unfold bind at 1. rewrite RawMemory_plus_eq by (simpl; lia).
    unfold bind at 1. rewrite RawMemory_index_eq by (simpl; lia). done.
  - rewrite lookup_insert_ne by done. exact Hbuf.
  - done.
  - rewrite lookup_insert_eq. by rewrite app_nil_r.
  - done.
  - eapply sat_eq; [done|]. simpl. exists b. split; [done|].
    rewrite insert_insert_eq, app_nil_r, <- app_assoc. f_equal; lia.
  - intros k Hk Hth. simpl. apply sat_bind. unfold GetAddress. simpl.
    eapply sat_eq.
    { apply (destroy_copied b 0 k (length xs) (take k xs) [] []); try done.
      - lia.
      - rewrite length_take. lia.
      - by rewrite lookup_insert_eq, app_nil_r. }
    apply sat_throw. eapply sat_eq.
    { apply Deallocate_eq. by rewrite lookup_insert_eq. }
    rewrite delete_insert_id by done. rewrite omap_id_replicate_None.
    rewrite <- !app_assoc. eapply (rolled_back_intro _ _ _ _ _ _ OpCopy (S t + k)).
    + lia.
    + exact Hth.
    + leak_free_tac.
Qed.

(** ** [Swap] and the destructor *)

Lemma Vector_eta o : {| data_ := data_ o; size_ := size_ o |} = o.
Proof. by destruct o. Qed.

Lemma Swap_eq this other o o' h v t l :
  this <> other -> v !! this = Some o -> v !! other = Some o' ->
  Swap this other (State h v t l)
  = (Ret tt, State h (<[other := o]> (<[this := o']> v)) t l).
Proof.
  intros Hne Ho Ho'. unfold Swap.
  erewrite bind_Ret; [|by apply get_data_eq].
  erewrite bind_Ret; [|by apply get_data_eq].
  erewrite bind_Ret; [|by apply set_data_eq].
  erewrite bind_Ret; [|apply set_data_eq; by rewrite lookup_insert_ne].
  erewrite bind_Ret; [|apply get_size_eq; rewrite lookup_insert_ne by done;
                        by rewrite lookup_insert_eq].
  erewrite bind_Ret; [|apply get_size_eq; by rewrite lookup_insert_eq].
  erewrite bind_Ret; [|apply set_size_eq; rewrite lookup_insert_ne by done;
                        by rewrite lookup_insert_eq].
  erewrite set_size_eq; [|rewrite lookup_insert_ne by done;
                          by rewrite lookup_insert_eq].
  simpl. rewrite !Vector_eta. do 2 f_equal.
  apply map_eq. intros i.
  destruct (decide (i = other)) as [->|Hi]; [by rewrite !lookup_insert_eq|].
  rewrite !(lookup_insert_ne _ other) by done.
  destruct (decide (i = this)) as [->|Hi']; [by rewrite !lookup_insert_eq|].
  by rewrite !lookup_insert_ne.
Qed.

Lemma Vector_dtor_eq this a cap xs h v t l :
  v !! this = Some {| data_ := {| buffer_ := Some a; capacity_ := cap |};
                      size_ := length xs |} ->
  h !! a = Some (cells_of cap xs) ->
  Vector_dtor this (State h v t l)
  = (Ret tt, State (delete a h) (delete this v) t
                   (l ++ (EDtor <$> xs) ++ [EFree a []])).
Proof.
  intros Hv Ha. unfold Vector_dtor.
  erewrite bind_Ret; [|by apply get_vec_eq]. simpl.
  erewrite bind_Ret.
  2:{ apply (destroy_n_eq a 0 xs [] (replicate (cap - length xs) None)); done. }
  erewrite bind_Ret; [|apply Deallocate_eq; by rewrite lookup_insert_eq].
  unfold del_vec. simpl.
  rewrite delete_insert_eq, <- replicate_add, omap_id_replicate_None.
  by rewrite <- app_assoc.
Qed.

Lemma Vector_dtor_null this h v t l :
  v !! this = Some {| data_ := {| buffer_ := None; capacity_ := 0 |}; size_ := 0 |} ->
  Vector_dtor this (State h v t l) = (Ret tt, State h (delete this v) t l).
Proof.
  intros Hv. unfold Vector_dtor. by erewrite bind_Ret; [|by apply get_vec_eq].
Qed.

End copying.

Section copy_assignment.

Context {T : Type} {E : Element T}.

Implicit Types (h : gmap nat (list (option T))) (v : gmap nat Vector).
Implicit Types (t : nat) (l : list (@event T)) (s : @state T).
Implicit Types (pre post spre spost cells rest : list (option T)).
Implicit Types (xs ys zs ms olds : list T).
Implicit Types (evs : list (@event T)) (x y z w : T) (o : Vector).

Lemma sat_eq_inv {A} (m : M state A) s (a0 : A) s0 :
  sat m s (fun a s' => a = a0 /\ s' = s0) (fun _ => False) -> m s = (Ret a0, s0).
Proof.
  unfold sat. destruct (m s) as [[a| |] s']; [|done..]. by intros [-> ->].
Qed.

Lemma uninitialized_copy_n_eq a b oa ob xs spre spost pre post h v t l :
  a <> b ->
  (forall k, k < length xs -> throws OpCopy (t + k) = false) ->
  h !! a = Some (spre ++ (Some <$> xs) ++ spost) -> length spre = oa ->
  h !! b = Some (pre ++ replicate (length xs) None ++ post) -> length pre = ob ->
  uninitialized_copy_n (Ptr (Some a) oa) (length xs) (Ptr (Some b) ob) (State h v t l)
  = (Ret tt, State (<[b := pre ++ (Some <$> xs) ++ post]> h) v (t + length xs)
                   (l ++ (ECtor OpCopy <$> xs))).
Proof.
  intros Hab Hth Ha Hoa Hb Hob. apply sat_eq_inv.
  eapply sat_uninitialized_copy_n; try done.
  intros k Hk Hk'. by rewrite Hth in Hk'.
Qed.

(** ** The element-wise assignment loop of [operator=] *)

Lemma copy_assign_eq a r i j y w spre spost pre post h v t l :
  throws OpCopyAssign t = false ->
  h !! r = Some (spre ++ Some y :: spost) -> length spre = i ->
  h !! a = Some (pre ++ Some w :: post) -> length pre = j ->
  copy_assign (Ptr (Some a) j) (Ptr (Some r) i) (State h v t l)
  = (Ret tt, State (<[a := pre ++ Some y :: post]> h) v (S t)
                   (l ++ [EAssign OpCopyAssign y])).
Proof.
  intros Hth Hr Hi Ha Hj. unfold copy_assign.
  erewrite bind_Ret; [|by eapply peek_mid].
  erewrite bind_Ret; [|by eapply peek_mid].
  erewrite bind_Ret; [|by apply fallible_eq].
  erewrite bind_Ret; [|by eapply poke_mid].
  done.
Qed.

Lemma counted_copy_assign a r cap rhs o v spost post :
  a <> r -> v !! rhs = Some o -> buffer_ (data_ o) = Some r ->
  forall ys i olds spre pre h t l,
  length olds = length ys ->
  i + length ys <= cap -> i + length ys <= capacity_ (data_ o) ->
  (forall k, k < length ys -> throws OpCopyAssign (t + k) = false) ->
  h !! r = Some (spre ++ (Some <$> ys) ++ spost) -> length spre = i ->
  h !! a = Some (pre ++ (Some <$> olds) ++ post) -> length pre = i ->
  counted (fun i => dst <- RawMemory_index {| buffer_ := Some a; capacity_ := cap |} i ;;
                    src <- Vector_index_const rhs i ;;
                    copy_assign dst src)
          i (length ys) (State h v t l)
  = (i + length ys, Ret tt,
     State (<[a := pre ++ (Some <$> ys) ++ post]> h) v (t + length ys)
           (l ++ (EAssign OpCopyAssign <$> ys))).
Proof.
  intros Har Ho Hr. induction ys as [|y ys IH];
    intros i olds spre pre h t l Hlen Hc Hrc Hth Hhr Hsi Hha Hi.
  - destruct olds; [|done]. simpl in *.
    rewrite !Nat.add_0_r, app_nil_r. by rewrite insert_id.
  - destruct olds as [|w olds]; [done|]. simpl in *.
    erewrite bind_Ret; [|apply RawMemory_index_eq; simpl; lia].
    erewrite bind_Ret.
    2:{ unfold Vector_index_const. erewrite bind_Ret; [|by apply get_data_eq].
        apply RawMemory_index_eq. lia. }
    rewrite Hr. simpl.
    erewrite (copy_assign_eq a r i i y w); [| |done..].
    2:{ rewrite <- (Hth 0) by lia. f_equal. lia. }
    rewrite (IH (S i) olds (spre ++ [Some y]) (pre ++ [Some y])).
    + rewrite insert_insert_eq, !snoc_app. simpl. by rewrite !Nat.add_succ_r.
    + lia.
    + lia.
    + lia.
    + intros k Hk. rewrite <- (Hth (S k)) by lia. f_equal. lia.
    + rewrite lookup_insert_ne by done. by rewrite snoc_app.
    + rewrite length_app. simpl. lia.
    + by rewrite lookup_insert_eq, snoc_app.
    + rewrite length_app. simpl. lia.
Qed.

Lemma new_local_fresh h v t l :
  exists tmp, v !! tmp = None /\
    new_local (State h v t l) = (Ret tmp, State h v t l).
Proof.
  exists (fresh (dom v)). split; [|done]. apply not_elem_of_dom, is_fresh.
Qed.

Lemma delete_local {A} (m : gmap nat A) this tmp (o o' : A) :
  m !! tmp = None -> this <> tmp ->
  delete tmp (<[tmp := o]> (<[this := o']> (<[tmp := o']> m))) = <[this := o']> m.
Proof.
  intros Htmp Hne. rewrite delete_insert_eq, delete_insert_ne by done.
  by rewrite delete_insert_id.
Qed.

(** The target lacks capacity: copy into a temporary, swap, destroy the
    temporary. *)
Lemma Vector_copy_assign_realloc this rhs buf cap xs r rcap ys s :
  this <> rhs ->
  vec_at s this buf cap xs -> vec_at s rhs (Some r) rcap ys ->
  buf <> Some r -> cap < length ys -> quiet_from (ticks s) ->
  sat (Vector_copy_assign this rhs) s
    (fun _ s' => exists b, heap s !! b = None /\
       s' = State (<[b := Some <$> ys]> (unplug buf (heap s)))
                  (<[this := {| data_ := {| buffer_ := Some b; capacity_ := length ys |};
                                size_ := length ys |}]> (vecs s))
                  (S (ticks s + length ys))
                  (log s ++ [EAlloc b (length ys)] ++ (ECtor OpCopy <$> ys)
                         ++ (EDtor <$> xs) ++ freed buf))
    (fun _ => False).
Proof.
  destruct s as [h v t l]. intros Hne Hthis Hrhs Hbr Hc Hq.
  pose proof Hthis as (Hv & Hle & Hbuf). pose proof Hrhs as (Hrv & Hrle & Hrbuf).
  simpl in *. unfold Vector_copy_assign. rewrite decide_True by done.
  eapply sat_bind_eq; [by apply get_vec_eq|].
  eapply sat_bind_eq; [by apply Capacity_eq|]. simpl.
  rewrite decide_True by done.
  destruct (new_local_fresh h v t l) as (tmp & Htmp & Hnl).
  eapply sat_bind_eq; [exact Hnl|].
  assert (this <> tmp) by (intros ->; congruence).
  apply sat_bind. eapply sat_mono.
  { eapply Vector_ctor_copy_sat; [exact Hrhs|]. intros ->. simpl in Hc. lia. }
  2:{ intros s' Hrb. by eapply (quiet_not_rolled_back (State h v t l)). }
  intros [] s' (b & Hb & ->). simpl in *.
  assert (r <> b) by (intros ->; congruence).
  eapply sat_bind_eq.
  { apply Swap_eq; [done|by rewrite lookup_insert_ne|by rewrite lookup_insert_eq]. }
  destruct buf as [a|].
  - assert (a <> b) by (intros ->; congruence).
    eapply sat_eq.
    { eapply Vector_dtor_eq; [by rewrite lookup_insert_eq|].
      by rewrite lookup_insert_ne. }
    exists b. split; [done|]. simpl.
    rewrite delete_local by done. rewrite delete_insert_ne by done.
    by rewrite <- !app_assoc.
  - destruct (vec_at_null_nil _ _ _ _ Hthis) as [-> ->].
    eapply sat_eq; [apply Vector_dtor_null; by rewrite lookup_insert_eq|].
    exists b. split; [done|]. simpl.
    rewrite delete_local by done. by rewrite !app_nil_r.
Qed.

End copy_assignment.

Section copy_assignment_in_place.

Context {T : Type} {E : Element T}.

Implicit Types (h : gmap nat (list (option T))) (v : gmap nat Vector).
Implicit Types (t : nat) (l : list (@event T)) (s : @state T).
Implicit Types (pre post spre spost cells rest : list (option T)).
Implicit Types (xs ys zs ms olds : list T).
Implicit Types (evs : list (@event T)) (x y z w : T) (o : Vector).

(** The assignment loop of [operator=] over the first [length ys]
    elements, [ys] being a prefix of the source. *)
Lemma assign_prefix_eq rhs a cap olds rest rbuf rcap ys zs h v t l :
  v !! rhs = Some {| data_ := {| buffer_ := rbuf; capacity_ := rcap |};
                     size_ := length (ys ++ zs) |} ->
  length (ys ++ zs) <= rcap ->
  match rbuf with
  | Some r => h !! r = Some (cells_of rcap (ys ++ zs)) /\ r <> a
  | None => rcap = 0
  end ->
  h !! a = Some ((Some <$> olds) ++ rest) -> length olds = length ys ->
  length ys <= cap ->
  (forall k, k < length ys -> throws OpCopyAssign (t + k) = false) ->
  for_each (fun i => dst <- RawMemory_index {| buffer_ := Some a; capacity_ := cap |} i ;;
                     src <- Vector_index_const rhs i ;;
                     copy_assign dst src)
           (length ys) (State h v t l)
  = (Ret tt, State (<[a := (Some <$> ys) ++ rest]> h) v (t + length ys)
                   (l ++ (EAssign OpCopyAssign <$> ys))).
Proof.
  intros Hrv Hrle Hrbuf Ha Hlen Hc Hth. unfold for_each, try_counted.
  destruct rbuf as [r|].
  - destruct Hrbuf as [Hr Hra].
    erewrite (counted_copy_assign a r cap rhs _ v
                ((Some <$> zs) ++ replicate (rcap - length (ys ++ zs)) None) rest
                _ Hrv eq_refl ys 0 olds [] []); try done.
    + simpl. rewrite length_app in Hrle. lia.
    + rewrite Hr. f_equal. unfold cells_of. by rewrite fmap_app, <- app_assoc.
  - subst rcap. destruct ys; [|simpl in Hrle; lia]. destruct olds; [|done].
    simpl. rewrite Nat.add_0_r, app_nil_r. by rewrite insert_id.
  Unshelve. done.
Qed.

(** The source is shorter than the target: assign, then destroy the
    surplus. *)
Lemma Vector_copy_assign_shorter this rhs a cap xs rbuf rcap ys s :
  this <> rhs ->
  vec_at s this (Some a) cap xs -> vec_at s rhs rbuf rcap ys ->
  rbuf <> Some a -> length ys < length xs ->
  (forall k, k < length ys -> throws OpCopyAssign (ticks s + k) = false) ->
  Vector_copy_assign this rhs s
  = (Ret tt,
     State (<[a := cells_of cap ys]> (heap s))
           (<[this := {| data_ := {| buffer_ := Some a; capacity_ := cap |};
                         size_ := length ys |}]> (vecs s))
           (ticks s + length ys)
           (log s ++ (EAssign OpCopyAssign <$> ys)
                  ++ (EDtor <$> drop (length ys) xs))).
Proof.
  destruct s as [h v t l]. intros Hne (Hv & Hle & Hbuf) (Hrv & Hrle & Hrbuf) Hbr Hlt Hth.
  simpl in *. unfold Vector_copy_assign. rewrite decide_True by done.
  erewrite bind_Ret; [|by apply get_vec_eq].
  erewrite bind_Ret; [|by apply Capacity_eq]. simpl.
  rewrite decide_False by lia.
  erewrite bind_Ret; [|by apply get_size_eq].
  erewrite bind_Ret; [|by apply get_data_eq]. simpl.
  rewrite !decide_True by done.
  erewrite bind_Ret.
  2:{ erewrite bind_Ret.
      2:{ apply (assign_prefix_eq rhs a cap (take (length ys) xs)
                   ((Some <$> drop (length ys) xs) ++ replicate (cap - length xs) None)
                   rbuf rcap ys []).
          - by rewrite app_nil_r.
          - by rewrite app_nil_r.
          - rewrite app_nil_r. destruct rbuf; [|done]. split; [done|congruence].
          - rewrite Hbuf. f_equal. apply take_drop_cells. lia.
          - rewrite length_take. lia.
          - lia.
          - done. }
      unfold GetAddress, ptr_add. simpl.
      assert (Hd := destroy_n_eq a (length ys) (drop (length ys) xs) (Some <$> ys)
                      (replicate (cap - length xs) None)).
      rewrite length_drop in Hd. apply Hd.
      - by rewrite lookup_insert_eq.
      - by rewrite length_fmap. }
  erewrite set_size_eq; [|done]. simpl. rewrite insert_insert_eq.
  do 2 f_equal.
  - f_equal. unfold cells_of. rewrite <- replicate_add. do 2 f_equal. lia.
  - by rewrite <- app_assoc.
Qed.

(** The source is at least as long as the target and fits: assign the
    common prefix, then copy-construct the rest. *)
Lemma Vector_copy_assign_longer this rhs a cap xs r rcap ys s :
  this <> rhs ->
  vec_at s this (Some a) cap xs -> vec_at s rhs (Some r) rcap ys ->
  r <> a -> length xs <= length ys <= cap ->
  (forall k, k < length xs -> throws OpCopyAssign (ticks s + k) = false) ->
  (forall k, length xs <= k < length ys -> throws OpCopy (ticks s + k) = false) ->
  Vector_copy_assign this rhs s
  = (Ret tt,
     State (<[a := cells_of cap ys]> (heap s))
           (<[this := {| data_ := {| buffer_ := Some a; capacity_ := cap |};
                         size_ := length ys |}]> (vecs s))
           (ticks s + length ys)
           (log s ++ (EAssign OpCopyAssign <$> take (length xs) ys)
                  ++ (ECtor OpCopy <$> drop (length xs) ys))).
Proof.
  destruct s as [h v t l].
  intros Hne (Hv & Hle & Hbuf) (Hrv & Hrle & Hrbuf) Hbr Hlt Hth Hth'.
  simpl in *. unfold Vector_copy_assign. rewrite decide_True by done.
  erewrite bind_Ret; [|by apply get_vec_eq].
  erewrite bind_Ret; [|by apply Capacity_eq]. simpl.
  rewrite decide_False by lia.
  erewrite bind_Ret; [|by apply get_size_eq].
  erewrite bind_Ret; [|by apply get_data_eq]. simpl.
  rewrite !decide_False by lia.
  assert (Hys : ys = take (length xs) ys ++ drop (length xs) ys)
    by (by rewrite take_drop).
  assert (Htk : length (take (length xs) ys) = length xs)
    by (rewrite length_take; lia).
  assert (Hdr : length (drop (length xs) ys) = length ys - length xs)
    by apply length_drop.
  erewrite bind_Ret.
  2:{ erewrite bind_Ret.
      2:{ rewrite <- Htk.
          apply (assign_prefix_eq rhs a cap xs (replicate (cap - length xs) None)
                   (Some r) rcap (take (length xs) ys) (drop (length xs) ys)).
          - by rewrite <- Hys.
          - by rewrite <- Hys.
          - by rewrite <- Hys.
          - exact Hbuf.
          - by rewrite Htk.
          - lia.
          - intros k Hk. apply Hth. lia. }
      unfold GetAddress, ptr_add. simpl. rewrite <- Hdr.
      apply (uninitialized_copy_n_eq r a (length xs) (length xs)
               (drop (length xs) ys)
               (Some <$> take (length xs) ys)
               (replicate (rcap - length ys) None)
               (Some <$> take (length xs) ys)
               (replicate (cap - length ys) None)).
      - done.
      - intros k Hk. rewrite Htk. replace (t + length xs + k) with (t + (length xs + k)) by lia.
        apply Hth'. lia.
      - rewrite lookup_insert_ne by done. rewrite Hrbuf. f_equal.
        unfold cells_of. by rewrite app_assoc, <- fmap_app, take_drop.
      - by rewrite length_fmap.
      - rewrite lookup_insert_eq. f_equal. f_equal.
        rewrite <- replicate_add. f_equal. lia.
      - by rewrite length_fmap. }
  erewrite set_size_eq; [|done]. simpl. rewrite insert_insert_eq.
  do 2 f_equal.
  - f_equal. unfold cells_of. by rewrite app_assoc, <- fmap_app, take_drop.
  - lia.
  - by rewrite <- app_assoc.
Qed.

(** Both vectors are empty: nothing to assign, nothing to construct. *)
Lemma Vector_copy_assign_empty this rhs buf cap rbuf rcap s :
  this <> rhs ->
  vec_at s this buf cap [] -> vec_at s rhs rbuf rcap [] ->
  Vector_copy_assign this rhs s = (Ret tt, s).
Proof.
  destruct s as [h v t l]. intros Hne (Hv & Hle & Hbuf) (Hrv & Hrle & Hrbuf).
  simpl in *. unfold Vector_copy_assign. rewrite decide_True by done.
  erewrite bind_Ret; [|by apply get_vec_eq].
  erewrite bind_Ret; [|by apply Capacity_eq]. simpl.
  rewrite ?decide_False by lia.
  erewrite bind_Ret; [|by apply get_size_eq].
  erewrite bind_Ret; [|by apply get_data_eq]. simpl.
  unfold bind at 1. simpl.
  erewrite set_size_eq; [|done]. simpl. by rewrite insert_id.
Qed.

End copy_assignment_in_place.

(** * The vector operations on well-formed vectors *)

Section operations.

Context {T : Type} {E : Element T}.

Implicit Types (h : gmap nat (list (option T))) (v : gmap nat Vector).
Implicit Types (t : nat) (l : list (@event T)) (s : @state T).
Implicit Types (pre post spre spost cells rest : list (option T)).
Implicit Types (xs ys zs ms olds : list T).
Implicit Types (evs : list (@event T)) (x y z w : T) (o : Vector).

(** What the accessors of the header read off a well-formed vector. *)
Lemma vec_at_Size s this buf cap xs :
  vec_at s this buf cap xs -> Size this s = (Ret (length xs), s).
Proof.
  destruct s as [h v t l]. intros (Hv & _). simpl in *.
  unfold Size. by rewrite (get_size_eq _ _ _ _ _ _ Hv).
Qed.

Lemma vec_at_Capacity s this buf cap xs :
  vec_at s this buf cap xs -> Capacity this s = (Ret cap, s).
Proof.
  destruct s as [h v t l]. intros (Hv & _). simpl in *.
  by rewrite (Capacity_eq _ _ _ _ _ _ Hv).
Qed.

Lemma vec_at_index s this buf cap xs i x :
  vec_at s this buf cap xs -> xs !! i = Some x ->
  (p <- Vector_index this i ;; peek p) s = (Ret x, s).
Proof.
  destruct s as [h v t l]. intros (Hv & Hle & Hbuf) Hi. simpl in *.
  pose proof (lookup_lt_Some _ _ _ Hi) as Hlt.
  destruct buf as [a|]; [|lia].
  erewrite bind_Ret.
  2:{ unfold Vector_index. erewrite bind_Ret; [|by apply get_size_eq]. simpl.
      rewrite bool_decide_eq_true_2 by done. unfold bind at 1. simpl.
      erewrite bind_Ret; [|by apply get_data_eq].
      apply RawMemory_index_eq. simpl. lia. }
  eapply peek_eq; [exact Hbuf|]. unfold cells_of.
  rewrite lookup_app_l by (by rewrite length_fmap).
  by rewrite list_lookup_fmap, Hi.
Qed.

Lemma sat_quiet {A} (m : M state A) s Q X :
  sat m s Q X -> (forall s', X s' -> False) ->
  exists a s', m s = (Ret a, s') /\ Q a s'.
Proof. intros H HX. apply sat_returns. eapply sat_mono; [exact H|done|exact HX]. Qed.

Lemma vec_at_buf_Some s this buf cap xs :
  vec_at s this buf cap xs -> 0 < cap -> exists a, buf = Some a.
Proof. intros (_ & _ & Hbuf) Hc. destruct buf; [eauto|lia]. Qed.

(** C9, amended: [Reserve(n)] with [n] at most the capacity changes
    nothing at all: same state, hence same capacity, size, elements and
    buffer, and no allocation.  With [n] above the capacity, [n] objects
    taking no more bytes than a [size_t] can count, and no failure, the
    vector ends up in a buffer of capacity exactly [n] that was not in
    use, with the same size and the same elements. *)
Theorem Reserve_frame this buf cap xs n s :
  vec_at s this buf cap xs ->
  (n <= cap -> Reserve this n s = (Ret tt, s))
  /\ (cap < n -> representable n -> quiet_from (ticks s) ->
      exists b s', Reserve this n s = (Ret tt, s')
        /\ heap s !! b = None
        /\ vec_at s' this (Some b) n xs
        /\ Size this s' = (Ret (length xs), s')
        /\ Capacity this s' = (Ret n, s')).
Proof.
  intros Hvec. split.
  - intros Hn. destruct s as [h v t l]. destruct Hvec as (Hv & _). simpl in *.
    unfold Reserve. erewrite bind_Ret; [|by apply get_data_eq]. simpl.
    by rewrite decide_True.
  - intros Hn Hrep Hq.
    destruct (sat_quiet _ _ _ _ (Reserve_sat this buf cap xs n s Hvec Hn Hrep
                (quiet_moves_safe _ Hq))) as ([] & s' & Hrun & b & Hb & ->).
    { intros s' Hrb. by eapply quiet_not_rolled_back. }
    pose proof (reserved_vec_at this buf cap xs n b s Hvec Hn) as Hvec'.
    exists b, (reserved this buf xs n b s). split_and!; try done.
    + by eapply vec_at_Size.
    + by eapply vec_at_Capacity.
Qed.

(** C4: appending to a vector whose size equals its capacity [c], when
    nothing fails, moves it to a buffer of capacity [2 * c] ([1] when
    [c = 0]); the size grows by one, the old elements keep their values
    and positions, and the last element is the appended value.
    [PushBack] is [EmplaceBack] with a copy or a move of the value. *)
Theorem EmplaceBack_full_doubles this buf xs k x s :
  vec_at s this buf (length xs) xs -> quiet_from (ticks s) ->
  exists b s',
    EmplaceBack this k x s = (Ret (Ptr (Some b) (length xs)), s')
    /\ vec_at s' this (Some b)
              (if decide (length xs = 0) then 1 else 2 * length xs) (xs ++ [x])
    /\ Size this s' = (Ret (S (length xs)), s')
    /\ Capacity this s'
       = (Ret (if decide (length xs = 0) then 1 else 2 * length xs), s')
    /\ (p <- Vector_index this (length xs) ;; peek p) s' = (Ret x, s')
    /\ (k = OpCopy -> PushBack this x s = (Ret tt, s'))
    /\ (k = OpMove -> PushBack_move this x s = (Ret tt, s')).
Proof.
  intros Hvec Hq.
  destruct (sat_quiet _ _ _ _ (EmplaceBack_full_sat this buf xs k x s Hvec
              (quiet_moves_safe _ Hq))) as (p & s' & Hrun & b & Hb & -> & ->).
  { intros s' (_ & _ & Hth). by eapply quiet_not_threw. }
  pose proof (emplaced_back_vec_at this buf xs k x b s) as Hvec'.
  replace (grown (length xs))
    with (if decide (length xs = 0) then 1 else 2 * length xs) in Hvec'
    by (unfold grown; case_decide; lia).
  exists b, (emplaced_back this buf xs k x b s). split_and!; try done.
  - erewrite vec_at_Size by exact Hvec'. rewrite length_app. simpl.
    do 2 f_equal. lia.
  - by eapply vec_at_Capacity.
  - eapply vec_at_index; [exact Hvec'|]. by apply list_lookup_middle.
  - intros ->. unfold PushBack. by erewrite bind_Ret.
  - intros ->. unfold PushBack_move. by erewrite bind_Ret.
Qed.

(** C8, amended: a growing [Resize(n)], when nothing fails, keeps the
    elements and appends [n - size] default values, reallocating to
    capacity [n] only if [n] exceeds the capacity, and then provided
    that [n] objects take no more bytes than a [size_t] can count; a
    shrinking one keeps the first [n] elements and cannot fail; and
    [Resize(0)] followed by [Resize(5)] on a populated vector leaves
    five default values. *)
Theorem Resize_spec this buf cap xs n s :
  vec_at s this buf cap xs ->
  (length xs < n -> (cap < n -> representable n) -> quiet_from (ticks s) ->
     exists buf' s', Resize this n s = (Ret tt, s')
       /\ vec_at s' this buf' (if decide (cap < n) then n else cap)
                 (xs ++ replicate (n - length xs) dflt)
       /\ Size this s' = (Ret n, s'))
  /\ (n < length xs ->
     exists s', Resize this n s = (Ret tt, s')
       /\ vec_at s' this buf cap (take n xs)
       /\ Size this s' = (Ret n, s'))
  /\ (xs <> [] -> (cap < 5 -> representable 5) -> quiet_from (ticks s) ->
     exists buf' s1 s2,
       Resize this 0 s = (Ret tt, s1) /\ Resize this 5 s1 = (Ret tt, s2)
       /\ vec_at s2 this buf' (if decide (cap < 5) then 5 else cap) (replicate 5 dflt)
       /\ Size this s2 = (Ret 5, s2)).
Proof.
  intros Hvec.
  assert (Hgrow : forall s0 buf0 xs0 m, vec_at s0 this buf0 cap xs0 ->
            length xs0 < m -> (cap < m -> representable m) ->
            quiet_from (ticks s0) ->
            exists buf' s', Resize this m s0 = (Ret tt, s')
              /\ vec_at s' this buf' (if decide (cap < m) then m else cap)
                        (xs0 ++ replicate (m - length xs0) dflt)
              /\ Size this s' = (Ret m, s')).
  { intros s0 buf0 xs0 m Hvec0 Hm Hrep Hq.
    destruct (sat_quiet _ _ _ _ (Resize_grow_sat this buf0 cap xs0 m s0 Hvec0 Hm Hrep
                (quiet_moves_safe _ Hq))) as ([] & s' & Hrun & buf' & Hvec' & _).
    { intros s' (? & ? & _ & _ & Hth & _). by eapply quiet_not_threw. }
    exists buf', s'. split; [done|]. split; [done|].
    erewrite vec_at_Size by exact Hvec'.
    rewrite length_app, length_replicate. do 2 f_equal. lia. }
  assert (Hshrink : forall m, m < length xs ->
            exists s', Resize this m s = (Ret tt, s')
              /\ vec_at s' this buf cap (take m xs) /\ ticks s' = ticks s).
  { intros m Hm.
    destruct (Resize_shrink_eq this buf cap xs m s Hvec Hm) as (a & -> & Hrun).
    eexists. split; [exact Hrun|]. split; [|done].
    destruct Hvec as (Hv & Hle & Hbuf). unfold vec_at. simpl.
    rewrite !lookup_insert_eq, length_take_le by lia. repeat split. lia. }
  split; [intros Hn Hrep Hq; by eapply Hgrow|]. split.
  - intros Hn. destruct (Hshrink n Hn) as (s' & Hrun & Hvec' & _).
    exists s'. split; [done|]. split; [done|].
    erewrite vec_at_Size by exact Hvec'. by rewrite length_take_le by lia.
  - intros Hxs Hrep Hq.
    destruct (Hshrink 0) as (s1 & Hrun1 & Hvec1 & Ht1).
    { destruct xs; [done|simpl; lia]. }
    rewrite take_0 in Hvec1.
    destruct (Hgrow s1 buf [] 5 Hvec1) as (buf' & s2 & Hrun2 & Hvec2 & Hsz2).
    { simpl. lia. }
    { done. }
    { by rewrite Ht1. }
    by exists buf', s1, s2.
Qed.

(** C10: assigning a vector to itself does nothing at all: the state,
    including the record of constructions, assignments, destructions
    and the count of fallible calls, is the one before. *)
Theorem self_copy_assign this s : Vector_copy_assign this this s = (Ret tt, s).
Proof. unfold Vector_copy_assign. by rewrite decide_False by (by intros []). Qed.

End operations.

Section positional.

Context {T : Type} {E : Element T}.

Implicit Types (h : gmap nat (list (option T))) (v : gmap nat Vector).
Implicit Types (t : nat) (l : list (@event T)) (s : @state T).
Implicit Types (pre post spre spost cells rest : list (option T)).
Implicit Types (xs ys zs ms olds : list T).
Implicit Types (evs : list (@event T)) (x y z w : T) (o : Vector).

(** C6: [Erase] at index [i] of a vector, for an element type whose
    move assignment does not raise, returns normally with the elements
    before [i] followed by those after it, one element fewer, and an
    iterator to index [i]; erasing the last element leaves the very
    state [PopBack] leaves. *)
Theorem Erase_spec this buf cap xs i x s :
  vec_at s this buf cap xs -> xs !! i = Some x ->
  (forall j, throws OpMoveAssign j = false) ->
  exists s',
    Erase this (Ptr buf i) s = (Ret (Ptr buf i), s')
    /\ vec_at s' this buf cap (take i xs ++ drop (S i) xs)
    /\ Size this s' = (Ret (length xs - 1), s')
    /\ (S i = length xs -> PopBack this s = (Ret tt, s')).
Proof.
  intros Hvec Hi Hth.
  pose proof (lookup_lt_Some _ _ _ Hi) as Hlt.
  pose proof (take_drop_middle xs i x Hi) as Hxs.
  remember (take i xs) as ys eqn:Eys. remember (drop (S i) xs) as zs eqn:Ezs.
  assert (Hys : length ys = i) by (subst ys; rewrite length_take; lia).
  rewrite <- Hxs in Hvec.
  destruct (Erase_eq this buf cap ys x zs s Hvec) as (a & -> & Hrun).
  { intros j _. apply Hth. }
  rewrite Hys in Hrun. eexists. split; [exact Hrun|].
  assert (Hlen : length (ys ++ zs) = length xs - 1).
  { rewrite <- Hxs, !length_app. simpl. lia. }
  assert (Hvec' : vec_at
            (State (<[a := cells_of cap (ys ++ zs)]> (heap s))
                   (<[this := {| data_ := {| buffer_ := Some a; capacity_ := cap |};
                                 size_ := length (ys ++ zs) |}]> (vecs s))
                   (ticks s + length zs)
                   (log s ++ (EAssign OpMoveAssign <$> zs) ++ [EDtor (tail_moved x zs)]))
            this (Some a) cap (ys ++ zs)).
  { destruct Hvec as (Hv & Hle & Hbuf). unfold vec_at. simpl.
    rewrite !lookup_insert_eq. split_and!; try done.
    rewrite !length_app in *. simpl in Hle. lia. }
  split; [exact Hvec'|]. split.
  - erewrite vec_at_Size by exact Hvec'. by rewrite Hlen.
  - intros Hlast. assert (zs = []) as ->.
    { subst zs. apply drop_ge. lia. }
    destruct (PopBack_eq this (Some a) cap ys x s Hvec) as (a' & [= <-] & Hpop).
    rewrite Hpop. simpl. by rewrite !app_nil_r, Nat.add_0_r.
Qed.

(** C7: copy assignment between two distinct vectors with distinct
    buffers, when nothing fails, leaves the target with the size and the
    elements of the source and the source as it was.  If the source
    fits the capacity of the target, the target keeps its buffer and
    its capacity; otherwise it gets a buffer that was not in use, of
    capacity exactly the size of the source. *)
Theorem copy_assign_spec this rhs buf cap xs rbuf rcap ys s :
  this <> rhs ->
  vec_at s this buf cap xs -> vec_at s rhs rbuf rcap ys ->
  (forall a, buf = Some a -> rbuf <> Some a) ->
  quiet_from (ticks s) ->
  exists buf' s',
    Vector_copy_assign this rhs s = (Ret tt, s')
    /\ vec_at s' this buf' (if decide (cap < length ys) then length ys else cap) ys
    /\ vec_at s' rhs rbuf rcap ys
    /\ Size this s' = (Ret (length ys), s')
    /\ (length ys <= cap -> buf' = buf)
    /\ (cap < length ys -> exists b, buf' = Some b /\ heap s !! b = None).
Proof.
  intros Hne Hthis Hrhs Hdisj Hq.
  pose proof Hthis as (Hv & Hle & Hbuf). pose proof Hrhs as (Hrv & Hrle & Hrbuf).
  assert (Hobs : forall buf' c s', vec_at s' this buf' c ys ->
            Size this s' = (Ret (length ys), s')) by (intros; by eapply vec_at_Size).
  destruct (decide (cap < length ys)) as [Hc|Hc].
  - (* reallocation *)
    destruct rbuf as [r|]; [|lia].
    assert (Hbr : buf <> Some r) by (intros ->; by eapply Hdisj).
    destruct (sat_quiet _ _ _ _ (Vector_copy_assign_realloc this rhs buf cap xs r rcap
                ys s Hne Hthis Hrhs Hbr Hc Hq)) as ([] & s' & Hrun & b & Hb & ->); [done|].
    assert (r <> b) by (intros ->; congruence).
    eexists (Some b), _. split; [exact Hrun|].
    assert (Hthis' : vec_at
      (State (<[b := Some <$> ys]> (unplug buf (heap s)))
             (<[this := {| data_ := {| buffer_ := Some b; capacity_ := length ys |};
                           size_ := length ys |}]> (vecs s))
             (S (ticks s + length ys))
             (log s ++ [EAlloc b (length ys)] ++ (ECtor OpCopy <$> ys)
                    ++ (EDtor <$> xs) ++ freed buf))
      this (Some b) (length ys) ys).
    { unfold vec_at. simpl. rewrite !lookup_insert_eq. split_and!; try done.
      by rewrite cells_of_full. }
    split_and!; try done; [|by eapply Hobs|lia|by eauto].
    unfold vec_at. simpl. rewrite !lookup_insert_ne by done.
    split_and!; try done. destruct buf as [a|]; simpl; [|done].
    rewrite lookup_delete_ne by congruence. done.
  - destruct (decide (length ys < length xs)) as [Hlt|Hge].
    + (* the source is shorter *)
      destruct buf as [a|]; [|lia].
      assert (Hra : rbuf <> Some a) by (by apply Hdisj).
      pose proof (Vector_copy_assign_shorter this rhs a cap xs rbuf rcap ys s
                    Hne Hthis Hrhs Hra Hlt) as Hrun.
      eexists (Some a), _. split; [apply Hrun; intros; apply Hq; lia|].
      assert (Hthis' : vec_at
        (State (<[a := cells_of cap ys]> (heap s))
               (<[this := {| data_ := {| buffer_ := Some a; capacity_ := cap |};
                             size_ := length ys |}]> (vecs s))
               (ticks s + length ys)
               (log s ++ (EAssign OpCopyAssign <$> ys)
                      ++ (EDtor <$> drop (length ys) xs)))
        this (Some a) cap ys).
      { unfold vec_at. simpl. rewrite !lookup_insert_eq. split_and!; try done. lia. }
      split_and!; try done; [|by eapply Hobs].
      unfold vec_at. simpl. rewrite !lookup_insert_ne by done.
      split_and!; try done. destruct rbuf as [r|]; [|done].
      rewrite lookup_insert_ne by congruence. done.
    + destruct ys as [|y ys'].
      * (* both are empty *)
        destruct xs; [|simpl in Hge; lia].
        exists buf, s. rewrite (Vector_copy_assign_empty this rhs buf cap rbuf rcap s)
          by done.
        split_and!; try done. by eapply Hobs.
      * (* the source is at least as long and fits *)
        remember (y :: ys') as ys eqn:Eys.
        assert (0 < length ys) by (subst ys; simpl; lia).
        destruct rbuf as [r|]; [|lia]. destruct buf as [a|]; [|lia].
        assert (Hra : r <> a) by (intros ->; by eapply Hdisj).
        pose proof (Vector_copy_assign_longer this rhs a cap xs r rcap ys s
                      Hne Hthis Hrhs Hra) as Hrun.
        eexists (Some a), _. split.
        { apply Hrun; [lia|intros; apply Hq; lia|intros; apply Hq; lia]. }
        assert (Hthis' : vec_at
          (State (<[a := cells_of cap ys]> (heap s))
                 (<[this := {| data_ := {| buffer_ := Some a; capacity_ := cap |};
                               size_ := length ys |}]> (vecs s))
                 (ticks s + length ys)
                 (log s ++ (EAssign OpCopyAssign <$> take (length xs) ys)
                        ++ (ECtor OpCopy <$> drop (length xs) ys)))
          this (Some a) cap ys).
        { unfold vec_at. simpl. rewrite !lookup_insert_eq. split_and!; try done. lia. }
        split_and!; try done; [|by eapply Hobs].
        unfold vec_at. simpl. rewrite !lookup_insert_ne by done.
        split_and!; done.
Qed.

End positional.

Section insertion.

Context {T : Type} {E : Element T}.

Implicit Types (h : gmap nat (list (option T))) (v : gmap nat Vector).
Implicit Types (t : nat) (l : list (@event T)) (s : @state T).
Implicit Types (pre post spre spost cells rest : list (option T)).
Implicit Types (xs ys zs ms olds : list T).
Implicit Types (evs : list (@event T)) (x y z w : T) (o : Vector).

Lemma emplaced_vec_at this a ys zs k x b s :
  vec_at (emplaced this a ys zs k x b s) this (Some b)
         (grown (length (ys ++ zs))) (ys ++ x :: zs).
Proof.
  unfold vec_at, emplaced. simpl. rewrite !lookup_insert_eq.
  pose proof (grown_gt (length (ys ++ zs))) as Hg.
  rewrite !length_app in *. simpl.
  split; [do 2 f_equal; lia|]. split; [lia|done].
Qed.

Lemma emplaced_in_place_vec_at this a cap ys ms z k x s :
  length (ys ++ ms ++ [z]) < cap ->
  vec_at (emplaced_in_place this a cap ys ms z k x s) this (Some a) cap
         (ys ++ x :: ms ++ [z]).
Proof.
  intros Hlt. unfold vec_at, emplaced_in_place. simpl. rewrite !lookup_insert_eq.
  rewrite !length_app in *. simpl in *. rewrite !length_app in *. simpl in *.
  split; [do 2 f_equal; lia|]. split; [lia|done].
Qed.

Lemma snoc_decompose xs : xs <> [] -> exists ms z, xs = ms ++ [z].
Proof.
  destruct xs as [|z ms] using rev_ind; [done|]. intros _. by exists ms, z.
Qed.

(** The capacity after inserting one element into a vector of [n]
    elements and capacity [cap]. *)
Lemma grown_alt n : grown n = if decide (n = 0) then 1 else 2 * n.
Proof. unfold grown. case_decide; lia. Qed.

(** C5: [Insert] (in general [Emplace]) of [x] at index [i <= size],
    when nothing fails, yields the elements before [i], then [x], then
    the elements from [i] on; the size grows by one and the iterator
    returned designates index [i] of the resulting buffer.  At
    [i = size] the run is the run of [EmplaceBack]. *)
Theorem Insert_spec this buf cap xs i k x s :
  vec_at s this buf cap xs -> i <= length xs -> quiet_from (ticks s) ->
  exists buf' s',
    Emplace this (Ptr buf i) k x s = (Ret (Ptr buf' i), s')
    /\ vec_at s' this buf'
              (if decide (length xs = cap) then grown cap else cap)
              (take i xs ++ x :: drop i xs)
    /\ Size this s' = (Ret (S (length xs)), s')
    /\ (i = length xs -> EmplaceBack this k x s = (Ret (Ptr buf' i), s'))
    /\ (k = OpCopy -> Insert this (Ptr buf i) x s = (Ret (Ptr buf' i), s'))
    /\ (k = OpMove -> Insert_move this (Ptr buf i) x s = (Ret (Ptr buf' i), s')).
Proof.
  intros Hvec Hi Hq. pose proof Hvec as (Hv & Hle & Hbuf).
  assert (Hfin : forall buf' c s',
    Emplace this (Ptr buf i) k x s = (Ret (Ptr buf' i), s') ->
    vec_at s' this buf' c (take i xs ++ x :: drop i xs) ->
    Emplace this (Ptr buf i) k x s = (Ret (Ptr buf' i), s')
    /\ vec_at s' this buf' c (take i xs ++ x :: drop i xs)
    /\ Size this s' = (Ret (S (length xs)), s')
    /\ (i = length xs -> EmplaceBack this k x s = (Ret (Ptr buf' i), s')
        -> EmplaceBack this k x s = (Ret (Ptr buf' i), s'))
    /\ (k = OpCopy -> Insert this (Ptr buf i) x s = (Ret (Ptr buf' i), s'))
    /\ (k = OpMove -> Insert_move this (Ptr buf i) x s = (Ret (Ptr buf' i), s'))).
  { intros buf' c s' Hrun Hvec'. split_and!; try done.
    - erewrite vec_at_Size by exact Hvec'.
      rewrite length_app. simpl. rewrite length_take, length_drop.
      do 2 f_equal. lia.
    - by intros ->.
    - by intros ->. }
  destruct (decide (i = length xs)) as [->|Hne].
  - (* at the end *)
    assert (Hend : Emplace this (Ptr buf (length xs)) k x s = EmplaceBack this k x s).
    { destruct s as [h v t l]. apply (Emplace_end_eq this _ k x _ Hv). }
    rewrite firstn_all, drop_all in *.
    destruct (decide (length xs = cap)) as [Hc|Hc].
    + subst cap.
      destruct (sat_quiet _ _ _ _ (EmplaceBack_full_sat this buf xs k x s Hvec
                  (quiet_moves_safe _ Hq))) as (p & s' & Hrun & b & Hb & -> & ->).
      { intros s' (_ & _ & Hth). by eapply quiet_not_threw. }
      exists (Some b), (emplaced_back this buf xs k x b s).
      rewrite Hend in *.
      destruct (Hfin (Some b) (grown (length xs)) _ Hrun
                  (emplaced_back_vec_at this buf xs k x b s)) as (?&?&?&?&?&?).
      split_and!; done.
    + destruct (sat_quiet _ _ _ _ (EmplaceBack_room_sat this buf cap xs k x s Hvec
                  ltac:(lia))) as (p & s' & Hrun & a & -> & -> & ->).
      { intros s' [_ Hth]. rewrite Hq in Hth; [done|lia]. }
      eexists (Some a), _. rewrite Hend in *.
      assert (Hvec' : vec_at
        (State (<[a := cells_of cap (xs ++ [x])]> (heap s))
               (<[this := {| data_ := {| buffer_ := Some a; capacity_ := cap |};
                             size_ := S (length xs) |}]> (vecs s))
               (S (ticks s)) (log s ++ [ECtor k x]))
        this (Some a) cap (xs ++ [x])).
      { unfold vec_at. simpl. rewrite !lookup_insert_eq, length_app. simpl.
        split; [do 2 f_equal; lia|]. split; [lia|done]. }
      destruct (Hfin (Some a) cap _ Hrun Hvec') as (?&?&?&?&?&?).
      split_and!; done.
  - (* before the end *)
    assert (Hlt : i < length xs) by lia.
    destruct (vec_at_buf_Some _ _ _ _ _ Hvec) as (a & ->); [lia|].
    pose proof (take_drop i xs) as Hxs.
    remember (take i xs) as ys eqn:Eys. remember (drop i xs) as zs eqn:Ezs.
    assert (Hys : length ys = i) by (subst ys; rewrite length_take; lia).
    assert (Hzs : zs <> []).
    { intros ->. rewrite app_nil_r in Hxs. subst xs. lia. }
    destruct (decide (length xs = cap)) as [Hc|Hc].
    + subst cap. rewrite <- Hxs in Hvec.
      destruct (sat_quiet _ _ _ _ (Emplace_full_sat this a ys zs k x s Hvec Hzs
                  (quiet_moves_safe _ Hq))) as (p & s' & Hrun & b & Hb & -> & ->).
      { intros s' (_ & _ & Hth). by eapply quiet_not_threw. }
      rewrite Hys in Hrun. exists (Some b), (emplaced this a ys zs k x b s).
      pose proof (emplaced_vec_at this a ys zs k x b s) as Hvec'.
      rewrite Hxs in Hvec'.
      destruct (Hfin (Some b) (grown (length xs)) _ Hrun Hvec') as (?&?&?&?&?&?).
      split_and!; try done; lia.
    + destruct (snoc_decompose zs Hzs) as (ms & z & ->).
      rewrite <- Hxs in Hvec.
      assert (Hroom : length (ys ++ ms ++ [z]) < cap) by (rewrite Hxs; lia).
      pose proof (Emplace_room_eq this a cap ys ms z k x s Hvec Hroom Hq) as Hrun.
      rewrite Hys in Hrun.
      exists (Some a), (emplaced_in_place this a cap ys ms z k x s).
      destruct (Hfin (Some a) cap _ Hrun
                  (emplaced_in_place_vec_at this a cap ys ms z k x s Hroom))
        as (?&?&?&?&?&?).
      split_and!; try done; lia.
Qed.

End insertion.

Section exceptions.

Context {T : Type} {E : Element T}.

Implicit Types (h : gmap nat (list (option T))) (v : gmap nat Vector).
Implicit Types (t : nat) (l : list (@event T)) (s : @state T).
Implicit Types (pre post spre spost cells rest : list (option T)).
Implicit Types (xs ys zs ms olds : list T).
Implicit Types (evs : list (@event T)) (x y z w : T) (o : Vector).

(** C3: every reallocation path relocates with the constructor kind
    [reloc_kind], which is a move when the move constructor of [T] is
    declared non-raising or [T] has no copy constructor, and a copy
    otherwise.  When nothing fails, [Reserve], [EmplaceBack] on a full
    vector and [Emplace] inside a full vector record exactly these
    constructions for the old elements, and the elements of the new
    buffer are the same whichever kind was used.  For [Reserve] this
    holds of every run that returns, whatever the capacity asked for;
    and it does return, into a buffer of that capacity, when as many
    objects take no more bytes than a [size_t] can count. *)
Theorem relocation_strategy this buf cap xs s :
  vec_at s this buf cap xs -> quiet_from (ticks s) ->
  reloc_kind = (if nothrow_move || negb copyable then OpMove else OpCopy)
  /\ (forall n, cap < n ->
      (forall s', Reserve this n s = (Ret tt, s') ->
         exists b, heap s !! b = None
           /\ vecs s' !! this
              = Some {| data_ := {| buffer_ := Some b; capacity_ := n |};
                        size_ := length xs |}
           /\ heap s' !! b = Some (cells_of (cells_for Requested n) xs)
           /\ log s' = log s ++ [EAlloc b n] ++ (ECtor reloc_kind <$> xs)
                       ++ (EDtor <$> (left_behind <$> xs)) ++ freed buf)
      /\ (representable n ->
          exists b s', Reserve this n s = (Ret tt, s')
            /\ vec_at s' this (Some b) n xs))
  /\ (length xs = cap -> forall k x,
      exists b s', EmplaceBack this k x s = (Ret (Ptr (Some b) (length xs)), s')
        /\ vec_at s' this (Some b) (grown cap) (xs ++ [x])
        /\ log s' = log s ++ [EAlloc b (grown cap); ECtor k x]
                    ++ (ECtor reloc_kind <$> xs)
                    ++ (EDtor <$> (left_behind <$> xs)) ++ freed buf)
  /\ (length xs = cap -> forall i k x, i < length xs ->
      exists b s', Emplace this (Ptr buf i) k x s = (Ret (Ptr (Some b) i), s')
        /\ vec_at s' this (Some b) (grown cap) (take i xs ++ x :: drop i xs)
        /\ log s' = log s ++ [EAlloc b (grown cap); ECtor k x]
                    ++ (ECtor reloc_kind <$> take i xs)
                    ++ (ECtor reloc_kind <$> drop i xs)
                    ++ (EDtor <$> (left_behind <$> xs)) ++ freed buf).
Proof.
  intros Hvec Hq. pose proof (quiet_moves_safe _ Hq) as Hmv.
  split; [done|]. split; [|split].
  - intros n Hn. split.
    + intros s' Hrun.
      destruct (psat_Ret_inv _ _ _ _ _ _ (Reserve_psat this buf cap xs n s Hvec Hn Hmv)
                  Hrun) as (_ & b & Hb & ->).
      exists b. unfold relocated. simpl. by rewrite !lookup_insert_eq.
    + intros Hrep.
      destruct (sat_quiet _ _ _ _ (Reserve_sat this buf cap xs n s Hvec Hn Hrep Hmv))
        as ([] & s' & Hrun & b & Hb & ->).
      { intros s' Hrb. by eapply quiet_not_rolled_back. }
      exists b, (reserved this buf xs n b s). split; [done|].
      by eapply reserved_vec_at.
  - intros <- k x.
    destruct (sat_quiet _ _ _ _ (EmplaceBack_full_sat this buf xs k x s Hvec Hmv))
      as (p & s' & Hrun & b & Hb & -> & ->).
    { intros s' (_ & _ & Hth). by eapply quiet_not_threw. }
    exists b, (emplaced_back this buf xs k x b s). split; [done|].
    split; [apply emplaced_back_vec_at|done].
  - intros <- i k x Hi.
    destruct (vec_at_buf_Some _ _ _ _ _ Hvec) as (a & ->); [lia|].
    pose proof (take_drop i xs) as Hxs.
    remember (take i xs) as ys eqn:Eys. remember (drop i xs) as zs eqn:Ezs.
    assert (Hys : length ys = i) by (subst ys; rewrite length_take; lia).
    assert (Hzs : zs <> []).
    { intros ->. rewrite app_nil_r in Hxs. subst xs. lia. }
    rewrite <- Hxs in Hvec.
    destruct (sat_quiet _ _ _ _ (Emplace_full_sat this a ys zs k x s Hvec Hzs Hmv))
      as (p & s' & Hrun & b & Hb & -> & ->).
    { intros s' (_ & _ & Hth). by eapply quiet_not_threw. }
    rewrite Hys in Hrun. exists b, (emplaced this a ys zs k x b s).
    split; [exact Hrun|]. pose proof (emplaced_vec_at this a ys zs k x b s) as Hvec'.
    rewrite Hxs in Hvec'. split; [exact Hvec'|].
    unfold emplaced. simpl. by rewrite Hxs.
Qed.

(** A type with a copy constructor, or with a move constructor declared
    non-raising, never sees a relocation by a raising move. *)
Lemma typed_moves_safe t :
  copyable = true \/ nothrow_move = true -> moves_safe_from t.
Proof.
  intros Hty Hm j _. apply nothrow_move_sound.
  unfold relocate_by_move in Hm. destruct Hty as [Hc| ->]; [|done].
  rewrite Hc in Hm. simpl in Hm. by rewrite orb_false_r in Hm.
Qed.

Lemma rolled_back_leak_free s s' :
  rolled_back s s' ->
  heap s' = heap s /\ vecs s' = vecs s
  /\ exists evs, log s' = log s ++ evs /\ leak_free evs.
Proof. by intros (? & ? & _ & ?). Qed.

(** C1, amended: let [T] have a copy constructor or a move constructor
    declared non-raising, and let a call fail with an exception.
    - In the copy constructor and in [Reserve], heap and objects are
      then exactly as before the call, and every region released on the
      way was released with no live object in it.
    - In a growing [Resize], no region was released with a live object
      in it, and the vector keeps its size and its elements.  If the
      failure came before the [Reserve] step completed, or no such step
      was needed, the vector keeps its buffer and its capacity, and heap
      and objects are exactly as before the call.  Otherwise [Reserve]
      had returned, and the vector holds its elements in the new block,
      with the capacity [n] it was asked for.
    - In [EmplaceBack] and [Emplace] on a full vector, heap and objects
      are exactly as before the call. *)
Theorem failure_preserves_original this buf cap xs s :
  copyable = true \/ nothrow_move = true ->
  vec_at s this buf cap xs ->
  (forall new s', Vector_ctor_copy new this s = (Throw, s') ->
     heap s' = heap s /\ vecs s' = vecs s
     /\ exists evs, log s' = log s ++ evs /\ leak_free evs)
  /\ (forall n s', Reserve this n s = (Throw, s') ->
     heap s' = heap s /\ vecs s' = vecs s
     /\ exists evs, log s' = log s ++ evs /\ leak_free evs)
  /\ (forall n s', Resize this n s = (Throw, s') ->
     (exists evs, log s' = log s ++ evs /\ leak_free evs)
     /\ (((n <= cap \/ exists s1, Reserve this n s = (Throw, s1))
          /\ vec_at s' this buf cap xs /\ heap s' = heap s /\ vecs s' = vecs s)
         \/ (cap < n /\ (exists s1, Reserve this n s = (Ret tt, s1))
             /\ exists b, heap s !! b = None
                  /\ vecs s' !! this
                     = Some {| data_ := {| buffer_ := Some b; capacity_ := n |};
                               size_ := length xs |}
                  /\ heap s' !! b = Some (cells_of (cells_for Requested n) xs)
                  /\ (representable n -> vec_at s' this (Some b) n xs))))
  /\ (forall k x s', length xs = cap -> EmplaceBack this k x s = (Throw, s') ->
     heap s' = heap s /\ vecs s' = vecs s)
  /\ (forall i k x s', length xs = cap -> i <= length xs ->
     Emplace this (Ptr buf i) k x s = (Throw, s') ->
     heap s' = heap s /\ vecs s' = vecs s).
Proof.
  intros Hty Hvec. pose proof (typed_moves_safe (ticks s) Hty) as Hmv.
  pose proof Hvec as (Hv & Hle & Hbuf). split_and!.
  - intros new s' Hrun. destruct xs as [|x xs'] eqn:Exs.
    + by rewrite (Vector_ctor_copy_nil new this buf cap s Hvec) in Hrun.
    + destruct (vec_at_buf_Some _ _ _ _ _ Hvec) as (a & ->); [simpl in Hle; lia|].
      apply rolled_back_leak_free.
      eapply sat_Throw_inv; [|exact Hrun].
      by eapply (Vector_ctor_copy_sat new this a cap (x :: xs') s).
  - intros n s' Hrun. destruct (decide (n <= cap)) as [Hn|Hn].
    + assert (Hnop : Reserve this n s = (Ret tt, s)).
      { destruct s as [h v t l]. destruct Hvec as (Hv0 & _). simpl in Hv0.
        unfold Reserve. erewrite bind_Ret; [|by apply get_data_eq].
        unfold RawMemory_Capacity. simpl. by rewrite decide_True. }
      by rewrite Hnop in Hrun.
    + apply rolled_back_leak_free.
      eapply psat_Throw_inv; [|exact Hrun].
      eapply Reserve_psat; [exact Hvec|lia|exact Hmv].
  - intros n s' Hrun. destruct (decide (length xs < n)) as [Hn|Hn].
    + destruct (Resize_grow_throw this buf cap xs n s s' Hvec Hn Hmv Hrun)
        as (Hevs & _ & [(Hpre & Hh & Hvs)|(Hc & Hres & b & Hb & Hv' & Hb' & Hfit)]).
      * split; [done|]. left. split_and!; try done. by eapply vec_at_same.
      * split; [done|]. right. split_and!; try done.
        exists b. split_and!; try done.
        intros Hrep. rewrite cells_for_Requested in Hb' by done.
        unfold vec_at. split_and!; [done|lia|done].
    + destruct (decide (n = length xs)) as [->|Hne].
      * by rewrite (Resize_same_eq this buf cap xs s Hvec) in Hrun.
      * destruct (Resize_shrink_eq this buf cap xs n s Hvec) as (a & _ & Heq); [lia|].
        by rewrite Heq in Hrun.
  - intros k x s' <- Hrun.
    pose proof (sat_Throw_inv _ _ _ _ _
      (EmplaceBack_full_sat this buf xs k x s Hvec Hmv) Hrun) as (? & ? & _).
    done.
  - intros i k x s' <- Hi Hrun. destruct (decide (i = length xs)) as [->|Hne].
    + assert (Hend : Emplace this (Ptr buf (length xs)) k x s = EmplaceBack this k x s).
      { destruct s as [h v t l]. apply (Emplace_end_eq this _ k x _ Hv). }
      rewrite Hend in Hrun.
      pose proof (sat_Throw_inv _ _ _ _ _
        (EmplaceBack_full_sat this buf xs k x s Hvec Hmv) Hrun) as (? & ? & _).
      done.
    + destruct (vec_at_buf_Some _ _ _ _ _ Hvec) as (a & ->); [lia|].
      pose proof (take_drop i xs) as Hxs.
      remember (take i xs) as ys eqn:Eys. remember (drop i xs) as zs eqn:Ezs.
      assert (Hys : length ys = i) by (subst ys; rewrite length_take; lia).
      assert (Hzs : zs <> []).
      { intros ->. rewrite app_nil_r in Hxs. subst xs. lia. }
      rewrite <- Hxs in Hvec. rewrite <- Hys in Hrun.
      pose proof (sat_Throw_inv _ _ _ _ _
        (Emplace_full_sat this a ys zs k x s Hvec Hzs Hmv) Hrun) as (? & ? & _).
      done.
Qed.

(** Move assignment onto a vector with live elements releases its old
    buffer with all of them still alive. *)
Lemma Vector_move_assign_leak this rhs a cap xs o s :
  this <> rhs ->
  vec_at s this (Some a) cap xs -> vecs s !! rhs = Some o ->
  Vector_move_assign this rhs s
  = (Ret tt,
     State (delete a (heap s))
           (<[rhs := {| data_ := RawMemory_default; size_ := 0 |}]>
              (<[this := o]> (vecs s)))
           (ticks s) (log s ++ [EFree a xs])).
Proof.
  destruct s as [h v t l]. intros Hne (Hv & Hle & Hbuf) Ho. simpl in *.
  unfold Vector_move_assign, RawMemory_move_assign.
  erewrite bind_Ret.
  2:{ erewrite bind_Ret; [|by apply get_data_eq].
      erewrite bind_Ret; [|by apply set_data_eq].
      erewrite bind_Ret; [|apply get_data_eq; by rewrite lookup_insert_ne].
      erewrite bind_Ret; [|apply set_data_eq; by rewrite lookup_insert_ne].
      simpl. by apply Deallocate_eq. }
  erewrite bind_Ret; [|apply get_size_eq; rewrite lookup_insert_ne by done;
                        by rewrite lookup_insert_eq].
  erewrite bind_Ret; [|apply set_size_eq; by rewrite lookup_insert_eq].
  erewrite set_size_eq; [|rewrite lookup_insert_ne by done;
                          rewrite lookup_insert_ne by done;
                          by rewrite lookup_insert_eq].
  simpl. rewrite omap_id_cells_of, Vector_eta. do 2 f_equal.
  apply map_eq. intros i.
  destruct (decide (i = rhs)) as [->|Hi]; [by rewrite !lookup_insert_eq|].
  rewrite !(lookup_insert_ne _ rhs) by done.
  destruct (decide (i = this)) as [->|Hi']; [by rewrite !lookup_insert_eq|].
  by rewrite !lookup_insert_ne.
Qed.

End exceptions.

(** * Construction, destruction and transfer of ownership *)

Section lifetime.

Context {T : Type} {E : Element T}.

Implicit Types (h : gmap nat (list (option T))) (v : gmap nat Vector).
Implicit Types (t : nat) (l : list (@event T)) (s : @state T).
Implicit Types (pre post spre spost cells rest : list (option T)).
Implicit Types (xs ys zs ms olds : list T).
Implicit Types (evs : list (@event T)) (x y z w : T) (o : Vector).

Lemma Vector_ctor_size_sat this n s :
  n <> 0 -> representable n ->
  sat (Vector_ctor_size this n) s
    (fun _ s' => exists b, heap s !! b = None /\
       s' = State (<[b := replicate n (Some dflt)]> (heap s))
                  (<[this := {| data_ := {| buffer_ := Some b; capacity_ := n |};
                                size_ := n |}]> (vecs s))
                  (S (ticks s + n))
                  (log s ++ [EAlloc b n] ++ replicate n (ECtor OpDefault dflt)))
    (fun s' => rolled_back s s').
Proof.
  destruct s as [h v t l]. intros Hn Hrep. simpl. unfold Vector_ctor_size.
  apply sat_bind, sat_RawMemory_ctor_requested; [done|done| |].
  2:{ intros Hth. eapply rolled_back_nil; [|exact Hth]. lia. }
  intros _ b Hb. apply sat_bind, sat_on_unwind. unfold GetAddress. simpl.
  eapply (sat_uninitialized_value_construct_n b 0 n [] []).
  - rewrite lookup_insert_eq. by rewrite app_nil_r.
  - done.
  - eapply sat_eq; [done|]. simpl. exists b. split; [done|].
    rewrite insert_insert_eq, app_nil_r, <- app_assoc. f_equal; lia.
  - intros k Hk Hth. eapply sat_eq.
    { apply Deallocate_eq. by rewrite lookup_insert_eq. }
    rewrite delete_insert_id by done. rewrite omap_id_replicate_None.
    rewrite <- !app_assoc. eapply (rolled_back_intro _ _ _ _ _ _ OpDefault (S t + k)).
    + lia.
    + exact Hth.
    + leak_free_tac.
Qed.

(** [Vector(size)] for any size: if it raises, heap and objects are as
    before. *)
Lemma Vector_ctor_size_psat this n s :
  n <> 0 ->
  psat (Vector_ctor_size this n) s (fun _ _ => True) (fun s' => rolled_back s s').
Proof.
  destruct s as [h v t l]. intros Hn. simpl. unfold Vector_ctor_size, RawMemory_ctor.
  apply psat_bind, sat_psat, sat_RawMemory_ctor_from; [done| |].
  2:{ intros Hth. eapply rolled_back_nil; [|exact Hth]. lia. }
  intros _ b Hb. apply psat_bind, psat_on_unwind. unfold GetAddress. simpl.
  eapply (psat_uninitialized_value_construct_n b 0 n (cells_for Requested n) []).
  - by rewrite lookup_insert_eq.
  - done.
  - intros _. by apply sat_psat.
  - intros k Hk _ Hth. apply sat_psat. eapply sat_eq.
    { apply Deallocate_eq. by rewrite lookup_insert_eq. }
    rewrite delete_insert_id by done. rewrite omap_id_replicate_None.
    rewrite <- !app_assoc. eapply (rolled_back_intro _ _ _ _ _ _ OpDefault (S t + k)).
    + lia.
    + exact Hth.
    + leak_free_tac.
Qed.

(** X1: [Vector(size)].  For [size = 0] nothing is allocated and the
    vector has no buffer.  For [size > 0], as many objects taking no
    more bytes than a [size_t] can count, and no failure, the vector
    holds [size] default values in a buffer of capacity [size] that was
    not in use.  When the allocation or a default constructor raises,
    for whatever size, heap and objects are as before and every region
    released on the way was released empty. *)
Theorem Vector_ctor_size_spec this n s :
  (n = 0 ->
     Vector_ctor_size this n s
     = (Ret tt, State (heap s)
                      (<[this := {| data_ := RawMemory_default; size_ := 0 |}]> (vecs s))
                      (ticks s) (log s)))
  /\ (0 < n -> representable n -> quiet_from (ticks s) ->
      exists b s', Vector_ctor_size this n s = (Ret tt, s')
        /\ heap s !! b = None
        /\ vec_at s' this (Some b) n (replicate n dflt)
        /\ log s' = log s ++ [EAlloc b n] ++ replicate n (ECtor OpDefault dflt))
  /\ (forall s', Vector_ctor_size this n s = (Throw, s') ->
      heap s' = heap s /\ vecs s' = vecs s
      /\ exists evs, log s' = log s ++ evs /\ leak_free evs).
Proof.
  split_and!.
  - intros ->. by destruct s.
  - intros Hn Hrep Hq.
    destruct (sat_quiet _ _ _ _ (Vector_ctor_size_sat this n s ltac:(lia) Hrep))
      as ([] & s' & Hrun & b & Hb & ->).
    { intros s' Hrb. by eapply quiet_not_rolled_back. }
    eexists b, _. split; [exact Hrun|]. split; [done|]. split; [|done].
    unfold vec_at. simpl. rewrite !lookup_insert_eq, length_replicate.
    split_and!; [done|lia|]. unfold cells_of.
    by rewrite length_replicate, Nat.sub_diag, app_nil_r, fmap_replicate.
  - intros s' Hrun. destruct (decide (n = 0)) as [->|Hn].
    + by destruct s.
    + apply rolled_back_leak_free. eapply psat_Throw_inv; [|exact Hrun].
      by apply Vector_ctor_size_psat.
Qed.

(** X2: the copy constructor, when nothing fails, gives the new vector
    the elements of the source in a buffer of its own whose capacity
    is the size (not the capacity) of the source; the source is as
    before.  Copying an empty vector allocates nothing. *)
Theorem Vector_ctor_copy_spec this other obuf ocap xs s :
  vec_at s other obuf ocap xs -> this <> other -> quiet_from (ticks s) ->
  exists buf' s',
    Vector_ctor_copy this other s = (Ret tt, s')
    /\ vec_at s' this buf' (length xs) xs
    /\ vec_at s' other obuf ocap xs
    /\ (forall b, buf' = Some b -> heap s !! b = None)
    /\ (xs = [] -> buf' = None /\ heap s' = heap s /\ log s' = log s).
Proof.
  intros Hvec Hne Hq. pose proof Hvec as (Hv & Hle & Hbuf).
  destruct xs as [|x xs'] eqn:Exs.
  - exists None. eexists. split; [by eapply Vector_ctor_copy_nil|].
    unfold vec_at. simpl. rewrite lookup_insert_eq, lookup_insert_ne by done.
    split_and!; done.
  - rewrite <- Exs in *.
    destruct (vec_at_buf_Some _ _ _ _ _ Hvec) as (a & ->).
    { subst xs. simpl in Hle. lia. }
    destruct (sat_quiet _ _ _ _ (Vector_ctor_copy_sat this other a ocap xs s Hvec
                ltac:(by subst xs))) as ([] & s' & Hrun & b & Hb & ->).
    { intros s' Hrb. by eapply quiet_not_rolled_back. }
    exists (Some b). eexists. split; [exact Hrun|].
    assert (a <> b) by (intros ->; simpl in *; congruence).
    unfold vec_at. simpl.
    rewrite !lookup_insert_eq, !lookup_insert_ne, cells_of_full by done.
    split_and!; try done.
    + by intros b' [= <-].
    + intros ->. by subst.
Qed.

(** X3: the move constructor hands buffer, capacity and elements of
    the source to the new vector and leaves the source without buffer
    and without elements; nothing is allocated, constructed or
    destroyed. *)
Theorem Vector_ctor_move_spec this other obuf ocap xs s :
  vec_at s other obuf ocap xs -> this <> other ->
  exists s',
    Vector_ctor_move this other s = (Ret tt, s')
    /\ vec_at s' this obuf ocap xs
    /\ vec_at s' other None 0 []
    /\ heap s' = heap s /\ ticks s' = ticks s /\ log s' = log s.
Proof.
  destruct s as [h v t l]. intros (Hv & Hle & Hbuf) Hne. simpl in *.
  eexists. split.
  { unfold Vector_ctor_move, Vector_ctor_default.
    erewrite bind_Ret; [|done].
    apply Swap_eq; [done|by rewrite lookup_insert_eq|by rewrite lookup_insert_ne]. }
  unfold vec_at. simpl.
  rewrite lookup_insert_eq, lookup_insert_ne, lookup_insert_eq by done.
  split_and!; done.
Qed.

(** X4: [Swap] exchanges the two vectors, touching neither heap nor
    elements, and swapping again restores the state; swapping a vector
    with itself changes nothing. *)
Theorem Swap_spec this other o o' s :
  vecs s !! this = Some o -> vecs s !! other = Some o' ->
  exists s',
    Swap this other s = (Ret tt, s')
    /\ vecs s' !! this = Some o' /\ vecs s' !! other = Some o
    /\ heap s' = heap s /\ ticks s' = ticks s /\ log s' = log s
    /\ Swap this other s' = (Ret tt, s)
    /\ (this = other -> s' = s).
Proof.
  destruct s as [h v t l]. simpl. intros Ho Ho'.
  destruct (decide (this = other)) as [->|Hne].
  - rewrite Ho in Ho'. injection Ho' as <-.
    assert (Hself : Swap other other (State h v t l) = (Ret tt, State h v t l)).
    { unfold Swap.
      erewrite bind_Ret; [|by apply get_data_eq].
      erewrite bind_Ret; [|by apply get_data_eq].
      erewrite bind_Ret; [|by apply set_data_eq].
      rewrite Vector_eta, (insert_id v other o) by done.
      erewrite bind_Ret; [|by apply set_data_eq].
      rewrite Vector_eta, (insert_id v other o) by done.
      erewrite bind_Ret; [|by apply get_size_eq].
      erewrite bind_Ret; [|by apply get_size_eq].
      erewrite bind_Ret; [|by apply set_size_eq].
      rewrite Vector_eta, (insert_id v other o) by done.
      erewrite set_size_eq; [|done].
      by rewrite Vector_eta, (insert_id v other o). }
    exists (State h v t l). by split_and!.
  - eexists. split; [by apply Swap_eq|]. simpl.
    rewrite lookup_insert_eq, lookup_insert_ne, lookup_insert_eq by done.
    split_and!; try done.
    erewrite Swap_eq;
      [|done|by rewrite lookup_insert_ne, lookup_insert_eq
       |by rewrite lookup_insert_eq].
    do 2 f_equal. apply map_eq. intros i.
    destruct (decide (i = other)) as [->|Hi]; [by rewrite lookup_insert_eq|].
    rewrite lookup_insert_ne by done.
    destruct (decide (i = this)) as [->|Hi']; [by rewrite lookup_insert_eq|].
    by rewrite !lookup_insert_ne.
Qed.

Lemma Vector_dtor_run this buf cap xs s :
  vec_at s this buf cap xs ->
  Vector_dtor this s
  = (Ret tt, State (unplug buf (heap s)) (delete this (vecs s)) (ticks s)
                   (log s ++ (EDtor <$> xs) ++ freed buf)).
Proof.
  destruct s as [h v t l]. intros Hvec. pose proof Hvec as (Hv & Hle & Hbuf).
  simpl in *. destruct buf as [a|].
  - by apply (Vector_dtor_eq this a cap xs).
  - destruct (vec_at_null_nil _ _ _ _ Hvec) as [-> ->]. simpl.
    rewrite app_nil_r. by apply Vector_dtor_null.
Qed.

(** X5: the destructor destroys every element, in index order, before
    it releases the buffer, removes exactly that buffer from the heap,
    and cannot fail.  For a vector without buffer it records no event
    at all, so that default construction followed by destruction leaves
    the state as it was. *)
Theorem Vector_dtor_spec this buf cap xs s :
  vec_at s this buf cap xs ->
  exists s',
    Vector_dtor this s = (Ret tt, s')
    /\ heap s' = unplug buf (heap s)
    /\ vecs s' = delete this (vecs s)
    /\ log s' = log s ++ (EDtor <$> xs) ++ freed buf
    /\ leak_free ((EDtor <$> xs) ++ freed buf)
    /\ (buf = None -> log s' = log s /\ heap s' = heap s)
    /\ (forall new, vecs s !! new = None ->
        (Vector_ctor_default new ;; Vector_dtor new) s = (Ret tt, s)).
Proof.
  intros Hvec. eexists. split; [by eapply Vector_dtor_run|]. simpl.
  split_and!; try done.
  - leak_free_tac.
  - intros ->. destruct (vec_at_null_nil _ _ _ _ Hvec) as [_ ->]. simpl.
    by rewrite app_nil_r.
  - intros new Hnew. destruct s as [h v t l]. simpl in *.
    unfold Vector_ctor_default. erewrite bind_Ret; [|done].
    erewrite Vector_dtor_null; [|by rewrite lookup_insert_eq].
    by rewrite delete_insert_id.
Qed.

(** X6: copy construction followed by destruction of the copy leaves
    heap and objects as they were, having released the buffer of the
    copy only after destroying all the copies. *)
Theorem copy_then_destroy this other obuf ocap xs s :
  vec_at s other obuf ocap xs -> vecs s !! this = None ->
  quiet_from (ticks s) ->
  exists s',
    (Vector_ctor_copy this other ;; Vector_dtor this) s = (Ret tt, s')
    /\ heap s' = heap s /\ vecs s' = vecs s
    /\ exists evs, log s' = log s ++ evs /\ leak_free evs.
Proof.
  intros Hvec Hnew Hq. pose proof Hvec as (Hv & Hle & Hbuf).
  assert (Hne : this <> other) by (intros ->; congruence).
  destruct xs as [|x xs'] eqn:Exs.
  - eexists. split.
    { erewrite bind_Ret; [|by eapply Vector_ctor_copy_nil].
      apply Vector_dtor_null. simpl. by rewrite lookup_insert_eq. }
    simpl. rewrite delete_insert_id by done. split_and!; try done.
    exists []. rewrite app_nil_r. split; [done|constructor].
  - rewrite <- Exs in *.
    destruct (vec_at_buf_Some _ _ _ _ _ Hvec) as (a & ->).
    { subst xs. simpl in Hle. lia. }
    destruct (sat_quiet _ _ _ _ (Vector_ctor_copy_sat this other a ocap xs s Hvec
                ltac:(by subst xs))) as ([] & s' & Hrun & b & Hb & ->).
    { intros s' Hrb. by eapply quiet_not_rolled_back. }
    eexists. split.
    { erewrite bind_Ret; [|exact Hrun].
      eapply (Vector_dtor_eq this b (length xs) xs);
        [by rewrite lookup_insert_eq|].
      by rewrite lookup_insert_eq, cells_of_full. }
    simpl. rewrite !delete_insert_id by done. split_and!; try done.
    eexists. rewrite <- !app_assoc. split; [done|]. leak_free_tac.
Qed.

(** X7: move assignment between two distinct vectors with distinct
    buffers never fails; the target takes over buffer, capacity and
    elements of the source, the source is left without buffer and
    without elements, and the old buffer of the target is released with
    whatever elements the target held, none of them destroyed. *)
Theorem Vector_move_assign_spec this rhs buf cap xs rbuf rcap ys s :
  this <> rhs ->
  vec_at s this buf cap xs -> vec_at s rhs rbuf rcap ys ->
  (forall a, buf = Some a -> rbuf <> Some a) ->
  exists s',
    Vector_move_assign this rhs s = (Ret tt, s')
    /\ vec_at s' this rbuf rcap ys
    /\ vec_at s' rhs None 0 []
    /\ heap s' = unplug buf (heap s)
    /\ log s' = log s ++ abandoned buf xs
    /\ (xs = [] -> leak_free (abandoned buf xs)).
Proof.
  intros Hne Hthis Hrhs Hdisj.
  pose proof Hthis as (Hv & Hle & Hbuf). pose proof Hrhs as (Hrv & Hrle & Hrbuf).
  assert (Hfin : forall h',
    (forall r, rbuf = Some r -> h' !! r = heap s !! r) ->
    vec_at (State h' (<[rhs := {| data_ := RawMemory_default; size_ := 0 |}]>
                        (<[this := {| data_ := {| buffer_ := rbuf; capacity_ := rcap |};
                                      size_ := length ys |}]> (vecs s)))
                  (ticks s) (log s ++ abandoned buf xs)) this rbuf rcap ys
    /\ vec_at (State h' (<[rhs := {| data_ := RawMemory_default; size_ := 0 |}]>
                        (<[this := {| data_ := {| buffer_ := rbuf; capacity_ := rcap |};
                                      size_ := length ys |}]> (vecs s)))
                  (ticks s) (log s ++ abandoned buf xs)) rhs None 0 []).
  { intros h' Hh'. unfold vec_at. simpl.
    rewrite lookup_insert_eq, lookup_insert_ne, lookup_insert_eq by done.
    split_and!; try done. destruct rbuf as [r|]; [|done]. by rewrite Hh'. }
  destruct buf as [a|].
  - eexists. split; [by eapply Vector_move_assign_leak|].
    destruct (Hfin (delete a (heap s))) as [H1 H2].
    { intros r ->. apply lookup_delete_ne. intros ->. by eapply Hdisj. }
    split_and!; try done. intros ->. simpl. leak_free_tac.
  - destruct (vec_at_null_nil _ _ _ _ Hthis) as [-> ->].
    destruct s as [h v t l]. simpl in *. eexists. split.
    { unfold Vector_move_assign, RawMemory_move_assign.
      erewrite bind_Ret.
      2:{ erewrite bind_Ret; [|by apply get_data_eq].
          erewrite bind_Ret; [|by apply set_data_eq].
          erewrite bind_Ret; [|apply get_data_eq; by rewrite lookup_insert_ne].
          erewrite bind_Ret; [|apply set_data_eq; by rewrite lookup_insert_ne].
          simpl. apply Deallocate_null. }
      erewrite bind_Ret; [|apply get_size_eq; rewrite lookup_insert_ne by done;
                            by rewrite lookup_insert_eq].
      erewrite bind_Ret; [|apply set_size_eq; by rewrite lookup_insert_eq].
      erewrite set_size_eq; [|rewrite lookup_insert_ne by done;
                              rewrite lookup_insert_ne by done;
                              by rewrite lookup_insert_eq].
      simpl. reflexivity. }
    simpl. rewrite app_nil_r.
    destruct (Hfin h) as [H1 H2]; [done|]. simpl in H1, H2. rewrite app_nil_r in H1, H2.
    match goal with
    | |- vec_at (State _ ?m _ _) _ _ _ _ /\ _ =>
        replace m with
          (<[rhs := {| data_ := RawMemory_default; size_ := 0 |}]>
             (<[this := {| data_ := {| buffer_ := rbuf; capacity_ := rcap |};
                           size_ := length ys |}]> v))
    end.
    { split_and!; try done. intros _. leak_free_tac. }
    apply map_eq. intros i.
    destruct (decide (i = rhs)) as [->|Hi]; [by rewrite !lookup_insert_eq|].
    rewrite !(lookup_insert_ne _ rhs) by done.
    destruct (decide (i = this)) as [->|Hi']; [by rewrite !lookup_insert_eq|].
    by rewrite !lookup_insert_ne.
Qed.

End lifetime.

(** * Appending: room, growth and cost *)

Section appending.

Context {T : Type} {E : Element T}.

Implicit Types (h : gmap nat (list (option T))) (v : gmap nat Vector).
Implicit Types (t : nat) (l : list (@event T)) (s : @state T).
Implicit Types (pre post spre spost cells rest : list (option T)).
Implicit Types (xs ys zs ms olds : list T).
Implicit Types (evs : list (@event T)) (x y z w : T) (o : Vector).

Lemma tally_app (f : @event T -> bool) evs evs' :
  tally f (evs ++ evs') = tally f evs + tally f evs'.
Proof. induction evs as [|e evs IH]; [done|]. simpl. rewrite IH. lia. Qed.

Lemma tally_ctor_ctor k xs : tally is_ctor (ECtor k <$> xs) = length xs.
Proof. induction xs as [|x xs IH]; [done|]. simpl. f_equal. exact IH. Qed.

Lemma tally_ctor_dtor xs : tally is_ctor (EDtor <$> xs) = 0.
Proof. by induction xs. Qed.

Lemma tally_ctor_freed buf : tally (@is_ctor T) (freed buf) = 0.
Proof. by destruct buf. Qed.

Lemma tally_alloc_ctor k xs : tally is_alloc (ECtor k <$> xs) = 0.
Proof. by induction xs. Qed.

Lemma tally_alloc_dtor xs : tally is_alloc (EDtor <$> xs) = 0.
Proof. by induction xs. Qed.

Lemma tally_alloc_freed buf : tally (@is_alloc T) (freed buf) = 0.
Proof. by destruct buf. Qed.

Lemma room_vec_at this a cap xs x h v t l :
  length xs < cap ->
  vec_at (State (<[a := cells_of cap (xs ++ [x])]> h)
                (<[this := {| data_ := {| buffer_ := Some a; capacity_ := cap |};
                              size_ := S (length xs) |}]> v)
                t l)
         this (Some a) cap (xs ++ [x]).
Proof.
  intros Hlt. unfold vec_at. simpl. rewrite !lookup_insert_eq, length_app. simpl.
  split; [do 2 f_equal; lia|]. split; [lia|done].
Qed.

Lemma bind_Throw {A B} (m : M (@state T) A) (k : A -> M state B) s s' :
  m s = (Throw, s') -> bind m k s = (Throw, s').
Proof. unfold bind. by intros ->. Qed.

Lemma EmplaceBack_room_throw this buf cap xs k x s :
  vec_at s this buf cap xs -> length xs < cap -> throws k (ticks s) = true ->
  EmplaceBack this k x s = (Throw, State (heap s) (vecs s) (S (ticks s)) (log s)).
Proof.
  destruct s as [h v t l]. intros (Hv & Hle & Hbuf) Hlt Hth. simpl in *.
  unfold EmplaceBack.
  erewrite bind_Ret; [|by apply get_size_eq].
  erewrite bind_Ret; [|by apply Capacity_eq]. simpl.
  rewrite decide_False by lia.
  erewrite bind_Throw; [done|].
  erewrite bind_Ret; [|by apply end_eq].
  erewrite bind_Throw; [done|].
  unfold construct_at. erewrite bind_Throw; [done|].
  unfold fallible. simpl. by rewrite Hth.
Qed.

(** One [EmplaceBack] when nothing fails: where the vector ends up, and
    what was allocated and constructed on the way. *)
Lemma EmplaceBack_run this buf cap xs k x s :
  vec_at s this buf cap xs -> quiet_from (ticks s) ->
  exists buf' s' evs,
    EmplaceBack this k x s = (Ret (Ptr buf' (length xs)), s')
    /\ vec_at s' this buf' (if decide (length xs = cap) then grown cap else cap)
              (xs ++ [x])
    /\ ticks s <= ticks s'
    /\ log s' = log s ++ evs
    /\ tally is_ctor evs = (if decide (length xs = cap) then S (length xs) else 1)
    /\ tally is_alloc evs = (if decide (length xs = cap) then 1 else 0)
    /\ leak_free evs.
Proof.
  intros Hvec Hq. pose proof Hvec as (Hv & Hle & Hbuf).
  destruct (decide (length xs = cap)) as [Hc|Hc].
  - subst cap.
    destruct (sat_quiet _ _ _ _ (EmplaceBack_full_sat this buf xs k x s Hvec
                (quiet_moves_safe _ Hq))) as (p & s' & Hrun & b & Hb & -> & ->).
    { intros s' (_ & _ & Hth). by eapply quiet_not_threw. }
    exists (Some b). eexists. eexists. split; [exact Hrun|].
    split; [apply emplaced_back_vec_at|]. simpl.
    split; [lia|]. split; [reflexivity|]. split_and!.
    + simpl. rewrite !tally_app, tally_ctor_ctor, tally_ctor_dtor, tally_ctor_freed.
      lia.
    + simpl. by rewrite !tally_app, tally_alloc_ctor, tally_alloc_dtor,
        tally_alloc_freed.
    + simpl. leak_free_tac.
  - destruct (sat_quiet _ _ _ _ (EmplaceBack_room_sat this buf cap xs k x s Hvec
                ltac:(lia))) as (p & s' & Hrun & a & -> & -> & ->).
    { intros s' [_ Hth]. rewrite Hq in Hth; [done|lia]. }
    exists (Some a). eexists. exists [ECtor k x]. split; [exact Hrun|].
    split; [apply room_vec_at; lia|]. simpl.
    split_and!; try done; [lia|leak_free_tac].
Qed.

(** X8: [EmplaceBack] on a vector with spare capacity works in place.
    It allocates nothing and keeps buffer and capacity; the one
    constructor call either succeeds, and then the new element is the
    last one and the reference returned is to it, or raises, and then
    nothing but the count of calls has changed. *)
Theorem EmplaceBack_room_spec this buf cap xs k x s :
  vec_at s this buf cap xs -> length xs < cap ->
  (throws k (ticks s) = false ->
     exists s', EmplaceBack this k x s = (Ret (Ptr buf (length xs)), s')
       /\ vec_at s' this buf cap (xs ++ [x])
       /\ (p <- Vector_index this (length xs) ;; peek p) s' = (Ret x, s')
       /\ ticks s' = S (ticks s)
       /\ log s' = log s ++ [ECtor k x])
  /\ (throws k (ticks s) = true ->
     EmplaceBack this k x s
     = (Throw, State (heap s) (vecs s) (S (ticks s)) (log s))).
Proof.
  intros Hvec Hlt.
  pose proof (EmplaceBack_room_sat this buf cap xs k x s Hvec Hlt) as Hsat.
  unfold sat in Hsat.
  destruct (EmplaceBack this k x s) as [[p| |] s'] eqn:Hrun; [| |done].
  - destruct Hsat as (a & -> & -> & ->). split.
    + intros _. eexists. split; [done|].
      assert (Hvec' := room_vec_at this a cap xs x (heap s) (vecs s)
                         (S (ticks s)) (log s ++ [ECtor k x]) Hlt).
      split; [exact Hvec'|]. split; [|done].
      eapply vec_at_index; [exact Hvec'|].
      by rewrite lookup_app_r, Nat.sub_diag.
    + intros Hth.
      by rewrite (EmplaceBack_room_throw this (Some a) cap xs k x s) in Hrun.
  - destruct Hsat as [-> Hth]. split; [|done].
    intros Hno. by rewrite Hno in Hth.
Qed.

Lemma push_each_fits this buf cap xs ys s :
  vec_at s this buf cap xs -> length xs + length ys <= cap ->
  (forall j, j < length ys -> throws OpCopy (ticks s + j) = false) ->
  exists s',
    push_each this ys s = (Ret tt, s')
    /\ vec_at s' this buf cap (xs ++ ys)
    /\ ticks s' = ticks s + length ys
    /\ log s' = log s ++ (ECtor OpCopy <$> ys).
Proof.
  revert xs s. induction ys as [|y ys IH]; intros xs s Hvec Hfit Hth.
  - exists s. simpl. rewrite !app_nil_r, Nat.add_0_r. done.
  - simpl in Hfit.
    pose proof (EmplaceBack_room_sat this buf cap xs OpCopy y s Hvec ltac:(lia))
      as Hsat.
    unfold sat in Hsat.
    destruct (EmplaceBack this OpCopy y s) as [[p| |] s1] eqn:Hrun; [| |done].
    2:{ destruct Hsat as [_ Hy]. rewrite <- (Nat.add_0_r (ticks s)) in Hy.
        rewrite Hth in Hy; [done|simpl; lia]. }
    destruct Hsat as (a & -> & -> & ->).
    destruct (IH (xs ++ [y]) _
                (room_vec_at this a cap xs y (heap s) (vecs s)
                   (S (ticks s)) (log s ++ [ECtor OpCopy y]) ltac:(lia)))
      as (s' & Hrun' & Hvec' & Ht' & Hl').
    { rewrite length_app. simpl. lia. }
    { intros j Hj. simpl. replace (S (ticks s + j)) with (ticks s + S j) by lia.
      apply Hth. simpl. lia. }
    exists s'. split.
    { simpl. unfold PushBack. unfold bind at 1. unfold bind at 1.
      rewrite Hrun. exact Hrun'. }
    rewrite <- app_assoc in Hvec'. simpl in *.
    split; [done|]. split; [lia|]. by rewrite Hl', <- app_assoc.
Qed.

(** X9: appending, one [PushBack] after the other, elements that fit
    into the spare capacity never reallocates: the buffer and the
    capacity stay, so pointers into the vector stay valid, and the only
    events are the copy constructions of the new elements, in order. *)
Theorem push_each_room this buf cap xs ys s :
  vec_at s this buf cap xs -> length xs + length ys <= cap ->
  (forall j, j < length ys -> throws OpCopy (ticks s + j) = false) ->
  exists s',
    push_each this ys s = (Ret tt, s')
    /\ vec_at s' this buf cap (xs ++ ys)
    /\ begin_ this s' = (Ret (Ptr buf 0), s')
    /\ Capacity this s' = (Ret cap, s')
    /\ Size this s' = (Ret (length xs + length ys), s')
    /\ log s' = log s ++ (ECtor OpCopy <$> ys).
Proof.
  intros Hvec Hfit Hth.
  destruct (push_each_fits this buf cap xs ys s Hvec Hfit Hth)
    as (s' & Hrun & Hvec' & Ht & Hl).
  exists s'. split_and!; try done.
  - destruct s' as [h v t l]. destruct Hvec' as (Hv & _). simpl in Hv.
    erewrite begin_eq by exact Hv. done.
  - by eapply vec_at_Capacity.
  - erewrite vec_at_Size by exact Hvec'. by rewrite length_app.
Qed.

(** X10: when a [PushBack] of such a run raises, the elements appended
    before it are in the vector, which is otherwise as it was: same
    buffer, same capacity, no element lost, nothing released. *)
Theorem push_each_room_failure this buf cap xs ys j s :
  vec_at s this buf cap xs -> length xs + length ys <= cap ->
  j < length ys ->
  (forall i, i < j -> throws OpCopy (ticks s + i) = false) ->
  throws OpCopy (ticks s + j) = true ->
  exists s',
    push_each this ys s = (Throw, s')
    /\ vec_at s' this buf cap (xs ++ take j ys)
    /\ log s' = log s ++ (ECtor OpCopy <$> take j ys).
Proof.
  revert xs j s. induction ys as [|y ys IH]; intros xs j s Hvec Hfit Hj Hok Hth.
  - simpl in Hj. lia.
  - simpl in Hfit, Hj.
    pose proof (EmplaceBack_room_sat this buf cap xs OpCopy y s Hvec ltac:(lia))
      as Hsat.
    unfold sat in Hsat.
    destruct (EmplaceBack this OpCopy y s) as [[p| |] s1] eqn:Hrun; [| |done].
    + destruct Hsat as (a & -> & -> & ->).
      destruct j as [|j].
      { rewrite Nat.add_0_r in Hth.
        rewrite (EmplaceBack_room_throw this (Some a) cap xs OpCopy y s) in Hrun;
          [done|done|lia|done]. }
      destruct (IH (xs ++ [y]) j _
                  (room_vec_at this a cap xs y (heap s) (vecs s)
                     (S (ticks s)) (log s ++ [ECtor OpCopy y]) ltac:(lia)))
        as (s' & Hrun' & Hvec' & Hl').
      { rewrite length_app. simpl. lia. }
      { lia. }
      { intros i Hi. simpl. replace (S (ticks s + i)) with (ticks s + S i) by lia.
        apply Hok. lia. }
      { simpl. by replace (S (ticks s + j)) with (ticks s + S j) by lia. }
      exists s'. split.
      { simpl. unfold PushBack. unfold bind at 1. unfold bind at 1.
        rewrite Hrun. exact Hrun'. }
      rewrite <- app_assoc in Hvec'. simpl in *.
      split; [done|]. by rewrite Hl', <- app_assoc.
    + destruct Hsat as [-> Hy].
      destruct j as [|j].
      2:{ rewrite <- (Nat.add_0_r (ticks s)) in Hy. rewrite Hok in Hy; [done|lia]. }
      eexists. split.
      { simpl. unfold PushBack. unfold bind at 1. unfold bind at 1.
        by rewrite Hrun. }
      simpl. rewrite !app_nil_r. split; [|done].
      destruct s. by eapply vec_at_same; [| |exact Hvec].
Qed.

End appending.

(** * Growth from an empty vector, and round trips *)

Section growth.

Context {T : Type} {E : Element T}.

Implicit Types (h : gmap nat (list (option T))) (v : gmap nat Vector).
Implicit Types (t : nat) (l : list (@event T)) (s : @state T).
Implicit Types (pre post spre spost cells rest : list (option T)).
Implicit Types (xs ys zs ms olds : list T).
Implicit Types (evs : list (@event T)) (x y z w : T) (o : Vector).

Lemma PushBack_EmplaceBack this y s p s' :
  EmplaceBack this OpCopy y s = (Ret p, s') -> PushBack this y s = (Ret tt, s').
Proof. intros Hrun. unfold PushBack. by erewrite bind_Ret; [|exact Hrun]. Qed.

Lemma grown_pow k : grown (2 ^ k) = 2 ^ S k.
Proof.
  unfold grown. pose proof (Nat.pow_nonzero 2 k ltac:(lia)).
  rewrite decide_False by done. rewrite Nat.pow_succ_r'. lia.
Qed.

(** The capacity stays a power of two that is at least the size and
    less than twice the size, whatever is appended. *)
Lemma push_each_inv this ys : forall buf k0 xs s,
  vec_at s this buf (2 ^ k0) xs -> quiet_from (ticks s) ->
  length xs <= 2 ^ k0 < 2 * length xs ->
  exists buf' k s' evs,
    push_each this ys s = (Ret tt, s')
    /\ vec_at s' this buf' (2 ^ k) (xs ++ ys)
    /\ length (xs ++ ys) <= 2 ^ k < 2 * length (xs ++ ys)
    /\ log s' = log s ++ evs
    /\ tally is_ctor evs + 2 ^ k0 = length ys + 2 ^ k
    /\ tally is_alloc evs + k0 = k
    /\ leak_free evs.
Proof.
  induction ys as [|y ys IH]; intros buf k0 xs s Hvec Hq Hinv.
  - exists buf, k0, s, []. simpl. rewrite !app_nil_r. split_and!; try done; try lia.
    constructor.
  - destruct (EmplaceBack_run this buf (2 ^ k0) xs OpCopy y s Hvec Hq)
      as (buf1 & s1 & evs1 & Hrun & Hvec1 & Ht1 & Hl1 & Hc1 & Ha1 & Hlf1).
    assert (Hq1 : quiet_from (ticks s1)) by (by eapply quiet_from_le).
    assert (Hlen : length (xs ++ [y]) = S (length xs)).
    { rewrite length_app. simpl. lia. }
    destruct (decide (length xs = 2 ^ k0)) as [Hfull|Hroom].
    + rewrite grown_pow in Hvec1.
      destruct (IH buf1 (S k0) (xs ++ [y]) s1 Hvec1 Hq1)
        as (buf' & k & s' & evs & Hrun' & Hvec' & Hinv' & Hl' & Hc' & Ha' & Hlf').
      { rewrite Hlen, Nat.pow_succ_r'. lia. }
      exists buf', k, s', (evs1 ++ evs).
      rewrite <- app_assoc in Hvec', Hinv'. simpl in Hvec', Hinv'.
      rewrite Nat.pow_succ_r' in Hc'.
      split_and!; try done; try lia.
      * simpl. erewrite bind_Ret; [exact Hrun'|by eapply PushBack_EmplaceBack].
      * by rewrite Hl', Hl1, <- app_assoc.
      * rewrite tally_app. simpl. lia.
      * rewrite tally_app. lia.
      * by apply leak_free_app.
    + destruct (IH buf1 k0 (xs ++ [y]) s1 Hvec1 Hq1)
        as (buf' & k & s' & evs & Hrun' & Hvec' & Hinv' & Hl' & Hc' & Ha' & Hlf').
      { rewrite Hlen. lia. }
      exists buf', k, s', (evs1 ++ evs).
      rewrite <- app_assoc in Hvec', Hinv'. simpl in Hvec', Hinv'.
      split_and!; try done; try lia.
      * simpl. erewrite bind_Ret; [exact Hrun'|by eapply PushBack_EmplaceBack].
      * by rewrite Hl', Hl1, <- app_assoc.
      * rewrite tally_app. simpl. lia.
      * rewrite tally_app. lia.
      * by apply leak_free_app.
Qed.

(** X11: filling a default-constructed vector by [PushBack].  After
    [n > 0] appends the capacity is a power of two [2^k] with
    [n <= 2^k < 2n]; there were [k + 1] allocations, and the number of
    objects constructed, relocations included, is [n + 2^k - 1], which
    is less than [3n]; no buffer was released with a live element. *)
Theorem push_each_growth this ys s :
  vec_at s this None 0 [] -> ys <> [] -> quiet_from (ticks s) ->
  exists b k s' evs,
    push_each this ys s = (Ret tt, s')
    /\ vec_at s' this (Some b) (2 ^ k) ys
    /\ length ys <= 2 ^ k < 2 * length ys
    /\ log s' = log s ++ evs
    /\ tally is_alloc evs = S k
    /\ tally is_ctor evs = length ys + 2 ^ k - 1
    /\ tally is_ctor evs < 3 * length ys
    /\ leak_free evs.
Proof.
  intros Hvec Hys Hq. destruct ys as [|y ys]; [done|].
  destruct (EmplaceBack_run this None 0 [] OpCopy y s Hvec Hq)
    as (buf1 & s1 & evs1 & Hrun & Hvec1 & Ht1 & Hl1 & Hc1 & Ha1 & Hlf1).
  simpl in Hvec1, Hc1, Ha1. change (grown 0) with (2 ^ 0) in Hvec1.
  destruct (push_each_inv this ys buf1 0 [y] s1 Hvec1)
    as (buf' & k & s' & evs & Hrun' & Hvec' & Hinv' & Hl' & Hc' & Ha' & Hlf').
  { by eapply quiet_from_le. }
  { simpl. lia. }
  simpl in Hvec', Hinv', Hc'.
  destruct (vec_at_buf_Some _ _ _ _ _ Hvec') as (b & ->).
  { pose proof (Nat.pow_nonzero 2 k). lia. }
  exists b, k, s', (evs1 ++ evs). split_and!; simpl; try done; try lia.
  - erewrite bind_Ret; [exact Hrun'|by eapply PushBack_EmplaceBack].
  - by rewrite Hl', Hl1, <- app_assoc.
  - rewrite tally_app. lia.
  - rewrite tally_app. simpl. lia.
  - rewrite tally_app. simpl. lia.
  - by apply leak_free_app.
Qed.

(** X12: [EmplaceBack] followed by [PopBack] gives the elements back
    as they were.  The capacity is the one [EmplaceBack] left, so a
    full vector stays grown; with spare capacity, heap and objects are
    exactly as before, the new element having been constructed and
    destroyed. *)
Theorem EmplaceBack_PopBack this buf cap xs k x s :
  vec_at s this buf cap xs -> quiet_from (ticks s) ->
  exists buf' s',
    (EmplaceBack this k x ;; PopBack this) s = (Ret tt, s')
    /\ vec_at s' this buf' (if decide (length xs = cap) then grown cap else cap) xs
    /\ (length xs < cap ->
        buf' = buf /\ heap s' = heap s /\ vecs s' = vecs s
        /\ log s' = log s ++ [ECtor k x; EDtor x]).
Proof.
  intros Hvec Hq. pose proof Hvec as (Hv & Hle & Hbuf).
  destruct (decide (length xs = cap)) as [Hc|Hc].
  - destruct (EmplaceBack_run this buf cap xs k x s Hvec Hq)
      as (buf1 & s1 & evs1 & Hrun & Hvec1 & _).
    rewrite decide_True in Hvec1 by done.
    destruct (PopBack_eq this buf1 (grown cap) xs x s1 Hvec1) as (a & -> & Hpop).
    exists (Some a). eexists. split.
    { erewrite bind_Ret; [exact Hpop|exact Hrun]. }
    split; [|lia].
    destruct Hvec1 as (Hv1 & Hle1 & Hbuf1). unfold vec_at. simpl.
    rewrite !lookup_insert_eq. split_and!; try done.
    rewrite length_app in Hle1. simpl in Hle1. lia.
  - destruct (sat_quiet _ _ _ _ (EmplaceBack_room_sat this buf cap xs k x s Hvec
                ltac:(lia))) as (p & s1 & Hrun & a & -> & -> & ->).
    { intros s' [_ Hth]. rewrite Hq in Hth; [done|lia]. }
    destruct (PopBack_eq this (Some a) cap xs x _
                (room_vec_at this a cap xs x (heap s) (vecs s) (S (ticks s))
                   (log s ++ [ECtor k x]) ltac:(lia))) as (a' & [= <-] & Hpop).
    exists (Some a). eexists. split.
    { erewrite bind_Ret; [exact Hpop|exact Hrun]. }
    simpl. rewrite !insert_insert_eq, !insert_id by done.
    split.
    { destruct s. by eapply vec_at_same; [| |exact Hvec]. }
    intros _. by rewrite <- app_assoc.
Qed.

Lemma Reserve_enough this o n s :
  vecs s !! this = Some o -> n <= capacity_ (data_ o) ->
  Reserve this n s = (Ret tt, s).
Proof.
  destruct s as [h v t l]. simpl. intros Hv Hn. unfold Reserve.
  erewrite bind_Ret; [|by apply get_data_eq].
  unfold RawMemory_Capacity. by rewrite decide_True.
Qed.

(** X13: after [Reserve(n)], for [n] at most the capacity or [n]
    objects taking no more bytes than a [size_t] can count, appending
    elements up to a total of [n] never reallocates: there is at most
    the one allocation of [Reserve], and the appends work in the buffer
    it left. *)
Theorem Reserve_then_push this buf cap xs ys n s :
  vec_at s this buf cap xs -> length xs + length ys <= n ->
  (cap < n -> representable n) -> quiet_from (ticks s) ->
  exists buf' s1 s',
    Reserve this n s = (Ret tt, s1)
    /\ vec_at s1 this buf' (cap `max` n) xs
    /\ push_each this ys s1 = (Ret tt, s')
    /\ vec_at s' this buf' (cap `max` n) (xs ++ ys)
    /\ log s' = log s1 ++ (ECtor OpCopy <$> ys)
    /\ (n <= cap -> s1 = s /\ buf' = buf).
Proof.
  intros Hvec Hfit Hrep Hq. pose proof Hvec as (Hv & Hle & Hbuf).
  destruct (decide (n <= cap)) as [Hn|Hn].
  - rewrite Nat.max_l by done.
    destruct (push_each_fits this buf cap xs ys s Hvec ltac:(lia))
      as (s' & Hrun & Hvec' & Ht & Hl).
    { intros j _. apply Hq. lia. }
    exists buf, s, s'. split_and!; try done.
    by eapply Reserve_enough.
  - rewrite Nat.max_r by lia.
    destruct (sat_quiet _ _ _ _ (Reserve_sat this buf cap xs n s Hvec ltac:(lia)
                ltac:(apply Hrep; lia) (quiet_moves_safe _ Hq)))
      as ([] & s1 & Hrun1 & b & Hb & ->).
    { intros s' Hrb. by eapply quiet_not_rolled_back. }
    pose proof (reserved_vec_at this buf cap xs n b s Hvec ltac:(lia)) as Hvec1.
    destruct (push_each_fits this (Some b) n xs ys _ Hvec1 ltac:(lia))
      as (s' & Hrun & Hvec' & Ht & Hl).
    { intros j _. apply Hq. simpl. lia. }
    exists (Some b). eexists. exists s'. split_and!; try done.
Qed.

End growth.

(** * Observers, preconditions and abnormal termination *)

Section bounds.

Context {T : Type} {E : Element T}.

Implicit Types (h : gmap nat (list (option T))) (v : gmap nat Vector).
Implicit Types (t : nat) (l : list (@event T)) (s : @state T).
Implicit Types (pre post spre spost cells rest : list (option T)).
Implicit Types (xs ys zs ms olds : list T).
Implicit Types (evs : list (@event T)) (x y z w : T) (o : Vector).

Lemma noexcept_stops {A} (m : M (@state T) A) s s' :
  m s = (Fault, s') -> noexcept m s = (Fault, s').
Proof. unfold noexcept. by intros ->. Qed.

Lemma noexcept_Throw {A} (m : M (@state T) A) s s' :
  m s = (Throw, s') -> noexcept m s = (Fault, s').
Proof. unfold noexcept. by intros ->. Qed.

Lemma ptr_le_gt r i j : j < i -> ptr_le (Ptr r i) (Ptr r j) = false.
Proof.
  intros Hlt. unfold ptr_le. simpl. apply andb_false_intro2.
  apply Nat.leb_gt. lia.
Qed.

Lemma ptr_lt_ge r i j : j <= i -> ptr_lt (Ptr r i) (Ptr r j) = false.
Proof.
  intros Hlt. unfold ptr_lt. simpl. apply andb_false_intro2.
  apply Nat.ltb_ge. lia.
Qed.

Lemma cells_of_lookup_live cap xs i x :
  xs !! i = Some x -> cells_of cap xs !! i = Some (Some x).
Proof.
  intros Hi. unfold cells_of.
  rewrite lookup_app_l by (rewrite length_fmap; by eapply lookup_lt_Some).
  by rewrite list_lookup_fmap, Hi.
Qed.

Lemma cells_of_lookup_raw cap xs i :
  length xs <= i < cap -> cells_of cap xs !! i = Some None.
Proof.
  intros Hi. unfold cells_of.
  rewrite lookup_app_r by (rewrite length_fmap; lia).
  rewrite length_fmap. apply lookup_replicate_2. lia.
Qed.

(** X14: the iterators and the subscript agree.  [begin()] is the
    start of the buffer, [end()] is [size] elements further, and for
    every index below the size both subscript operators yield
    [begin() + index], where the element with that index lives. *)
Theorem iterators_spec this buf cap xs s :
  vec_at s this buf cap xs ->
  begin_ this s = (Ret (Ptr buf 0), s)
  /\ end_ this s = (Ret (ptr_add (Ptr buf 0) (length xs)), s)
  /\ distance (Ptr buf 0) (ptr_add (Ptr buf 0) (length xs)) = length xs
  /\ (xs = [] <-> Ptr buf 0 = ptr_add (Ptr buf 0) (length xs))
  /\ (forall i x, xs !! i = Some x ->
        Vector_index this i s = (Ret (ptr_add (Ptr buf 0) i), s)
        /\ Vector_index_const this i s = (Ret (ptr_add (Ptr buf 0) i), s)
        /\ peek (ptr_add (Ptr buf 0) i) s = (Ret x, s)).
Proof.
  destruct s as [h v t l]. intros (Hv & Hle & Hbuf). simpl in *.
  split_and!.
  - by erewrite begin_eq by exact Hv.
  - by erewrite end_eq by exact Hv.
  - unfold distance. simpl. lia.
  - unfold ptr_add. simpl. split.
    + by intros ->.
    + intros [= Hlen]. destruct xs; [done|simpl in Hlen; lia].
  - intros i x Hi. pose proof (lookup_lt_Some _ _ _ Hi) as Hlt.
    destruct buf as [a|]; [|lia]. split_and!.
    + unfold Vector_index. erewrite bind_Ret; [|by apply get_size_eq]. simpl.
      rewrite bool_decide_eq_true_2 by done. unfold bind at 1. simpl.
      erewrite bind_Ret; [|by apply get_data_eq].
      apply RawMemory_index_eq. simpl. lia.
    + unfold Vector_index_const. erewrite bind_Ret; [|by apply get_data_eq].
      apply RawMemory_index_eq. simpl. lia.
    + eapply peek_eq; [exact Hbuf|]. by apply cells_of_lookup_live.
Qed.

(** X15: only the non-const subscript checks the index against the
    size.  For an index from the size on, the non-const operator fails
    its assertion, while the const operator checks the capacity only:
    inside the capacity it returns a reference to an uninitialised
    cell, reading which is undefined. *)
Theorem const_index_unchecked this buf cap xs i s :
  vec_at s this buf cap xs -> length xs <= i ->
  Vector_index this i s = (Fault, s)
  /\ (i < cap ->
      Vector_index_const this i s = (Ret (ptr_add (Ptr buf 0) i), s)
      /\ (p <- Vector_index_const this i ;; peek p) s = (Fault, s))
  /\ (cap <= i -> Vector_index_const this i s = (Fault, s)).
Proof.
  destruct s as [h v t l]. intros (Hv & Hle & Hbuf) Hi. simpl in *.
  assert (Hc : i < cap ->
    Vector_index_const this i (State h v t l)
    = (Ret (ptr_add (Ptr buf 0) i), State h v t l)).
  { intros Hlt. unfold Vector_index_const.
    erewrite bind_Ret; [|by apply get_data_eq].
    apply RawMemory_index_eq. simpl. lia. }
  split_and!.
  - unfold Vector_index. erewrite bind_Ret; [|by apply get_size_eq]. simpl.
    by rewrite bool_decide_eq_false_2 by lia.
  - intros Hlt. split; [by apply Hc|]. erewrite bind_Ret; [|by apply Hc].
    destruct buf as [a|]; [|lia].
    unfold peek, ptr_add. simpl. rewrite Hbuf.
    by rewrite cells_of_lookup_raw by lia.
  - intros Hge. unfold Vector_index_const.
    erewrite bind_Ret; [|by apply get_data_eq].
    unfold RawMemory_index. simpl.
    by rewrite bool_decide_eq_false_2 by lia.
Qed.

(** X16: the asserted preconditions.  [PopBack] on an empty vector,
    [Erase] at [end()] or beyond, and [Emplace] beyond [end()] stop the
    program at the assertion, before anything has been changed. *)
Theorem precondition_faults this buf cap xs s :
  vec_at s this buf cap xs ->
  (xs = [] -> PopBack this s = (Fault, s))
  /\ (forall i, length xs <= i -> Erase this (Ptr buf i) s = (Fault, s))
  /\ (forall i k x, length xs < i -> Emplace this (Ptr buf i) k x s = (Fault, s)).
Proof.
  destruct s as [h v t l]. intros (Hv & Hle & Hbuf). simpl in *.
  split_and!.
  - intros ->. apply noexcept_stops.
    by erewrite bind_Ret; [|by apply get_size_eq].
  - intros i Hi. apply noexcept_stops.
    erewrite bind_Ret; [|by apply begin_eq].
    erewrite bind_Ret; [|by apply end_eq]. simpl.
    unfold GetAddress, ptr_add. simpl.
    by rewrite ptr_lt_ge, andb_false_r by lia.
  - intros i k x Hi. unfold Emplace.
    erewrite bind_Ret; [|by apply begin_eq].
    erewrite bind_Ret; [|by apply end_eq]. simpl.
    unfold GetAddress, ptr_add. simpl.
    by rewrite (ptr_le_gt buf i), andb_false_r by lia.
Qed.

(** X17: move assignment of a vector to itself.  The vector keeps its
    buffer and capacity but its size becomes zero, and none of its
    elements is destroyed: they stay alive in the buffer, and the
    destructor later releases the buffer with them in it. *)
Theorem self_move_assign this a cap xs s :
  vec_at s this (Some a) cap xs ->
  exists s',
    Vector_move_assign this this s = (Ret tt, s')
    /\ Size this s' = (Ret 0, s')
    /\ Capacity this s' = (Ret cap, s')
    /\ begin_ this s' = (Ret (Ptr (Some a) 0), s')
    /\ heap s' = heap s /\ ticks s' = ticks s /\ log s' = log s
    /\ exists s'', Vector_dtor this s' = (Ret tt, s'')
         /\ log s'' = log s ++ [EFree a xs].
Proof.
  destruct s as [h v t l]. intros (Hv & Hle & Hbuf). simpl in *.
  eexists. split.
  { unfold Vector_move_assign, RawMemory_move_assign.
    erewrite bind_Ret.
    2:{ erewrite bind_Ret; [|by apply get_data_eq].
        erewrite bind_Ret; [|by apply set_data_eq].
        erewrite bind_Ret; [|apply get_data_eq; by rewrite lookup_insert_eq].
        erewrite bind_Ret; [|apply set_data_eq; by rewrite lookup_insert_eq].
        simpl. apply Deallocate_null. }
    erewrite bind_Ret; [|apply get_size_eq; by rewrite lookup_insert_eq].
    erewrite bind_Ret; [|apply set_size_eq; by rewrite lookup_insert_eq].
    erewrite set_size_eq; [|by rewrite lookup_insert_eq].
    simpl. rewrite !insert_insert_eq. reflexivity. }
  simpl. split_and!; try done.
  - unfold Size. by erewrite get_size_eq by (by rewrite lookup_insert_eq).
  - by erewrite Capacity_eq by (by rewrite lookup_insert_eq).
  - by erewrite begin_eq by (by rewrite lookup_insert_eq).
  - eexists. split.
    { unfold Vector_dtor.
      erewrite bind_Ret; [|apply get_vec_eq; by rewrite lookup_insert_eq]. simpl.
      erewrite bind_Ret; [|apply destroy_n_0].
      erewrite bind_Ret; [|by apply Deallocate_eq].
      reflexivity. }
    simpl. by rewrite omap_id_cells_of.
Qed.

Lemma move_assign_left_throw a p y w pre post h v t l :
  throws OpMoveAssign t = true ->
  h !! a = Some (pre ++ Some w :: Some y :: post) -> length pre = p ->
  move_assign (Ptr (Some a) p) (Ptr (Some a) (S p)) (State h v t l)
  = (Throw, State h v (S t) l).
Proof.
  intros Hth Ha Hp. unfold move_assign, bind at 1.
  erewrite peek_eq; [|exact Ha|by apply lookup_mid_S].
  unfold bind at 1. rewrite (peek_mid _ _ _ _ _ _ _ _ _ Ha Hp).
  unfold bind, fallible. simpl. by rewrite Hth.
Qed.

(** X18: [Erase] is declared [noexcept] but shifts the tail by move
    assignments.  When one of them raises, the program is terminated in
    the middle of the shift, the size still being the old one. *)
Theorem Erase_terminates this buf cap ys x zs j s :
  vec_at s this buf cap (ys ++ x :: zs) -> j < length zs ->
  (forall i, i < j -> throws OpMoveAssign (ticks s + i) = false) ->
  throws OpMoveAssign (ticks s + j) = true ->
  exists s',
    Erase this (Ptr buf (length ys)) s = (Fault, s')
    /\ vecs s' = vecs s /\ ticks s' = S (ticks s + j)
    /\ log s' = log s ++ (EAssign OpMoveAssign <$> take j zs).
Proof.
  destruct s as [h v t l]. intros (Hv & Hle & Hbuf) Hj Hok Hth. simpl in *.
  rewrite length_app in Hle. simpl in Hle.
  destruct buf as [a|]; [|lia].
  destruct (lookup_lt_is_Some_2 zs j Hj) as [z Hz].
  pose proof (take_drop_middle zs j z Hz) as Hzs.
  remember (take j zs) as zs1 eqn:E1. remember (drop (S j) zs) as zs2 eqn:E2.
  assert (Hl1 : length zs1 = j) by (subst zs1; rewrite length_take; lia).
  eexists. split.
  { apply noexcept_Throw.
    erewrite bind_Ret; [|by apply begin_eq].
    erewrite bind_Ret; [|by apply end_eq]. simpl.
    unfold GetAddress, ptr_add. simpl.
    rewrite ptr_le_same by lia.
    rewrite ptr_lt_same by (rewrite length_app; simpl; lia). simpl.
    unfold bind at 1. simpl.
    erewrite bind_Ret; [|by apply begin_eq]. simpl.
    unfold distance. simpl. rewrite !Nat.sub_0_r, Nat.add_1_r.
    rewrite cells_of_middle in Hbuf.
    apply bind_Throw.
    unfold std_move, for_each, try_counted, distance. cbn [index].
    replace (length (ys ++ x :: zs) - S (length ys)) with (j + S (length zs2)).
    2:{ rewrite <- Hzs, !length_app. simpl. rewrite length_app. simpl. lia. }
    rewrite counted_add. rewrite <- Hl1 at 1.
    rewrite (counted_move_left a (length ys) v
               (Some z :: (Some <$> zs2)
                  ++ replicate (cap - length (ys ++ x :: zs)) None)
               zs1 0 (Some <$> ys) x h t l).
    2:{ intros i Hi. apply Hok. lia. }
    2:{ rewrite Hbuf. do 3 f_equal. rewrite <- Hzs, fmap_app, <- app_assoc. done. }
    2:{ rewrite length_fmap. lia. }
    simpl. unfold ptr_add at 1 2. simpl.
    rewrite (move_assign_left_throw a (length ys + length zs1) z (tail_moved x zs1)
               ((Some <$> ys) ++ (Some <$> zs1))
               ((Some <$> zs2) ++ replicate (cap - length (ys ++ x :: zs)) None)).
    - reflexivity.
    - by rewrite Hl1.
    - rewrite lookup_insert_eq. by rewrite <- app_assoc.
    - by rewrite length_app, !length_fmap. }
  simpl. split_and!; try done. lia.
Qed.

End bounds.

(** * Copy assignment when a copy raises *)

Section assign_failure.

Context {T : Type} {E : Element T}.

Implicit Types (h : gmap nat (list (option T))) (v : gmap nat Vector).
Implicit Types (t : nat) (l : list (@event T)) (s : @state T).
Implicit Types (pre post spre spost cells rest : list (option T)).
Implicit Types (xs ys zs ms olds : list T).
Implicit Types (evs : list (@event T)) (x y z w : T) (o : Vector).

(** Copy assignment from a longer vector than the capacity: the copy
    is built aside, so a failure rolls everything back. *)
Lemma Vector_copy_assign_realloc_sat this rhs buf cap xs r rcap ys s :
  this <> rhs ->
  vec_at s this buf cap xs -> vec_at s rhs (Some r) rcap ys ->
  buf <> Some r -> cap < length ys ->
  sat (Vector_copy_assign this rhs) s
    (fun _ s' => exists b, heap s !! b = None /\
       s' = State (<[b := Some <$> ys]> (unplug buf (heap s)))
                  (<[this := {| data_ := {| buffer_ := Some b; capacity_ := length ys |};
                                size_ := length ys |}]> (vecs s))
                  (S (ticks s + length ys))
                  (log s ++ [EAlloc b (length ys)] ++ (ECtor OpCopy <$> ys)
                         ++ (EDtor <$> xs) ++ freed buf))
    (fun s' => rolled_back s s').
Proof.
  destruct s as [h v t l]. intros Hne Hthis Hrhs Hbr Hc.
  pose proof Hthis as (Hv & Hle & Hbuf). pose proof Hrhs as (Hrv & Hrle & Hrbuf).
  simpl in *. unfold Vector_copy_assign. rewrite decide_True by done.
  eapply sat_bind_eq; [by apply get_vec_eq|].
  eapply sat_bind_eq; [by apply Capacity_eq|]. simpl.
  rewrite decide_True by done.
  destruct (new_local_fresh h v t l) as (tmp & Htmp & Hnl).
  eapply sat_bind_eq; [exact Hnl|].
  assert (this <> tmp) by (intros ->; congruence).
  apply sat_bind. eapply sat_mono.
  { eapply Vector_ctor_copy_sat; [exact Hrhs|]. intros ->. simpl in Hc. lia. }
  2:{ intros s' Hrb. exact Hrb. }
  intros [] s' (b & Hb & ->). simpl in *.
  assert (r <> b) by (intros ->; congruence).
  eapply sat_bind_eq.
  { apply Swap_eq; [done|by rewrite lookup_insert_ne|by rewrite lookup_insert_eq]. }
  destruct buf as [a|].
  - assert (a <> b) by (intros ->; congruence).
    eapply sat_eq.
    { eapply Vector_dtor_eq; [by rewrite lookup_insert_eq|].
      by rewrite lookup_insert_ne. }
    exists b. split; [done|]. simpl.
    rewrite delete_local by done. rewrite delete_insert_ne by done.
    by rewrite <- !app_assoc.
  - destruct (vec_at_null_nil _ _ _ _ Hthis) as [-> ->].
    eapply sat_eq; [apply Vector_dtor_null; by rewrite lookup_insert_eq|].
    exists b. split; [done|]. simpl.
    rewrite delete_local by done. by rewrite !app_nil_r.
Qed.

(** X19: copy assignment from a vector longer than the capacity of the
    target gives the strong guarantee.  It never stops abnormally; when
    the allocation or a copy constructor raises, heap and objects are
    as before the call (the target keeps buffer, capacity and
    elements), and the copies made so far were destroyed before their
    buffer was released. *)
Theorem copy_assign_realloc_failure this rhs buf cap xs rbuf rcap ys s :
  this <> rhs ->
  vec_at s this buf cap xs -> vec_at s rhs rbuf rcap ys ->
  (forall a, buf = Some a -> rbuf <> Some a) -> cap < length ys ->
  (exists s', Vector_copy_assign this rhs s = (Ret tt, s')
              \/ Vector_copy_assign this rhs s = (Throw, s'))
  /\ (forall s', Vector_copy_assign this rhs s = (Throw, s') ->
      vec_at s' this buf cap xs /\ vec_at s' rhs rbuf rcap ys
      /\ heap s' = heap s /\ vecs s' = vecs s
      /\ threw (ticks s) (ticks s')
      /\ exists evs, log s' = log s ++ evs /\ leak_free evs).
Proof.
  intros Hne Hthis Hrhs Hdisj Hc.
  destruct (vec_at_buf_Some _ _ _ _ _ Hrhs) as (r & ->).
  { destruct Hrhs as (_ & ? & _). lia. }
  assert (Hbr : buf <> Some r) by (intros ->; by eapply Hdisj).
  pose proof (Vector_copy_assign_realloc_sat this rhs buf cap xs r rcap ys s
                Hne Hthis Hrhs Hbr Hc) as Hsat.
  unfold sat in Hsat.
  destruct (Vector_copy_assign this rhs s) as [[[]| |] s1] eqn:Hrun; [| |done].
  - split; [eauto|]. by intros s' [=].
  - split; [eauto|]. intros s' [= <-].
    destruct Hsat as (Hh & Hvs & Hth & Hevs).
    split_and!; try done; by eapply vec_at_same.
Qed.

Lemma copy_assign_throw a r i j y w spre spost pre post h v t l :
  throws OpCopyAssign t = true ->
  h !! r = Some (spre ++ Some y :: spost) -> length spre = i ->
  h !! a = Some (pre ++ Some w :: post) -> length pre = j ->
  copy_assign (Ptr (Some a) j) (Ptr (Some r) i) (State h v t l)
  = (Throw, State h v (S t) l).
Proof.
  intros Hth Hr Hi Ha Hj. unfold copy_assign.
  erewrite bind_Ret; [|by eapply peek_mid].
  erewrite bind_Ret; [|by eapply peek_mid].
  apply bind_Throw. unfold fallible. simpl. by rewrite Hth.
Qed.

(** The assignment loop of [operator=] over [n] elements, when the
    [j]-th assignment raises. *)
Lemma assign_prefix_throw rhs a r cap rcap n j xs ys h v t l :
  v !! rhs = Some {| data_ := {| buffer_ := Some r; capacity_ := rcap |};
                     size_ := length ys |} ->
  a <> r -> length ys <= rcap -> length xs <= cap ->
  h !! r = Some (cells_of rcap ys) -> h !! a = Some (cells_of cap xs) ->
  j < n -> n <= length xs -> n <= length ys ->
  (forall i, i < j -> throws OpCopyAssign (t + i) = false) ->
  throws OpCopyAssign (t + j) = true ->
  for_each (fun i => dst <- RawMemory_index {| buffer_ := Some a; capacity_ := cap |} i ;;
                     src <- Vector_index_const rhs i ;;
                     copy_assign dst src) n (State h v t l)
  = (Throw, State (<[a := cells_of cap (take j ys ++ drop j xs)]> h) v (S (t + j))
                  (l ++ (EAssign OpCopyAssign <$> take j ys))).
Proof.
  intros Hrv Har Hrle Hle Hr Ha Hj Hnx Hny Hok Hth.
  destruct (lookup_lt_is_Some_2 ys j ltac:(lia)) as [yj Hyj].
  destruct (lookup_lt_is_Some_2 xs j ltac:(lia)) as [xj Hxj].
  pose proof (take_drop_middle ys j yj Hyj) as Hys.
  pose proof (take_drop_middle xs j xj Hxj) as Hxs.
  assert (Hty : length (take j ys) = j) by (rewrite length_take; lia).
  assert (Htx : length (take j xs) = j) by (rewrite length_take; lia).
  assert (Hcr : cells_of rcap ys
                = [] ++ (Some <$> take j ys)
                     ++ Some yj :: (Some <$> drop (S j) ys)
                     ++ replicate (rcap - length ys) None).
  { rewrite <- Hys at 1. by rewrite cells_of_middle, Hys. }
  assert (Hca : cells_of cap xs
                = [] ++ (Some <$> take j xs)
                     ++ Some xj :: (Some <$> drop (S j) xs)
                     ++ replicate (cap - length xs) None).
  { rewrite <- Hxs at 1. by rewrite cells_of_middle, Hxs. }
  unfold for_each, try_counted.
  replace n with (j + S (n - j - 1)) by lia.
  rewrite counted_add. rewrite <- Hty at 1.
  erewrite (counted_copy_assign a r cap rhs _ v
              (Some yj :: (Some <$> drop (S j) ys)
                 ++ replicate (rcap - length ys) None)
              (Some xj :: (Some <$> drop (S j) xs)
                 ++ replicate (cap - length xs) None)
              Har Hrv eq_refl (take j ys) 0 (take j xs) [] [] h t l).
  2:{ by rewrite Hty, Htx. }
  2:{ rewrite Hty. lia. }
  2:{ rewrite Hty. simpl. lia. }
  2:{ intros i Hi. apply Hok. lia. }
  2:{ by rewrite Hr, Hcr. }
  2:{ done. }
  2:{ by rewrite Ha, Hca. }
  2:{ done. }
  simpl. rewrite Hty.
  erewrite bind_Ret; [|apply RawMemory_index_eq; simpl; lia].
  erewrite bind_Ret.
  2:{ unfold Vector_index_const. erewrite bind_Ret; [|by apply get_data_eq].
      apply RawMemory_index_eq. simpl. lia. }
  simpl.
  erewrite (copy_assign_throw a r j j yj xj (Some <$> take j ys) _
              (Some <$> take j ys)).
  - simpl. do 2 f_equal. f_equal.
    rewrite (drop_S xs xj j Hxj), cells_of_middle. do 3 f_equal.
    rewrite length_app. simpl. rewrite Hty, length_drop.
    pose proof (lookup_lt_Some _ _ _ Hxj). f_equal. lia.
  - done.
  - rewrite lookup_insert_ne by done. by rewrite Hr, Hcr.
  - by rewrite length_fmap.
  - by rewrite lookup_insert_eq.
  - by rewrite length_fmap.
Qed.

(** X20: copy assignment into a target whose capacity suffices assigns
    in place, and gives the basic guarantee only.  When the [j]-th
    element assignment raises, the target is left with the first [j]
    elements of the source followed by its own old elements from
    index [j] on; size, capacity and buffer are the old ones and the
    source is untouched. *)
Theorem copy_assign_in_place_failure this rhs a cap xs r rcap ys j s :
  this <> rhs ->
  vec_at s this (Some a) cap xs -> vec_at s rhs (Some r) rcap ys -> a <> r ->
  length ys <= cap -> j < length xs -> j < length ys ->
  (forall i, i < j -> throws OpCopyAssign (ticks s + i) = false) ->
  throws OpCopyAssign (ticks s + j) = true ->
  exists s',
    Vector_copy_assign this rhs s = (Throw, s')
    /\ vec_at s' this (Some a) cap (take j ys ++ drop j xs)
    /\ vec_at s' rhs (Some r) rcap ys
    /\ log s' = log s ++ (EAssign OpCopyAssign <$> take j ys).
Proof.
  destruct s as [h v t l].
  intros Hne (Hv & Hle & Hbuf) (Hrv & Hrle & Hrbuf) Har Hc Hjx Hjy Hok Hth.
  simpl in *.
  assert (Hloop : forall n, j < n -> n <= length xs -> n <= length ys ->
    for_each (fun i => dst <- RawMemory_index {| buffer_ := Some a; capacity_ := cap |} i ;;
                       src <- Vector_index_const rhs i ;;
                       copy_assign dst src) n (State h v t l)
    = (Throw, State (<[a := cells_of cap (take j ys ++ drop j xs)]> h) v (S (t + j))
                    (l ++ (EAssign OpCopyAssign <$> take j ys)))).
  { intros n Hn Hnx Hny.
    by apply (assign_prefix_throw rhs a r cap rcap n j xs ys). }
  eexists. split.
  { unfold Vector_copy_assign. rewrite decide_True by done.
    erewrite bind_Ret; [|by apply get_vec_eq].
    erewrite bind_Ret; [|by apply Capacity_eq]. simpl.
    rewrite decide_False by lia.
    erewrite bind_Ret; [|by apply get_size_eq].
    erewrite bind_Ret; [|by apply get_data_eq]. simpl.
    apply bind_Throw.
    destruct (decide (length ys < length xs)) as [Hlt|Hge].
    - apply bind_Throw. apply Hloop; lia.
    - apply bind_Throw. apply Hloop; lia. }
  assert (Hlen : length (take j ys ++ drop j xs) = length xs).
  { rewrite length_app, length_take, length_drop. lia. }
  unfold vec_at. simpl. rewrite Hlen, lookup_insert_eq, lookup_insert_ne by done.
  split_and!; done.
Qed.

End assign_failure.

(** * Insertion in the middle: round trip and failures *)

Section insertion.

Context {T : Type} {E : Element T}.

Implicit Types (h : gmap nat (list (option T))) (v : gmap nat Vector).
Implicit Types (t : nat) (l : list (@event T)) (s : @state T).
Implicit Types (pre post spre spost cells rest : list (option T)).
Implicit Types (xs ys zs ms olds : list T).
Implicit Types (evs : list (@event T)) (x y z w : T) (o : Vector).

Lemma frame_refl this buf s : frame this buf s s.
Proof. by split. Qed.

Lemma frame_in_place this a cells o h v t l t' l' :
  frame this (Some a) (State h v t l) (State (<[a := cells]> h) (<[this := o]> v) t' l').
Proof.
  split; simpl.
  - intros o' Hne. by rewrite lookup_insert_ne.
  - intros a' cells' Hne Ha'. rewrite lookup_insert_ne; [done|]. by intros ->.
Qed.

Lemma frame_moved this buf b cells o h v t l t' l' :
  h !! b = None ->
  frame this buf (State h v t l)
        (State (<[b := cells]> (unplug buf h)) (<[this := o]> v) t' l').
Proof.
  intros Hb. split; simpl.
  - intros o' Hne. by rewrite lookup_insert_ne.
  - intros a' cells' Hne Ha'.
    rewrite lookup_insert_ne by (intros ->; congruence).
    destruct buf as [a|]; [|done]. simpl.
    rewrite lookup_delete_ne; [done|]. by intros ->.
Qed.

Lemma frame_vec_at this buf other obuf ocap ys s s' :
  frame this buf s s' -> other <> this ->
  (forall a, obuf = Some a -> buf <> Some a) ->
  vec_at s other obuf ocap ys -> vec_at s' other obuf ocap ys.
Proof.
  intros [Hvs Hh] Hne Hdisj (Hv & Hle & Hbuf). unfold vec_at.
  rewrite Hvs by done. split_and!; try done.
  destruct obuf as [a|]; [|done]. apply Hh; [|done]. by apply Hdisj.
Qed.

(** One [Emplace] at index [i] when nothing fails. *)
Lemma Emplace_run this buf cap xs i k x s :
  vec_at s this buf cap xs -> i <= length xs -> quiet_from (ticks s) ->
  exists buf' s',
    Emplace this (Ptr buf i) k x s = (Ret (Ptr buf' i), s')
    /\ vec_at s' this buf'
              (if decide (length xs = cap) then grown cap else cap)
              (take i xs ++ x :: drop i xs)
    /\ ticks s <= ticks s'
    /\ (length xs < cap -> buf' = buf)
    /\ frame this buf s s'.
Proof.
  intros Hvec Hi Hq. pose proof Hvec as (Hv & Hle & Hbuf).
  destruct (decide (i = length xs)) as [->|Hne].
  - (* at the end *)
    assert (Hend : Emplace this (Ptr buf (length xs)) k x s = EmplaceBack this k x s).
    { destruct s as [h v t l]. apply (Emplace_end_eq this _ k x _ Hv). }
    rewrite firstn_all, drop_all in *. rewrite Hend.
    destruct (decide (length xs = cap)) as [Hc|Hc].
    + subst cap.
      destruct (sat_quiet _ _ _ _ (EmplaceBack_full_sat this buf xs k x s Hvec
                  (quiet_moves_safe _ Hq))) as (p & s' & Hrun & b & Hb & -> & ->).
      { intros s' (_ & _ & Hth). by eapply quiet_not_threw. }
      exists (Some b), (emplaced_back this buf xs k x b s).
      split; [done|]. split; [apply emplaced_back_vec_at|].
      split; [simpl; lia|]. split; [lia|].
      destruct s. by apply frame_moved.
    + destruct (sat_quiet _ _ _ _ (EmplaceBack_room_sat this buf cap xs k x s Hvec
                  ltac:(lia))) as (p & s' & Hrun & a & -> & -> & ->).
      { intros s' [_ Hth]. rewrite Hq in Hth; [done|lia]. }
      eexists (Some a), _. split; [exact Hrun|].
      split; [apply room_vec_at; lia|]. split; [simpl; lia|]. split; [done|].
      destruct s. apply frame_in_place.
  - (* before the end *)
    assert (Hlt : i < length xs) by lia.
    destruct (vec_at_buf_Some _ _ _ _ _ Hvec) as (a & ->); [lia|].
    pose proof (take_drop i xs) as Hxs.
    remember (take i xs) as ys eqn:Eys. remember (drop i xs) as zs eqn:Ezs.
    assert (Hys : length ys = i) by (subst ys; rewrite length_take; lia).
    assert (Hzs : zs <> []).
    { intros ->. rewrite app_nil_r in Hxs. subst xs. lia. }
    destruct (decide (length xs = cap)) as [Hc|Hc].
    + subst cap. rewrite <- Hxs in Hvec.
      destruct (sat_quiet _ _ _ _ (Emplace_full_sat this a ys zs k x s Hvec Hzs
                  (quiet_moves_safe _ Hq))) as (p & s' & Hrun & b & Hb & -> & ->).
      { intros s' (_ & _ & Hth). by eapply quiet_not_threw. }
      rewrite Hys in Hrun. exists (Some b), (emplaced this a ys zs k x b s).
      pose proof (emplaced_vec_at this a ys zs k x b s) as Hvec'.
      rewrite Hxs in Hvec'.
      split; [done|]. split; [done|]. split; [simpl; lia|]. split; [lia|].
      destruct s. by apply (frame_moved this (Some a)).
    + destruct (snoc_decompose zs Hzs) as (ms & z & ->).
      rewrite <- Hxs in Hvec.
      assert (Hroom : length (ys ++ ms ++ [z]) < cap) by (rewrite Hxs; lia).
      pose proof (Emplace_room_eq this a cap ys ms z k x s Hvec Hroom Hq) as Hrun.
      rewrite Hys in Hrun.
      exists (Some a), (emplaced_in_place this a cap ys ms z k x s).
      split; [done|].
      split; [by apply emplaced_in_place_vec_at|]. split; [simpl; lia|].
      split; [done|]. destruct s. apply frame_in_place.
Qed.

(** X21: [Emplace] at any position followed by [Erase] at the iterator
    it returned gives the elements back as they were, values included.
    The capacity is the one [Emplace] left; with spare capacity the
    buffer is the old one. *)
Theorem Emplace_Erase this buf cap xs i k x s :
  vec_at s this buf cap xs -> i <= length xs -> quiet_from (ticks s) ->
  exists buf' s',
    (p <- Emplace this (Ptr buf i) k x ;; Erase this p) s = (Ret (Ptr buf' i), s')
    /\ vec_at s' this buf' (if decide (length xs = cap) then grown cap else cap) xs
    /\ (length xs < cap -> buf' = buf).
Proof.
  intros Hvec Hi Hq.
  destruct (Emplace_run this buf cap xs i k x s Hvec Hi Hq)
    as (buf1 & s1 & Hrun & Hvec1 & Ht1 & Hb1 & _).
  assert (Hys : length (take i xs) = i) by (rewrite length_take; lia).
  destruct (Erase_eq this buf1 _ (take i xs) x (drop i xs) s1 Hvec1)
    as (a & -> & Hrun').
  { intros j _. apply Hq. lia. }
  rewrite Hys in Hrun'.
  exists (Some a). eexists. split.
  { erewrite bind_Ret; [exact Hrun'|exact Hrun]. }
  split; [|done].
  destruct Hvec1 as (Hv1 & Hle1 & Hbuf1). rewrite take_drop.
  unfold vec_at. simpl. rewrite !lookup_insert_eq. split_and!; try done.
  rewrite length_app in Hle1. simpl in Hle1.
  rewrite <- (take_drop i xs) at 1. rewrite length_app. lia.
Qed.

Lemma on_unwind_Throw {A} (m : M (@state T) A) cleanup s s' s'' :
  m s = (Throw, s') -> cleanup s' = (Ret tt, s'') ->
  on_unwind m cleanup s = (Throw, s'').
Proof. unfold on_unwind, catch, bind, throw. by intros -> ->. Qed.

Lemma move_construct_throw a p y c pre post (dst : ptr) h v t l :
  throws OpMove t = true ->
  h !! a = Some (pre ++ Some y :: c :: post) -> length pre = p ->
  move_construct dst (Ptr (Some a) p) (State h v t l) = (Throw, State h v (S t) l).
Proof.
  intros Hth Ha Hp. unfold move_construct.
  erewrite bind_Ret; [|by eapply peek_mid].
  apply bind_Throw. unfold construct_at. apply bind_Throw.
  unfold fallible. simpl. by rewrite Hth.
Qed.

(** X22: [Emplace] before the end of a vector with spare capacity,
    when one of its first two steps raises.  If the constructor of the
    temporary raises, nothing has happened.  If the move constructor
    that opens the new last cell raises, the temporary is destroyed and
    heap and objects are as before. *)
Theorem Emplace_room_failure this a cap xs i k x s :
  vec_at s this (Some a) cap xs -> i < length xs -> length xs < cap ->
  (throws k (ticks s) = true ->
     Emplace this (Ptr (Some a) i) k x s
     = (Throw, State (heap s) (vecs s) (S (ticks s)) (log s)))
  /\ (throws k (ticks s) = false -> throws OpMove (S (ticks s)) = true ->
     Emplace this (Ptr (Some a) i) k x s
     = (Throw, State (heap s) (vecs s) (S (S (ticks s)))
                     (log s ++ [ECtor k x; EDtor x]))).
Proof.
  destruct s as [h v t l]. intros (Hv & Hle & Hbuf) Hi Hroom. simpl in *.
  destruct (snoc_decompose xs ltac:(intros ->; simpl in Hi; lia)) as (ms & z & ->).
  assert (Hn : length (ms ++ [z]) = S (length ms)).
  { rewrite length_app. simpl. lia. }
  remember (length (ms ++ [z])) as n eqn:En.
  assert (Hcells : h !! a = Some ((Some <$> ms)
                      ++ Some z :: None :: replicate (cap - n - 1) None)).
  { rewrite Hbuf. f_equal. unfold cells_of.
    rewrite fmap_app, <- app_assoc, <- En. simpl. do 2 f_equal.
    rewrite <- replicate_S. f_equal. lia. }
  assert (Henter : forall r,
    bind (with_temporary k x (fun temporary =>
            e <- end_ this ;;
            d <- get_data this ;;
            last <- RawMemory_index d (n - 1) ;;
            move_construct e last ;;
            b <- begin_ this ;;
            e <- end_ this ;;
            std_move_backward (ptr_add b i) (ptr_sub e 1) e ;;
            dst <- RawMemory_index d i ;;
            left <- move_assign_from temporary dst ;;
            incr_size this ;;
            ret (tt, left)))
         (fun _ => d <- get_data this ;; ret (ptr_add (GetAddress d) i))
         (State h v t l) = r ->
    Emplace this (Ptr (Some a) i) k x (State h v t l) = r).
  { intros r <-. unfold Emplace.
    erewrite bind_Ret; [|by apply begin_eq].
    erewrite bind_Ret; [|by apply end_eq]. simpl.
    unfold GetAddress, ptr_add. simpl.
    rewrite !ptr_le_same by lia. simpl.
    erewrite bind_Ret; [|done].
    rewrite decide_False by (intros [=]; lia).
    erewrite bind_Ret; [|by apply begin_eq]. simpl.
    unfold distance. simpl. rewrite !Nat.sub_0_r.
    erewrite bind_Ret; [|by apply get_size_eq].
    erewrite bind_Ret; [|by apply Capacity_eq]. simpl.
    rewrite decide_False by lia. reflexivity. }
  split.
  - intros Hth. apply Henter. apply bind_Throw. unfold with_temporary.
    apply bind_Throw. unfold fallible. simpl. by rewrite Hth.
  - intros Hok Hth. apply Henter. apply bind_Throw. unfold with_temporary.
    erewrite bind_Ret; [|by apply fallible_eq].
    erewrite bind_Ret; [|apply emit_eq].
    apply bind_Throw. eapply on_unwind_Throw.
    + erewrite bind_Ret; [|by apply end_eq].
      erewrite bind_Ret; [|by apply get_data_eq].
      erewrite bind_Ret; [|apply RawMemory_index_eq; simpl; lia]. simpl.
      apply bind_Throw.
      eapply move_construct_throw; [done|exact Hcells|rewrite length_fmap; lia].
    + rewrite emit_eq. by rewrite <- app_assoc.
Qed.

End insertion.

(** * Insertion in the middle: a failed shift *)

Section shift.

Context {T : Type} {E : Element T}.

Implicit Types (h : gmap nat (list (option T))) (v : gmap nat Vector).
Implicit Types (t : nat) (l : list (@event T)) (s : @state T).
Implicit Types (pre post spre spost cells rest : list (option T)).
Implicit Types (xs ys zs ms olds : list T).
Implicit Types (evs : list (@event T)) (x y z w : T) (o : Vector).

Lemma move_assign_right_throw a p y w pre post h v t l :
  throws OpMoveAssign t = true ->
  h !! a = Some (pre ++ Some y :: Some w :: post) -> length pre = p ->
  move_assign (Ptr (Some a) (S p)) (Ptr (Some a) p) (State h v t l)
  = (Throw, State h v (S t) l).
Proof.
  intros Hth Ha Hp. unfold move_assign.
  erewrite bind_Ret; [|by eapply peek_mid].
  erewrite bind_Ret; [|eapply peek_eq; [exact Ha|by apply lookup_mid_S]].
  apply bind_Throw. unfold fallible. simpl. by rewrite Hth.
Qed.

Lemma move_assign_from_throw a p x w pre post h v t l :
  throws OpMoveAssign t = true ->
  h !! a = Some (pre ++ Some w :: post) -> length pre = p ->
  move_assign_from x (Ptr (Some a) p) (State h v t l) = (Throw, State h v (S t) l).
Proof.
  intros Hth Ha Hp. unfold move_assign_from.
  erewrite bind_Ret; [|by eapply peek_mid].
  apply bind_Throw. unfold fallible. simpl. by rewrite Hth.
Qed.

(** X23: [Emplace] before the end of a vector with spare capacity,
    when the first move assignment of the shift raises.  By then the
    last element has been move-constructed into the cell beyond the
    end, and nothing undoes that: the vector keeps its size, its last
    element is left in the moved-from state, and the object beyond the
    end stays alive without being an element of the vector. *)
Theorem Emplace_room_shift_failure this a cap ys ms z k x s :
  vec_at s this (Some a) cap (ys ++ ms ++ [z]) ->
  length (ys ++ ms ++ [z]) < cap ->
  throws k (ticks s) = false -> throws OpMove (S (ticks s)) = false ->
  throws OpMoveAssign (S (S (ticks s))) = true ->
  exists s',
    Emplace this (Ptr (Some a) (length ys)) k x s = (Throw, s')
    /\ vecs s' = vecs s
    /\ heap s' = <[a := (Some <$> ys ++ ms ++ [moved z])
                        ++ Some z :: replicate (cap - length (ys ++ ms ++ [z]) - 1) None]>
                   (heap s)
    /\ log s' = log s ++ [ECtor k x; ECtor OpMove z; EDtor x].
Proof.
  destruct s as [h v t l]. intros (Hv & Hle & Hbuf) Hlt Hk Hmv Hth. simpl in *.
  assert (Hn : length (ys ++ ms ++ [z]) = S (length ys + length ms)).
  { rewrite !length_app. simpl. lia. }
  remember (length (ys ++ ms ++ [z])) as n eqn:En.
  assert (Hcells : h !! a = Some (((Some <$> ys) ++ (Some <$> ms))
                      ++ Some z :: None :: replicate (cap - n - 1) None)).
  { rewrite Hbuf. f_equal. unfold cells_of.
    rewrite !fmap_app, <- !app_assoc, <- En. simpl. do 3 f_equal.
    rewrite <- replicate_S. f_equal. lia. }
  exists (State (<[a := ((Some <$> ys) ++ (Some <$> ms))
                         ++ Some (moved z) :: Some z :: replicate (cap - n - 1) None]> h)
                v (S (S (S t))) (((l ++ [ECtor k x]) ++ [ECtor OpMove z]) ++ [EDtor x])).
  split.
  { unfold Emplace.
    erewrite bind_Ret; [|by apply begin_eq].
    erewrite bind_Ret; [|by apply end_eq]. simpl.
    unfold GetAddress, ptr_add. simpl.
    rewrite !ptr_le_same by lia. simpl.
    erewrite bind_Ret; [|done].
    rewrite decide_False by (intros [=]; lia).
    erewrite bind_Ret; [|by apply begin_eq]. simpl.
    unfold distance. simpl. rewrite !Nat.sub_0_r.
    erewrite bind_Ret; [|by apply get_size_eq].
    erewrite bind_Ret; [|by apply Capacity_eq]. simpl.
    rewrite decide_False by lia.
    apply bind_Throw. unfold with_temporary.
    erewrite bind_Ret; [|by apply fallible_eq].
    erewrite bind_Ret; [|apply emit_eq].
    apply bind_Throw. eapply on_unwind_Throw; [|apply emit_eq].
    erewrite bind_Ret; [|by apply end_eq].
    erewrite bind_Ret; [|by apply get_data_eq].
    erewrite bind_Ret; [|apply RawMemory_index_eq; simpl; lia]. simpl.
    unfold GetAddress, ptr_add. simpl.
    replace n with (S (n - 1)) at 1 by lia.
    erewrite bind_Ret.
    2:{ eapply move_construct_next; [done|exact Hcells|].
        rewrite length_app, !length_fmap. lia. }
    erewrite bind_Ret; [|by apply begin_eq].
    erewrite bind_Ret; [|by apply end_eq]. simpl.
    unfold GetAddress, ptr_add, ptr_sub. simpl.
    destruct (decide (ms = [])) as [->|Hms].
    - simpl in Hn. rewrite app_nil_r.
      replace (n - 1) with (length ys) by lia.
      unfold std_move_backward, for_each, try_counted, distance. simpl.
      rewrite Nat.sub_diag. simpl.
      erewrite bind_Ret; [|done].
      erewrite bind_Ret; [|apply RawMemory_index_eq; simpl; lia]. simpl.
      apply bind_Throw.
      eapply move_assign_from_throw; [done|by rewrite lookup_insert_eq|].
      by rewrite length_fmap.
    - destruct (snoc_decompose ms Hms) as (ms' & m & ->).
      rewrite length_app in Hn. simpl in Hn.
      apply bind_Throw.
      unfold std_move_backward, for_each, try_counted, distance. simpl.
      replace (n - 1 - length ys) with (S (length ms')) by lia. simpl.
      unfold ptr_sub. simpl.
      replace (n - 1) with (S (n - 2)) by lia. simpl. rewrite Nat.sub_0_r.
      rewrite (move_assign_right_throw a (n - 2) m (moved z)
                 ((Some <$> ys) ++ (Some <$> ms'))
                 (Some z :: replicate (cap - n - 1) None)).
      + reflexivity.
      + done.
      + rewrite lookup_insert_eq. f_equal.
        rewrite fmap_app, <- !app_assoc. done.
      + rewrite length_app, !length_fmap. lia. }
  simpl. split; [done|]. split; [|by rewrite <- !app_assoc].
  f_equal. rewrite !fmap_app, <- !app_assoc. simpl. done.
Qed.

End shift.

(** * What the mutators leave alone; raw memory; [Resize] in place *)

Section framing.

Context {T : Type} {E : Element T}.

Implicit Types (h : gmap nat (list (option T))) (v : gmap nat Vector).
Implicit Types (t : nat) (l : list (@event T)) (s : @state T).
Implicit Types (pre post spre spost cells rest : list (option T)).
Implicit Types (xs ys zs ms olds : list T).
Implicit Types (evs : list (@event T)) (x y z w : T) (o : Vector).

Lemma frame_dtor this buf h v t l t' l' :
  frame this buf (State h v t l) (State (unplug buf h) (delete this v) t' l').
Proof.
  split; simpl.
  - intros o' Hne. by rewrite lookup_delete_ne.
  - intros a' cells' Hne Ha'. destruct buf as [a|]; [|done]. simpl.
    rewrite lookup_delete_ne; [done|]. by intros ->.
Qed.

(** Every mutator, run on [this] when nothing fails, touches only the
    object [this] and the buffer it owned at the call. *)
Lemma mutators_frame this buf cap xs s :
  vec_at s this buf cap xs -> quiet_from (ticks s) ->
  (forall k x p s', EmplaceBack this k x s = (Ret p, s') -> frame this buf s s')
  /\ (forall i k x p s', i <= length xs ->
        Emplace this (Ptr buf i) k x s = (Ret p, s') -> frame this buf s s')
  /\ (forall n s', Reserve this n s = (Ret tt, s') -> frame this buf s s')
  /\ (forall i p s', i < length xs ->
        Erase this (Ptr buf i) s = (Ret p, s') -> frame this buf s s')
  /\ (forall s', xs <> [] -> PopBack this s = (Ret tt, s') -> frame this buf s s')
  /\ (forall n s', n < length xs ->
        Resize this n s = (Ret tt, s') -> frame this buf s s')
  /\ (forall s', Vector_dtor this s = (Ret tt, s') -> frame this buf s s').
Proof.
  intros Hvec Hq. pose proof Hvec as (Hv & Hle & Hbuf).
  assert (HE : forall i k x p s', i <= length xs ->
            Emplace this (Ptr buf i) k x s = (Ret p, s') -> frame this buf s s').
  { intros i k x p s' Hi Hrun.
    destruct (Emplace_run this buf cap xs i k x s Hvec Hi Hq)
      as (buf1 & s1 & Hrun1 & _ & _ & _ & Hfr).
    rewrite Hrun1 in Hrun. by injection Hrun as _ <-. }
  split_and!.
  - intros k x p s' Hrun. apply (HE (length xs) k x p s'); [done|].
    rewrite <- Hrun. destruct s as [h v t l].
    apply (Emplace_end_eq this _ k x _ Hv).
  - exact HE.
  - intros n s' Hrun. destruct (decide (n <= cap)) as [Hn|Hn].
    + rewrite (Reserve_enough this _ n s Hv) in Hrun by done.
      injection Hrun as <-. apply frame_refl.
    + destruct (psat_Ret_inv _ _ _ _ _ _
                  (Reserve_psat this buf cap xs n s Hvec ltac:(lia)
                     (quiet_moves_safe _ Hq)) Hrun) as (_ & b & Hb & ->).
      destruct s. by apply frame_moved.
  - intros i p s' Hi Hrun.
    destruct (lookup_lt_is_Some_2 xs i Hi) as [x Hx].
    pose proof (take_drop_middle xs i x Hx) as Hxs.
    rewrite <- Hxs in Hvec.
    destruct (Erase_eq this buf cap (take i xs) x (drop (S i) xs) s Hvec)
      as (a & -> & Hrun1).
    { intros j _. apply Hq. lia. }
    rewrite length_take_le in Hrun1 by lia.
    rewrite Hrun1 in Hrun. injection Hrun as _ <-.
    destruct s. apply frame_in_place.
  - intros s' Hxs Hrun.
    destruct (snoc_decompose xs Hxs) as (ms & z & ->).
    destruct (PopBack_eq this buf cap ms z s Hvec) as (a & -> & Hrun1).
    rewrite Hrun1 in Hrun. injection Hrun as <-.
    destruct s. apply frame_in_place.
  - intros n s' Hn Hrun.
    destruct (Resize_shrink_eq this buf cap xs n s Hvec Hn) as (a & -> & Hrun1).
    rewrite Hrun1 in Hrun. injection Hrun as <-.
    destruct s. apply frame_in_place.
  - intros s' Hrun.
    rewrite (Vector_dtor_run this buf cap xs s Hvec) in Hrun.
    injection Hrun as <-. destruct s. apply frame_dtor.
Qed.

(** X24: vectors do not share.  Whatever is done to one vector
    (appending, inserting, reserving, erasing, shrinking, destroying
    it), another vector with a buffer of its own keeps its buffer, its
    capacity and its elements. *)
Theorem other_vector_untouched this other buf cap xs obuf ocap ys s :
  vec_at s this buf cap xs -> vec_at s other obuf ocap ys ->
  other <> this -> (forall a, obuf = Some a -> buf <> Some a) ->
  quiet_from (ticks s) ->
  (forall k x p s', EmplaceBack this k x s = (Ret p, s') ->
     vec_at s' other obuf ocap ys)
  /\ (forall i k x p s', i <= length xs ->
        Emplace this (Ptr buf i) k x s = (Ret p, s') -> vec_at s' other obuf ocap ys)
  /\ (forall n s', Reserve this n s = (Ret tt, s') -> vec_at s' other obuf ocap ys)
  /\ (forall i p s', i < length xs ->
        Erase this (Ptr buf i) s = (Ret p, s') -> vec_at s' other obuf ocap ys)
  /\ (forall s', xs <> [] -> PopBack this s = (Ret tt, s') ->
        vec_at s' other obuf ocap ys)
  /\ (forall n s', n < length xs ->
        Resize this n s = (Ret tt, s') -> vec_at s' other obuf ocap ys)
  /\ (forall s', Vector_dtor this s = (Ret tt, s') -> vec_at s' other obuf ocap ys).
Proof.
  intros Hvec Hother Hne Hdisj Hq.
  destruct (mutators_frame this buf cap xs s Hvec Hq)
    as (H1 & H2 & H3 & H4 & H5 & H6 & H7).
  assert (Hfr : forall s', frame this buf s s' -> vec_at s' other obuf ocap ys).
  { intros s' Hf. by eapply frame_vec_at. }
  split_and!; intros; apply Hfr; eauto.
Qed.

(** X25: a [RawMemory] constructed and destroyed again.  For capacity
    zero nothing is allocated or released.  Otherwise, if the
    allocation succeeds, one fresh region is allocated and released
    empty, and the heap is as before; if it raises, nothing has
    happened. *)
Theorem RawMemory_round_trip n s :
  (n = 0 -> (r <- RawMemory_ctor n ;; RawMemory_dtor r) s = (Ret tt, s))
  /\ (0 < n -> throws OpNew (ticks s) = false ->
      exists b s',
        (r <- RawMemory_ctor n ;; RawMemory_dtor r) s = (Ret tt, s')
        /\ heap s !! b = None /\ heap s' = heap s /\ vecs s' = vecs s
        /\ log s' = log s ++ [EAlloc b n; EFree b []])
  /\ (0 < n -> throws OpNew (ticks s) = true ->
      (r <- RawMemory_ctor n ;; RawMemory_dtor r) s
      = (Throw, State (heap s) (vecs s) (S (ticks s)) (log s))).
Proof.
  destruct s as [h v t l]. simpl. split_and!.
  - intros ->. done.
  - intros Hn Hok.
    pose proof (sat_RawMemory_ctor_from Requested n h v t l
      (fun r s' => exists b, h !! b = None
         /\ r = {| buffer_ := Some b; capacity_ := n |}
         /\ s' = State (<[b := replicate (cells_for Requested n) None]> h) v (S t)
                       (l ++ [EAlloc b n]))
      (fun _ => False) ltac:(lia)) as Hsat.
    fold (RawMemory_ctor n) in Hsat.
    unfold sat in Hsat.
    destruct (RawMemory_ctor n (State h v t l)) as [[r| |] s1] eqn:Hrun.
    + destruct Hsat as (b & Hb & -> & ->); [by eauto|by rewrite Hok|].
      exists b. eexists. split.
      { erewrite bind_Ret; [|exact Hrun].
        apply Deallocate_eq. by rewrite lookup_insert_eq. }
      simpl. rewrite delete_insert_id by done. rewrite omap_id_replicate_None.
      split_and!; try done. by rewrite <- app_assoc.
    + exfalso. apply Hsat; [by eauto|by rewrite Hok].
    + exfalso. apply Hsat; [by eauto|by rewrite Hok].
  - intros Hn Hth. apply bind_Throw.
    unfold RawMemory_ctor, RawMemory_ctor_from, Allocate. rewrite decide_True by lia.
    apply bind_Throw. apply bind_Throw. unfold operator_new.
    apply bind_Throw. unfold fallible. simpl. by rewrite Hth.
Qed.

(** X26: [Resize] to a larger size within the capacity constructs in
    place.  It never stops abnormally; when a default constructor
    raises, the objects constructed so far are destroyed again and heap
    and objects, the capacity included, are as before the call. *)
Theorem Resize_in_place_failure this buf cap xs n s :
  vec_at s this buf cap xs -> length xs < n <= cap ->
  (exists s', Resize this n s = (Ret tt, s') \/ Resize this n s = (Throw, s'))
  /\ (forall s', Resize this n s = (Throw, s') ->
      vec_at s' this buf cap xs
      /\ heap s' = heap s /\ vecs s' = vecs s
      /\ threw (ticks s) (ticks s')
      /\ exists evs, log s' = log s ++ evs /\ leak_free evs).
Proof.
  intros Hvec Hn. pose proof Hvec as (Hv & Hle & Hbuf).
  destruct (vec_at_buf_Some _ _ _ _ _ Hvec) as (a & ->); [lia|].
  assert (Hsat : sat (Resize this n) s (fun _ _ => True)
                     (fun s' => heap s' = heap s /\ vecs s' = vecs s
                        /\ threw (ticks s) (ticks s')
                        /\ exists evs, log s' = log s ++ evs /\ leak_free evs)).
  { destruct s as [h v t l]. simpl in *. unfold Resize.
    eapply sat_bind_eq; [by apply get_size_eq|]. simpl.
    rewrite decide_True by lia.
    eapply sat_bind_eq; [by apply get_data_eq|]. simpl.
    unfold RawMemory_Capacity. simpl. rewrite decide_False by lia.
    eapply sat_bind_eq; [done|].
    eapply Resize_tail_sat; [done|done|lia|done|].
    intros t' evs Hth Hevs. simpl. split_and!; try done. by exists evs. }
  unfold sat in Hsat.
  destruct (Resize this n s) as [[[]| |] s1] eqn:Hrun; [| |done].
  - split; [eauto|]. by intros s' [=].
  - split; [eauto|]. intros s' [= <-].
    destruct Hsat as (Hh & Hvs & Hth & Hevs).
    split_and!; try done. by eapply vec_at_same.
Qed.

End framing.

(** * [Resize] up and down again *)

Section resizing.

Context {T : Type} {E : Element T}.

Implicit Types (h : gmap nat (list (option T))) (v : gmap nat Vector).
Implicit Types (t : nat) (l : list (@event T)) (s : @state T).
Implicit Types (pre post spre spost cells rest : list (option T)).
Implicit Types (xs ys zs ms olds : list T).
Implicit Types (evs : list (@event T)) (x y z w : T) (o : Vector).

(** X27: [Resize] to a larger size and back to the old size gives the
    elements back as they were, provided that the larger size is at
    most the capacity or as many objects take no more bytes than a
    [size_t] can count.  The capacity does not come back: it is the
    larger of the old capacity and the size in between, and no buffer
    was released with a live element on the way. *)
Theorem Resize_round_trip this buf cap xs n s :
  vec_at s this buf cap xs -> length xs < n -> (cap < n -> representable n) ->
  quiet_from (ticks s) ->
  exists buf' s',
    (Resize this n ;; Resize this (length xs)) s = (Ret tt, s')
    /\ vec_at s' this buf' (cap `max` n) xs
    /\ (n <= cap -> buf' = buf)
    /\ exists evs, log s' = log s ++ evs /\ leak_free evs.
Proof.
  intros Hvec Hn Hrep Hq.
  assert (Hsat : sat (Resize this n) s
    (fun _ s1 => exists buf1,
       vec_at s1 this buf1 (cap `max` n) (xs ++ replicate (n - length xs) dflt)
       /\ (n <= cap -> buf1 = buf)
       /\ exists evs, log s1 = log s ++ evs /\ leak_free evs)
    (fun s1 => threw (ticks s) (ticks s1))).
  { pose proof Hvec as (Hv & Hle & Hbuf).
    unfold Resize. destruct s as [h v t l]. simpl in *.
    eapply sat_bind_eq; [by apply get_size_eq|]. simpl.
    rewrite decide_True by lia.
    eapply sat_bind_eq; [by apply get_data_eq|]. simpl.
    unfold RawMemory_Capacity. simpl. destruct (decide (cap < n)) as [Hc|Hc].
    - rewrite Nat.max_r by lia.
      apply sat_bind. eapply sat_mono;
        [by eapply Reserve_sat; [done|done|by apply Hrep|by apply quiet_moves_safe]| |].
      + intros [] s' (b & Hb & ->). unfold reserved. simpl.
        eapply Resize_tail_sat;
          [by rewrite lookup_insert_eq|by rewrite lookup_insert_eq|lia| |].
        * intros t' Ht'. exists (Some b). split; [|split].
          -- unfold vec_at. simpl. rewrite !lookup_insert_eq.
             rewrite length_app, length_replicate.
             split; [do 2 f_equal; lia|]. split; [lia|done].
          -- lia.
          -- simpl. eexists. rewrite <- app_assoc. split; [done|].
             leak_free_tac.
        * intros t' evs (k & j & Hj & Hth) Hevs. simpl.
          exists k, j. split; [lia|done].
      + by intros s' (_ & _ & Hth & _).
    - rewrite Nat.max_l by lia.
      eapply sat_bind_eq; [done|]. destruct buf as [a|]; [|lia].
      eapply Resize_tail_sat; [done|done|lia| |].
      + intros t' Ht'. exists (Some a). split; [|split].
        * unfold vec_at. simpl. rewrite !lookup_insert_eq.
          rewrite length_app, length_replicate.
          split; [do 2 f_equal; lia|]. split; [lia|done].
        * done.
        * simpl. eexists. split; [done|]. apply leak_free_replicate_ctor.
      + by intros t' evs Hth Hevs. }
  destruct (sat_quiet _ _ _ _ Hsat)
    as ([] & s1 & Hrun1 & buf1 & Hvec1 & Hb1 & evs1 & Hl1 & Hlf1).
  { intros s1 Hth. by eapply quiet_not_threw. }
  destruct (Resize_shrink_eq this buf1 _ _ (length xs) s1 Hvec1)
    as (a & -> & Hrun2).
  { rewrite length_app, length_replicate. lia. }
  exists (Some a). eexists. split.
  { erewrite bind_Ret; [exact Hrun2|exact Hrun1]. }
  rewrite take_app_length, drop_app_length in *.
  destruct Hvec1 as (Hv1 & Hle1 & Hbuf1).
  rewrite length_app, length_replicate in Hle1.
  split_and!.
  - unfold vec_at. simpl. rewrite !lookup_insert_eq. split_and!; try done. lia.
  - done.
  - simpl. eexists. rewrite Hl1, <- app_assoc. split; [done|]. leak_free_tac.
Qed.

End resizing.

(** * The theorems at concrete vectors *)

Lemma calm_quiet t : quiet_from (E:=calm) t.
Proof. intros k j _. by destruct k. Defined.

Lemma wary_quiet t : quiet_from (E:=wary) t.
Proof. intros k j _. by destruct k. Defined.

Lemma huge_large : 2 < huge.
Proof. unfold huge. lia. Qed.

Lemma huge_bytes : byte_count (E:=calm) Requested huge = 4%N.
Proof. unfold byte_count, huge. rewrite N2Nat.id. reflexivity. Qed.

Lemma huge_cells : cells_for (E:=calm) Requested huge = 1.
Proof. unfold cells_for. rewrite huge_bytes. reflexivity. Qed.

Lemma s_full_vec_at : vec_at s_full 0 (Some 0) 2 [1; 2].
Proof. unfold vec_at. simpl. split_and!; [reflexivity|lia|reflexivity]. Defined.

Lemma s_room_vec_at : vec_at s_room 0 (Some 0) 5 [1; 2; 3].
Proof. unfold vec_at. simpl. split_and!; [reflexivity|lia|reflexivity]. Defined.

Lemma s_two_vec_at_0 : vec_at s_two 0 (Some 0) 5 [1; 2; 3].
Proof. unfold vec_at. simpl. split_and!; [reflexivity|lia|reflexivity]. Defined.

Lemma s_two_vec_at_1 : vec_at s_two 1 (Some 1) 2 [7; 8].
Proof. unfold vec_at. simpl. split_and!; [reflexivity|lia|reflexivity]. Defined.

Lemma Reserve_frame_witness :
  Reserve (E:=calm) 0 1 s_full = (Ret tt, s_full)
  /\ exists b s', Reserve (E:=calm) 0 7 s_full = (Ret tt, s')
       /\ heap s_full !! b = None
       /\ vec_at s' 0 (Some b) 7 [1; 2]
       /\ Size 0 s' = (Ret 2, s')
       /\ Capacity 0 s' = (Ret 7, s').
Proof.
  split.
  - apply (Reserve_frame (E:=calm) 0 (Some 0) 2 [1; 2] 1 s_full s_full_vec_at). lia.
  - apply (Reserve_frame (E:=calm) 0 (Some 0) 2 [1; 2] 7 s_full s_full_vec_at);
      [lia|reflexivity|apply calm_quiet].
Defined.

(** C9 as stated fails by the design of the code, which computes the
    byte count of the new buffer in [size_t] and has no check of the
    capacity asked for.  For elements of four bytes, [Reserve(2^62 + 1)]
    on the vector [[1; 2]] of capacity [2] asks [operator new] for four
    bytes, a block with room for one element, and the relocation of the
    second element runs beyond its end. *)
Lemma Reserve_wraps_around :
  vec_at s_full 0 (Some 0) 2 [1; 2] /\ 2 < huge
  /\ byte_count (E:=calm) Requested huge = 4%N
  /\ cells_for (E:=calm) Requested huge = 1
  /\ fst (Reserve (E:=calm) 0 huge s_full) = Fault.
Proof.
  split_and!; [apply s_full_vec_at|apply huge_large|apply huge_bytes|apply huge_cells|].
  destruct (Reserve_short_stops (E:=calm) 0 (Some 0) 2 [1; 2] huge s_full
              s_full_vec_at huge_large) as (s' & ->); [|apply calm_quiet|done].
  rewrite huge_cells. simpl. lia.
Qed.

Lemma EmplaceBack_full_doubles_witness :
  exists b s',
    EmplaceBack (E:=calm) 0 OpCopy 9 s_full = (Ret (Ptr (Some b) 2), s')
    /\ vec_at s' 0 (Some b) 4 [1; 2; 9]
    /\ Size 0 s' = (Ret 3, s')
    /\ Capacity 0 s' = (Ret 4, s')
    /\ (p <- Vector_index 0 2 ;; peek p) s' = (Ret 9, s')
    /\ (OpCopy = OpCopy -> PushBack (E:=calm) 0 9 s_full = (Ret tt, s'))
    /\ (OpCopy = OpMove -> PushBack_move (E:=calm) 0 9 s_full = (Ret tt, s')).
Proof.
  apply (EmplaceBack_full_doubles (E:=calm) 0 (Some 0) [1; 2] OpCopy 9 s_full
           s_full_vec_at (calm_quiet _)).
Defined.

Lemma Insert_spec_witness :
  exists buf' s',
    Emplace (E:=calm) 0 (Ptr (Some 0) 1) OpCopy 9 s_room = (Ret (Ptr buf' 1), s')
    /\ vec_at s' 0 buf' 5 [1; 9; 2; 3]
    /\ Size 0 s' = (Ret 4, s')
    /\ (1 = 3 -> EmplaceBack (E:=calm) 0 OpCopy 9 s_room = (Ret (Ptr buf' 1), s'))
    /\ (OpCopy = OpCopy ->
        Insert (E:=calm) 0 (Ptr (Some 0) 1) 9 s_room = (Ret (Ptr buf' 1), s'))
    /\ (OpCopy = OpMove ->
        Insert_move (E:=calm) 0 (Ptr (Some 0) 1) 9 s_room = (Ret (Ptr buf' 1), s')).
Proof.
  apply (Insert_spec (E:=calm) 0 (Some 0) 5 [1; 2; 3] 1 OpCopy 9 s_room
           s_room_vec_at ltac:(simpl; lia) (calm_quiet _)).
Defined.

Lemma Erase_spec_witness :
  exists s',
    Erase (E:=calm) 0 (Ptr (Some 0) 1) s_room = (Ret (Ptr (Some 0) 1), s')
    /\ vec_at s' 0 (Some 0) 5 [1; 3]
    /\ Size 0 s' = (Ret 2, s')
    /\ (2 = 3 -> PopBack 0 s_room = (Ret tt, s')).
Proof.
  apply (Erase_spec (E:=calm) 0 (Some 0) 5 [1; 2; 3] 1 2 s_room
           s_room_vec_at eq_refl (fun _ => eq_refl)).
Defined.

Lemma copy_assign_spec_witness :
  exists buf' s',
    Vector_copy_assign (E:=calm) 0 1 s_two = (Ret tt, s')
    /\ vec_at s' 0 buf' 5 [7; 8]
    /\ vec_at s' 1 (Some 1) 2 [7; 8]
    /\ Size 0 s' = (Ret 2, s')
    /\ (2 <= 5 -> buf' = Some 0)
    /\ (5 < 2 -> exists b, buf' = Some b /\ heap s_two !! b = None).
Proof.
  apply (copy_assign_spec (E:=calm) 0 1 (Some 0) 5 [1; 2; 3] (Some 1) 2 [7; 8] s_two).
  - lia.
  - apply s_two_vec_at_0.
  - apply s_two_vec_at_1.
  - intros a Ha Hb. congruence.
  - apply calm_quiet.
Defined.

Lemma Resize_spec_witness :
  (exists buf' s', Resize (E:=calm) 0 4 s_full = (Ret tt, s')
     /\ vec_at s' 0 buf' 4 [1; 2; 0; 0]
     /\ Size 0 s' = (Ret 4, s'))
  /\ (exists buf' s', Resize (E:=calm) 0 4 s_room = (Ret tt, s')
     /\ vec_at s' 0 buf' 5 [1; 2; 3; 0]
     /\ Size 0 s' = (Ret 4, s'))
  /\ (exists s', Resize (E:=calm) 0 1 s_room = (Ret tt, s')
     /\ vec_at s' 0 (Some 0) 5 [1]
     /\ Size 0 s' = (Ret 1, s'))
  /\ (exists buf' s1 s2,
       Resize (E:=calm) 0 0 s_full = (Ret tt, s1)
       /\ Resize (E:=calm) 0 5 s1 = (Ret tt, s2)
       /\ vec_at s2 0 buf' 5 [0; 0; 0; 0; 0]
       /\ Size 0 s2 = (Ret 5, s2)).
Proof.
  split_and!.
  - apply (Resize_spec (E:=calm) 0 (Some 0) 2 [1; 2] 4 s_full s_full_vec_at);
      [simpl; lia|intros _; reflexivity|apply calm_quiet].
  - apply (Resize_spec (E:=calm) 0 (Some 0) 5 [1; 2; 3] 4 s_room s_room_vec_at);
      [simpl; lia|lia|apply calm_quiet].
  - apply (Resize_spec (E:=calm) 0 (Some 0) 5 [1; 2; 3] 1 s_room s_room_vec_at).
    simpl. lia.
  - apply (Resize_spec (E:=calm) 0 (Some 0) 2 [1; 2] 0 s_full s_full_vec_at);
      [done|intros _; reflexivity|apply calm_quiet].
Defined.

(** C8 as stated fails by the design of the code: [Resize] beyond the
    capacity goes through [Reserve], which computes the byte count of
    the new buffer in [size_t] with no check of the size asked for.
    For elements of four bytes, [Resize(2^62 + 1)] on the vector
    [[1; 2]] of capacity [2] gets a block with room for one element and
    runs beyond its end. *)
Lemma Resize_wraps_around :
  vec_at s_full 0 (Some 0) 2 [1; 2] /\ length [1; 2] < huge
  /\ cells_for (E:=calm) Requested huge = 1
  /\ fst (Resize (E:=calm) 0 huge s_full) = Fault.
Proof.
  split_and!; [apply s_full_vec_at|apply huge_large|apply huge_cells|].
  destruct (Resize_short_stops (E:=calm) 0 (Some 0) 2 [1; 2] huge s_full
              s_full_vec_at huge_large) as (s' & ->); [|apply calm_quiet|done].
  rewrite huge_cells. simpl. lia.
Qed.

Lemma relocation_strategy_witness :
  (reloc_kind (E:=calm) = OpMove
   /\ (forall s', Reserve (E:=calm) 0 4 s_full = (Ret tt, s') ->
         exists b, heap s_full !! b = None
           /\ vecs s' !! 0
              = Some {| data_ := {| buffer_ := Some b; capacity_ := 4 |}; size_ := 2 |}
           /\ heap s' !! b = Some [Some 1; Some 2; None; None]
           /\ log s' = [EAlloc b 4; ECtor OpMove 1; ECtor OpMove 2;
                        EDtor 0; EDtor 0; EFree 0 []])
   /\ (exists b s', Reserve (E:=calm) 0 4 s_full = (Ret tt, s')
         /\ vec_at s' 0 (Some b) 4 [1; 2])
   /\ exists b s', EmplaceBack (E:=calm) 0 OpArgs 9 s_full = (Ret (Ptr (Some b) 2), s')
         /\ vec_at s' 0 (Some b) 4 [1; 2; 9]
         /\ log s' = [EAlloc b 4; ECtor OpArgs 9; ECtor OpMove 1; ECtor OpMove 2;
                      EDtor 0; EDtor 0; EFree 0 []])
  /\ (reloc_kind (E:=wary) = OpCopy
      /\ (forall s', Reserve (E:=wary) 0 4 s_full = (Ret tt, s') ->
            exists b, heap s_full !! b = None
              /\ vecs s' !! 0
                 = Some {| data_ := {| buffer_ := Some b; capacity_ := 4 |};
                           size_ := 2 |}
              /\ heap s' !! b = Some [Some 1; Some 2; None; None]
              /\ log s' = [EAlloc b 4; ECtor OpCopy 1; ECtor OpCopy 2;
                           EDtor 1; EDtor 2; EFree 0 []])
      /\ (exists b s', Reserve (E:=wary) 0 4 s_full = (Ret tt, s')
            /\ vec_at s' 0 (Some b) 4 [1; 2])
      /\ exists b s', EmplaceBack (E:=wary) 0 OpArgs 9 s_full
                      = (Ret (Ptr (Some b) 2), s')
            /\ vec_at s' 0 (Some b) 4 [1; 2; 9]
            /\ log s' = [EAlloc b 4; ECtor OpArgs 9; ECtor OpCopy 1; ECtor OpCopy 2;
                         EDtor 1; EDtor 2; EFree 0 []]).
Proof.
  split.
  - destruct (relocation_strategy (E:=calm) 0 (Some 0) 2 [1; 2] s_full
                s_full_vec_at (calm_quiet _)) as (H1 & H2 & H3 & _).
    destruct (H2 4 ltac:(lia)) as [H2a H2b].
    split_and!; [exact H1|exact H2a|apply H2b; reflexivity|apply H3; reflexivity].
  - destruct (relocation_strategy (E:=wary) 0 (Some 0) 2 [1; 2] s_full
                s_full_vec_at (wary_quiet _)) as (H1 & H2 & H3 & _).
    destruct (H2 4 ltac:(lia)) as [H2a H2b].
    split_and!; [exact H1|exact H2a|apply H2b; reflexivity|apply H3; reflexivity].
Defined.

Lemma failure_preserves_original_witness :
  (heap (snd (Vector_ctor_copy (E:=copy_thrower 2) 5 0 s_full)) = heap s_full
   /\ vecs (snd (Vector_ctor_copy (E:=copy_thrower 2) 5 0 s_full)) = vecs s_full
   /\ exists evs,
        log (snd (Vector_ctor_copy (E:=copy_thrower 2) 5 0 s_full))
        = log s_full ++ evs /\ leak_free evs)
  /\ (heap (snd (Reserve (E:=copy_thrower 2) 0 4 s_full)) = heap s_full
      /\ vecs (snd (Reserve (E:=copy_thrower 2) 0 4 s_full)) = vecs s_full
      /\ exists evs,
           log (snd (Reserve (E:=copy_thrower 2) 0 4 s_full))
           = log s_full ++ evs /\ leak_free evs)
  /\ ((exists evs,
         log (snd (Resize (E:=copy_thrower 2) 0 4 s_full)) = log s_full ++ evs
         /\ leak_free evs)
      /\ (((4 <= 2 \/ exists s1, Reserve (E:=copy_thrower 2) 0 4 s_full = (Throw, s1))
           /\ vec_at (snd (Resize (E:=copy_thrower 2) 0 4 s_full)) 0 (Some 0) 2 [1; 2]
           /\ heap (snd (Resize (E:=copy_thrower 2) 0 4 s_full)) = heap s_full
           /\ vecs (snd (Resize (E:=copy_thrower 2) 0 4 s_full)) = vecs s_full)
          \/ (2 < 4
              /\ (exists s1, Reserve (E:=copy_thrower 2) 0 4 s_full = (Ret tt, s1))
              /\ exists b, heap s_full !! b = None
                   /\ vecs (snd (Resize (E:=copy_thrower 2) 0 4 s_full)) !! 0
                      = Some {| data_ := {| buffer_ := Some b; capacity_ := 4 |};
                                size_ := 2 |}
                   /\ heap (snd (Resize (E:=copy_thrower 2) 0 4 s_full)) !! b
                      = Some (cells_of (cells_for (E:=copy_thrower 2) Requested 4)
                                       [1; 2])
                   /\ (representable (E:=copy_thrower 2) 4 ->
                       vec_at (snd (Resize (E:=copy_thrower 2) 0 4 s_full)) 0
                              (Some b) 4 [1; 2]))))
  /\ ((exists evs,
         log (snd (Resize (E:=default_thrower) 0 4 s_full)) = log s_full ++ evs
         /\ leak_free evs)
      /\ (((4 <= 2 \/ exists s1, Reserve (E:=default_thrower) 0 4 s_full = (Throw, s1))
           /\ vec_at (snd (Resize (E:=default_thrower) 0 4 s_full)) 0 (Some 0) 2 [1; 2]
           /\ heap (snd (Resize (E:=default_thrower) 0 4 s_full)) = heap s_full
           /\ vecs (snd (Resize (E:=default_thrower) 0 4 s_full)) = vecs s_full)
          \/ (2 < 4
              /\ (exists s1, Reserve (E:=default_thrower) 0 4 s_full = (Ret tt, s1))
              /\ exists b, heap s_full !! b = None
                   /\ vecs (snd (Resize (E:=default_thrower) 0 4 s_full)) !! 0
                      = Some {| data_ := {| buffer_ := Some b; capacity_ := 4 |};
                                size_ := 2 |}
                   /\ heap (snd (Resize (E:=default_thrower) 0 4 s_full)) !! b
                      = Some (cells_of (cells_for (E:=default_thrower) Requested 4)
                                       [1; 2])
                   /\ (representable (E:=default_thrower) 4 ->
                       vec_at (snd (Resize (E:=default_thrower) 0 4 s_full)) 0
                              (Some b) 4 [1; 2]))))
  /\ (heap (snd (EmplaceBack (E:=copy_thrower 2) 0 OpArgs 9 s_full)) = heap s_full
      /\ vecs (snd (EmplaceBack (E:=copy_thrower 2) 0 OpArgs 9 s_full))
         = vecs s_full).
Proof.
  pose proof (failure_preserves_original (E:=copy_thrower 2) 0 (Some 0) 2 [1; 2]
                s_full (or_introl eq_refl) s_full_vec_at) as (H1 & H2 & H3 & H4 & _).
  pose proof (failure_preserves_original (E:=default_thrower) 0 (Some 0) 2 [1; 2]
                s_full (or_introl eq_refl) s_full_vec_at) as (_ & _ & H3' & _).
  split; [|split; [|split; [|split]]].
  - apply (H1 5). vm_compute. reflexivity.
  - apply (H2 4). vm_compute. reflexivity.
  - apply (H3 4). vm_compute. reflexivity.
  - apply (H3' 4). vm_compute. reflexivity.
  - apply (H4 OpArgs 9); [reflexivity|]. vm_compute. reflexivity.
Defined.

(** C1 as stated fails twice by the design of the code.  A type
    without copy constructor whose move constructor raises is relocated
    by move, and a failed [Reserve] leaves the first element of the
    original vector moved-from.  A growing [Resize] reserves first; when
    a default constructor raises afterwards the capacity has already
    changed. *)
Lemma failure_changes_original :
  (fst (Reserve (E:=move_only_thrower 2) 0 4 s_full) = Throw
   /\ fst ((p <- Vector_index 0 0 ;; peek p) s_full) = Ret 1
   /\ fst ((p <- Vector_index 0 0 ;; peek p)
             (snd (Reserve (E:=move_only_thrower 2) 0 4 s_full))) = Ret 0)
  /\ (fst (Resize (E:=default_thrower) 0 4 s_full) = Throw
      /\ fst (Capacity 0 s_full) = Ret 2
      /\ fst (Capacity 0 (snd (Resize (E:=default_thrower) 0 4 s_full))) = Ret 4).
Proof. vm_compute. by split_and!. Qed.

(** C2 fails on the code.  Move assignment onto the vector [[1; 2; 3]]
    releases its buffer with the three elements still alive.  So does
    the unwinding of a failed [EmplaceBack] on a full vector with the
    element just constructed in the new buffer, and of a failed
    [Emplace] with that element and the prefix already copied. *)
Theorem release_with_live_objects :
  (fst (Vector_move_assign 0 1 s_two) = Ret tt
   /\ log (snd (Vector_move_assign 0 1 s_two)) = [EFree 0 [1; 2; 3]])
  /\ (fst (EmplaceBack (E:=copy_thrower 2) 0 OpArgs 9 s_full) = Throw
      /\ log (snd (EmplaceBack (E:=copy_thrower 2) 0 OpArgs 9 s_full))
         = [EAlloc 1 4; ECtor OpArgs 9; EFree 1 [9]])
  /\ (fst (Emplace (E:=copy_thrower 3) 0 (Ptr (Some 0) 1) OpArgs 9 s_full) = Throw
      /\ log (snd (Emplace (E:=copy_thrower 3) 0 (Ptr (Some 0) 1) OpArgs 9 s_full))
         = [EAlloc 1 4; ECtor OpArgs 9; ECtor OpCopy 1; EFree 1 [1; 9]]).
Proof. vm_compute. by split_and!. Qed.

(** * The further properties at concrete vectors *)

Lemma s_empty_vec_at : vec_at s_empty 0 None 0 [].
Proof. unfold vec_at. simpl. split_and!; [reflexivity|lia|reflexivity]. Defined.

Lemma Vector_ctor_size_spec_witness :
  Vector_ctor_size (E:=calm) 1 0 s_full
  = (Ret tt, State (heap s_full)
                   (<[1 := {| data_ := RawMemory_default; size_ := 0 |}]> (vecs s_full))
                   (ticks s_full) (log s_full))
  /\ (exists b s', Vector_ctor_size (E:=calm) 1 3 s_full = (Ret tt, s')
        /\ heap s_full !! b = None
        /\ vec_at s' 1 (Some b) 3 [0; 0; 0]
        /\ log s' = [EAlloc b 3; ECtor OpDefault 0; ECtor OpDefault 0;
                     ECtor OpDefault 0])
  /\ (heap (snd (Vector_ctor_size (E:=default_thrower) 1 3 s_full)) = heap s_full
      /\ vecs (snd (Vector_ctor_size (E:=default_thrower) 1 3 s_full)) = vecs s_full
      /\ exists evs,
           log (snd (Vector_ctor_size (E:=default_thrower) 1 3 s_full))
           = log s_full ++ evs /\ leak_free evs).
Proof.
  split; [|split].
  - by apply (Vector_ctor_size_spec (E:=calm) 1 0 s_full).
  - apply (Vector_ctor_size_spec (E:=calm) 1 3 s_full);
      [lia|reflexivity|apply calm_quiet].
  - apply (Vector_ctor_size_spec (E:=default_thrower) 1 3 s_full).
    vm_compute. reflexivity.
Defined.

Lemma Vector_ctor_copy_spec_witness :
  exists buf' s',
    Vector_ctor_copy (E:=calm) 5 0 s_room = (Ret tt, s')
    /\ vec_at s' 5 buf' 3 [1; 2; 3]
    /\ vec_at s' 0 (Some 0) 5 [1; 2; 3]
    /\ (forall b, buf' = Some b -> heap s_room !! b = None)
    /\ ([1; 2; 3] = [] -> buf' = None /\ heap s' = heap s_room /\ log s' = log s_room).
Proof.
  apply (Vector_ctor_copy_spec (E:=calm) 5 0 (Some 0) 5 [1; 2; 3] s_room
           s_room_vec_at ltac:(lia) (calm_quiet _)).
Defined.

Lemma Vector_ctor_move_spec_witness :
  exists s',
    Vector_ctor_move 5 0 s_room = (Ret tt, s')
    /\ vec_at s' 5 (Some 0) 5 [1; 2; 3]
    /\ vec_at s' 0 None 0 []
    /\ heap s' = heap s_room /\ ticks s' = ticks s_room /\ log s' = log s_room.
Proof.
  apply (Vector_ctor_move_spec 5 0 (Some 0) 5 [1; 2; 3] s_room s_room_vec_at).
  lia.
Defined.

Lemma Swap_spec_witness :
  exists s',
    Swap 0 1 s_two = (Ret tt, s')
    /\ vecs s' !! 0
       = Some {| data_ := {| buffer_ := Some 1; capacity_ := 2 |}; size_ := 2 |}
    /\ vecs s' !! 1
       = Some {| data_ := {| buffer_ := Some 0; capacity_ := 5 |}; size_ := 3 |}
    /\ heap s' = heap s_two /\ ticks s' = ticks s_two /\ log s' = log s_two
    /\ Swap 0 1 s' = (Ret tt, s_two)
    /\ (0 = 1 -> s' = s_two).
Proof.
  apply (Swap_spec 0 1
           {| data_ := {| buffer_ := Some 0; capacity_ := 5 |}; size_ := 3 |}
           {| data_ := {| buffer_ := Some 1; capacity_ := 2 |}; size_ := 2 |}
           s_two); reflexivity.
Defined.

Lemma Vector_dtor_spec_witness :
  exists s',
    Vector_dtor 0 s_room = (Ret tt, s')
    /\ heap s' = unplug (Some 0) (heap s_room)
    /\ vecs s' = delete 0 (vecs s_room)
    /\ log s' = log s_room ++ (EDtor <$> [1; 2; 3]) ++ freed (Some 0)
    /\ leak_free ((EDtor <$> [1; 2; 3]) ++ freed (Some 0))
    /\ (Some 0 = None -> log s' = log s_room /\ heap s' = heap s_room)
    /\ (forall new, vecs s_room !! new = None ->
        (Vector_ctor_default new ;; Vector_dtor new) s_room = (Ret tt, s_room)).
Proof.
  apply (Vector_dtor_spec 0 (Some 0) 5 [1; 2; 3] s_room s_room_vec_at).
Defined.

Lemma copy_then_destroy_witness :
  exists s',
    (Vector_ctor_copy (E:=calm) 5 0 ;; Vector_dtor 5) s_room = (Ret tt, s')
    /\ heap s' = heap s_room /\ vecs s' = vecs s_room
    /\ exists evs, log s' = log s_room ++ evs /\ leak_free evs.
Proof.
  apply (copy_then_destroy (E:=calm) 5 0 (Some 0) 5 [1; 2; 3] s_room
           s_room_vec_at eq_refl (calm_quiet _)).
Defined.

Lemma Vector_move_assign_spec_witness :
  exists s',
    Vector_move_assign 0 1 s_two = (Ret tt, s')
    /\ vec_at s' 0 (Some 1) 2 [7; 8]
    /\ vec_at s' 1 None 0 []
    /\ heap s' = unplug (Some 0) (heap s_two)
    /\ log s' = log s_two ++ abandoned (Some 0) [1; 2; 3]
    /\ ([1; 2; 3] = [] -> leak_free (abandoned (Some 0) [1; 2; 3])).
Proof.
  apply (Vector_move_assign_spec 0 1 (Some 0) 5 [1; 2; 3] (Some 1) 2 [7; 8] s_two).
  - lia.
  - apply s_two_vec_at_0.
  - apply s_two_vec_at_1.
  - intros a Ha Hb. congruence.
Defined.

Lemma EmplaceBack_room_spec_witness :
  (exists s', EmplaceBack (E:=calm) 0 OpCopy 9 s_room = (Ret (Ptr (Some 0) 3), s')
     /\ vec_at s' 0 (Some 0) 5 [1; 2; 3; 9]
     /\ (p <- Vector_index 0 3 ;; peek p) s' = (Ret 9, s')
     /\ ticks s' = 1
     /\ log s' = [ECtor OpCopy 9])
  /\ EmplaceBack (E:=default_thrower) 0 OpDefault 0 s_room
     = (Throw, State (heap s_room) (vecs s_room) 1 (log s_room)).
Proof.
  split.
  - apply (EmplaceBack_room_spec (E:=calm) 0 (Some 0) 5 [1; 2; 3] OpCopy 9 s_room
             s_room_vec_at); [simpl; lia|reflexivity].
  - apply (EmplaceBack_room_spec (E:=default_thrower) 0 (Some 0) 5 [1; 2; 3]
             OpDefault 0 s_room s_room_vec_at); [simpl; lia|reflexivity].
Defined.

Lemma push_each_room_witness :
  exists s',
    push_each (E:=calm) 0 [8; 9] s_room = (Ret tt, s')
    /\ vec_at s' 0 (Some 0) 5 [1; 2; 3; 8; 9]
    /\ begin_ 0 s' = (Ret (Ptr (Some 0) 0), s')
    /\ Capacity 0 s' = (Ret 5, s')
    /\ Size 0 s' = (Ret 5, s')
    /\ log s' = [ECtor OpCopy 8; ECtor OpCopy 9].
Proof.
  apply (push_each_room (E:=calm) 0 (Some 0) 5 [1; 2; 3] [8; 9] s_room
           s_room_vec_at); [simpl; lia|].
  intros j _. reflexivity.
Defined.

Lemma push_each_room_failure_witness :
  exists s',
    push_each (E:=copy_thrower 1) 0 [8; 9] s_room = (Throw, s')
    /\ vec_at s' 0 (Some 0) 5 [1; 2; 3; 8]
    /\ log s' = [ECtor OpCopy 8].
Proof.
  apply (push_each_room_failure (E:=copy_thrower 1) 0 (Some 0) 5 [1; 2; 3] [8; 9] 1
           s_room s_room_vec_at).
  - simpl. lia.
  - simpl. lia.
  - intros i Hi. assert (i = 0) as -> by lia. reflexivity.
  - reflexivity.
Defined.

Lemma push_each_growth_witness :
  exists b k s' evs,
    push_each (E:=calm) 0 [1; 2; 3; 4; 5] s_empty = (Ret tt, s')
    /\ vec_at s' 0 (Some b) (2 ^ k) [1; 2; 3; 4; 5]
    /\ 5 <= 2 ^ k < 10
    /\ log s' = log s_empty ++ evs
    /\ tally is_alloc evs = S k
    /\ tally is_ctor evs = 5 + 2 ^ k - 1
    /\ tally is_ctor evs < 15
    /\ leak_free evs.
Proof.
  apply (push_each_growth (E:=calm) 0 [1; 2; 3; 4; 5] s_empty s_empty_vec_at);
    [done|apply calm_quiet].
Defined.

Lemma EmplaceBack_PopBack_witness :
  exists buf' s',
    (EmplaceBack (E:=calm) 0 OpCopy 9 ;; PopBack 0) s_room = (Ret tt, s')
    /\ vec_at s' 0 buf' 5 [1; 2; 3]
    /\ (3 < 5 ->
        buf' = Some 0 /\ heap s' = heap s_room /\ vecs s' = vecs s_room
        /\ log s' = log s_room ++ [ECtor OpCopy 9; EDtor 9]).
Proof.
  apply (EmplaceBack_PopBack (E:=calm) 0 (Some 0) 5 [1; 2; 3] OpCopy 9 s_room
           s_room_vec_at (calm_quiet _)).
Defined.

Lemma Reserve_then_push_witness :
  exists buf' s1 s',
    Reserve (E:=calm) 0 4 s_full = (Ret tt, s1)
    /\ vec_at s1 0 buf' 4 [1; 2]
    /\ push_each (E:=calm) 0 [8; 9] s1 = (Ret tt, s')
    /\ vec_at s' 0 buf' 4 [1; 2; 8; 9]
    /\ log s' = log s1 ++ [ECtor OpCopy 8; ECtor OpCopy 9]
    /\ (4 <= 2 -> s1 = s_full /\ buf' = Some 0).
Proof.
  apply (Reserve_then_push (E:=calm) 0 (Some 0) 2 [1; 2] [8; 9] 4 s_full
           s_full_vec_at); [simpl; lia|intros _; reflexivity|apply calm_quiet].
Defined.

Lemma iterators_spec_witness :
  begin_ 0 s_room = (Ret (Ptr (Some 0) 0), s_room)
  /\ end_ 0 s_room = (Ret (Ptr (Some 0) 3), s_room)
  /\ distance (Ptr (Some 0) 0) (Ptr (Some 0) 3) = 3
  /\ ([1; 2; 3] = [] <-> Ptr (Some 0) 0 = Ptr (Some 0) 3)
  /\ (forall i x, [1; 2; 3] !! i = Some x ->
        Vector_index 0 i s_room = (Ret (ptr_add (Ptr (Some 0) 0) i), s_room)
        /\ Vector_index_const 0 i s_room = (Ret (ptr_add (Ptr (Some 0) 0) i), s_room)
        /\ peek (ptr_add (Ptr (Some 0) 0) i) s_room = (Ret x, s_room)).
Proof.
  apply (iterators_spec 0 (Some 0) 5 [1; 2; 3] s_room s_room_vec_at).
Defined.

Lemma const_index_unchecked_witness :
  Vector_index 0 3 s_room = (Fault, s_room)
  /\ (3 < 5 ->
      Vector_index_const 0 3 s_room = (Ret (Ptr (Some 0) 3), s_room)
      /\ (p <- Vector_index_const 0 3 ;; peek p) s_room = (Fault, s_room))
  /\ (5 <= 3 -> Vector_index_const 0 3 s_room = (Fault, s_room)).
Proof.
  apply (const_index_unchecked 0 (Some 0) 5 [1; 2; 3] 3 s_room s_room_vec_at).
  simpl. lia.
Defined.

Lemma precondition_faults_witness :
  PopBack 0 s_empty = (Fault, s_empty)
  /\ Erase (E:=calm) 0 (Ptr (Some 0) 3) s_room = (Fault, s_room)
  /\ Emplace (E:=calm) 0 (Ptr (Some 0) 4) OpCopy 9 s_room = (Fault, s_room).
Proof.
  split; [|split].
  - by apply (precondition_faults (E:=calm) 0 None 0 [] s_empty s_empty_vec_at).
  - apply (precondition_faults (E:=calm) 0 (Some 0) 5 [1; 2; 3] s_room s_room_vec_at).
    simpl. lia.
  - apply (precondition_faults (E:=calm) 0 (Some 0) 5 [1; 2; 3] s_room s_room_vec_at).
    simpl. lia.
Defined.

Lemma self_move_assign_witness :
  exists s',
    Vector_move_assign 0 0 s_room = (Ret tt, s')
    /\ Size 0 s' = (Ret 0, s')
    /\ Capacity 0 s' = (Ret 5, s')
    /\ begin_ 0 s' = (Ret (Ptr (Some 0) 0), s')
    /\ heap s' = heap s_room /\ ticks s' = ticks s_room /\ log s' = log s_room
    /\ exists s'', Vector_dtor 0 s' = (Ret tt, s'')
         /\ log s'' = log s_room ++ [EFree 0 [1; 2; 3]].
Proof.
  apply (self_move_assign 0 0 5 [1; 2; 3] s_room s_room_vec_at).
Defined.

Lemma Erase_terminates_witness :
  exists s',
    Erase (E:=assign_thrower 0) 0 (Ptr (Some 0) 1) s_room = (Fault, s')
    /\ vecs s' = vecs s_room /\ ticks s' = 1
    /\ log s' = log s_room ++ (EAssign OpMoveAssign <$> take 0 [3]).
Proof.
  apply (Erase_terminates (E:=assign_thrower 0) 0 (Some 0) 5 [1] 2 [3] 0 s_room
           s_room_vec_at).
  - simpl. lia.
  - intros i Hi. lia.
  - reflexivity.
Defined.

Lemma copy_assign_realloc_failure_witness :
  (exists s', Vector_copy_assign (E:=copy_thrower 1) 1 0 s_two = (Ret tt, s')
              \/ Vector_copy_assign (E:=copy_thrower 1) 1 0 s_two = (Throw, s'))
  /\ (vec_at (snd (Vector_copy_assign (E:=copy_thrower 1) 1 0 s_two)) 1 (Some 1) 2 [7; 8]
      /\ vec_at (snd (Vector_copy_assign (E:=copy_thrower 1) 1 0 s_two)) 0 (Some 0) 5
                [1; 2; 3]
      /\ heap (snd (Vector_copy_assign (E:=copy_thrower 1) 1 0 s_two)) = heap s_two
      /\ vecs (snd (Vector_copy_assign (E:=copy_thrower 1) 1 0 s_two)) = vecs s_two
      /\ threw (E:=copy_thrower 1) (ticks s_two)
               (ticks (snd (Vector_copy_assign (E:=copy_thrower 1) 1 0 s_two)))
      /\ exists evs,
           log (snd (Vector_copy_assign (E:=copy_thrower 1) 1 0 s_two))
           = log s_two ++ evs /\ leak_free evs).
Proof.
  pose proof (copy_assign_realloc_failure (E:=copy_thrower 1) 1 0 (Some 1) 2 [7; 8]
                (Some 0) 5 [1; 2; 3] s_two ltac:(lia) s_two_vec_at_1 s_two_vec_at_0
                ltac:(intros a Ha Hb; congruence) ltac:(simpl; lia)) as [H1 H2].
  split; [exact H1|]. apply H2. vm_compute. reflexivity.
Defined.

Lemma copy_assign_in_place_failure_witness :
  exists s',
    Vector_copy_assign (E:=assign_thrower 1) 0 1 s_two = (Throw, s')
    /\ vec_at s' 0 (Some 0) 5 [7; 2; 3]
    /\ vec_at s' 1 (Some 1) 2 [7; 8]
    /\ log s' = [EAssign OpCopyAssign 7].
Proof.
  apply (copy_assign_in_place_failure (E:=assign_thrower 1) 0 1 0 5 [1; 2; 3] 1 2
           [7; 8] 1 s_two ltac:(lia) s_two_vec_at_0 s_two_vec_at_1).
  - lia.
  - simpl. lia.
  - simpl. lia.
  - simpl. lia.
  - intros i Hi. assert (i = 0) as -> by lia. reflexivity.
  - reflexivity.
Defined.

Lemma Emplace_Erase_witness :
  exists buf' s',
    (p <- Emplace (E:=calm) 0 (Ptr (Some 0) 1) OpCopy 9 ;; Erase (E:=calm) 0 p) s_full
    = (Ret (Ptr buf' 1), s')
    /\ vec_at s' 0 buf' 4 [1; 2]
    /\ (2 < 2 -> buf' = Some 0).
Proof.
  apply (Emplace_Erase (E:=calm) 0 (Some 0) 2 [1; 2] 1 OpCopy 9 s_full
           s_full_vec_at ltac:(simpl; lia) (calm_quiet _)).
Defined.

Lemma Emplace_room_failure_witness :
  Emplace (E:=default_thrower) 0 (Ptr (Some 0) 1) OpDefault 0 s_room
  = (Throw, State (heap s_room) (vecs s_room) 1 (log s_room))
  /\ Emplace (E:=move_only_thrower 1) 0 (Ptr (Some 0) 1) OpArgs 9 s_room
     = (Throw, State (heap s_room) (vecs s_room) 2
                     (log s_room ++ [ECtor OpArgs 9; EDtor 9])).
Proof.
  split.
  - apply (Emplace_room_failure (E:=default_thrower) 0 0 5 [1; 2; 3] 1 OpDefault 0
             s_room s_room_vec_at); [simpl; lia|simpl; lia|reflexivity].
  - apply (Emplace_room_failure (E:=move_only_thrower 1) 0 0 5 [1; 2; 3] 1 OpArgs 9
             s_room s_room_vec_at); [simpl; lia|simpl; lia|reflexivity|reflexivity].
Defined.

Lemma Emplace_room_shift_failure_witness :
  exists s',
    Emplace (E:=assign_thrower 2) 0 (Ptr (Some 0) 1) OpArgs 9 s_room = (Throw, s')
    /\ vecs s' = vecs s_room
    /\ heap s' = <[0 := [Some 1; Some 2; Some 0; Some 3; None]]> (heap s_room)
    /\ log s' = [ECtor OpArgs 9; ECtor OpMove 3; EDtor 9].
Proof.
  apply (Emplace_room_shift_failure (E:=assign_thrower 2) 0 0 5 [1] [2] 3 OpArgs 9
           s_room s_room_vec_at); [simpl; lia|reflexivity..].
Defined.

Lemma other_vector_untouched_witness :
  (forall k x p s', EmplaceBack (E:=calm) 0 k x s_two = (Ret p, s') ->
     vec_at s' 1 (Some 1) 2 [7; 8])
  /\ (forall i k x p s', i <= 3 ->
        Emplace (E:=calm) 0 (Ptr (Some 0) i) k x s_two = (Ret p, s') ->
        vec_at s' 1 (Some 1) 2 [7; 8])
  /\ (forall n s', Reserve (E:=calm) 0 n s_two = (Ret tt, s') ->
        vec_at s' 1 (Some 1) 2 [7; 8])
  /\ (forall i p s', i < 3 ->
        Erase (E:=calm) 0 (Ptr (Some 0) i) s_two = (Ret p, s') ->
        vec_at s' 1 (Some 1) 2 [7; 8])
  /\ (forall s', [1; 2; 3] <> [] -> PopBack 0 s_two = (Ret tt, s') ->
        vec_at s' 1 (Some 1) 2 [7; 8])
  /\ (forall n s', n < 3 ->
        Resize (E:=calm) 0 n s_two = (Ret tt, s') -> vec_at s' 1 (Some 1) 2 [7; 8])
  /\ (forall s', Vector_dtor 0 s_two = (Ret tt, s') -> vec_at s' 1 (Some 1) 2 [7; 8]).
Proof.
  apply (other_vector_untouched (E:=calm) 0 1 (Some 0) 5 [1; 2; 3] (Some 1) 2 [7; 8]
           s_two s_two_vec_at_0 s_two_vec_at_1 ltac:(lia)
           ltac:(intros a Ha Hb; congruence) (calm_quiet _)).
Defined.

Lemma RawMemory_round_trip_witness :
  (r <- RawMemory_ctor (E:=calm) 0 ;; RawMemory_dtor r) s_full = (Ret tt, s_full)
  /\ (exists b s',
        (r <- RawMemory_ctor (E:=calm) 3 ;; RawMemory_dtor r) s_full = (Ret tt, s')
        /\ heap s_full !! b = None /\ heap s' = heap s_full /\ vecs s' = vecs s_full
        /\ log s' = log s_full ++ [EAlloc b 3; EFree b []])
  /\ (r <- RawMemory_ctor (E:=nat_element true true (fun _ _ => true)) 3 ;;
      RawMemory_dtor r) s_full
     = (Throw, State (heap s_full) (vecs s_full) 1 (log s_full)).
Proof.
  split; [|split].
  - by apply (RawMemory_round_trip (E:=calm) 0 s_full).
  - apply (RawMemory_round_trip (E:=calm) 3 s_full); [lia|reflexivity].
  - apply (RawMemory_round_trip (E:=nat_element true true (fun _ _ => true)) 3 s_full);
      [lia|reflexivity].
Defined.

Lemma Resize_in_place_failure_witness :
  (exists s', Resize (E:=default_thrower) 0 5 s_room = (Ret tt, s')
              \/ Resize (E:=default_thrower) 0 5 s_room = (Throw, s'))
  /\ (vec_at (snd (Resize (E:=default_thrower) 0 5 s_room)) 0 (Some 0) 5 [1; 2; 3]
      /\ heap (snd (Resize (E:=default_thrower) 0 5 s_room)) = heap s_room
      /\ vecs (snd (Resize (E:=default_thrower) 0 5 s_room)) = vecs s_room
      /\ threw (E:=default_thrower) (ticks s_room)
               (ticks (snd (Resize (E:=default_thrower) 0 5 s_room)))
      /\ exists evs,
           log (snd (Resize (E:=default_thrower) 0 5 s_room)) = log s_room ++ evs
           /\ leak_free evs).
Proof.
  pose proof (Resize_in_place_failure (E:=default_thrower) 0 (Some 0) 5 [1; 2; 3] 5
                s_room s_room_vec_at ltac:(simpl; lia)) as [H1 H2].
  split; [exact H1|]. apply H2. vm_compute. reflexivity.
Defined.

Lemma Resize_round_trip_witness :
  exists buf' s',
    (Resize (E:=calm) 0 4 ;; Resize (E:=calm) 0 (length [1; 2])) s_full = (Ret tt, s')
    /\ vec_at s' 0 buf' 4 [1; 2]
    /\ (4 <= 2 -> buf' = Some 0)
    /\ exists evs, log s' = log s_full ++ evs /\ leak_free evs.
Proof.
  apply (Resize_round_trip (E:=calm) 0 (Some 0) 2 [1; 2] 4 s_full s_full_vec_at);
    [simpl; lia|intros _; reflexivity|apply calm_quiet].
Defined.
